(** * A lazily-loaded tree model and its line-buffer reconciler

    Shallow embedding of the tree-view engine: [Node], [TreeModel] and
    [TreeView].  Objects that the source mutates in place are threaded
    explicitly: every method returns the receiver as it is after the call.
    A promise is represented by the value it settles to, and an [async]
    method by its run from the first line to the last with nothing in
    between: the order in which the runtime resumes several methods that
    are pending at the same time is not part of the model. *)

From Stdlib Require Import ZArith Lia.
From stdpp Require Import base option list strings gmap.

Local Open Scope Z_scope.

(** ** Data model *)

(** Modelled from the spec: the node descriptor [TreeViewNode] is declared in
    [../tree/domain], which is not part of the sources.  The fields are the
    ones the code reads: [viewId], [nodeUri] (absent for the synthetic root),
    [label], [icon] and [collapseState] (absent for a leaf). *)
Record TreeViewNode := mkTreeViewNode {
  viewId : string;
  nodeUri : option string;
  label : string;
  icon : option string;
  collapseState : option string
}.

Record NodeView := mkNodeView {
  underlying : TreeViewNode;
  view_level : Z;
  view_expandable : bool;
  view_expanded : bool
}.

(** [TreeModelUpdate].  The type of the anchor is a parameter: the model
    emits updates anchored at a [NodeView]; the view rewrites root-anchored
    updates into ones whose anchor is [payload[1]], which is [undefined]
    (here [None]) when the payload is too short. *)
Record Update (R : Type) := mkUpdate {
  ev_root : R;
  ev_length : Z;
  ev_payload : list NodeView;
  ev_focusEvent : bool
}.
Arguments mkUpdate {R} _ _ _ _.
Arguments ev_root {R} _.
Arguments ev_length {R} _.
Arguments ev_payload {R} _.
Arguments ev_focusEvent {R} _.

Abbreviation TreeModelUpdate := (Update NodeView).

(** A [Node] object.  [children] is the memoised promise of the children
    ([None] is [undefined]); [lastTouch] the stamp written by [touch]. *)
#[warnings="-register-all"]
Inductive Node := mkNode {
  viewNode : TreeViewNode;
  level : Z;
  expanded : bool;
  children : option (list Node);
  lastTouch : Z;
  defunct : bool
}.

Definition set_viewNode (n : Node) (v : TreeViewNode) : Node :=
  mkNode v (level n) (expanded n) (children n) (lastTouch n) (defunct n).
Definition set_expanded (n : Node) (b : bool) : Node :=
  mkNode (viewNode n) (level n) b (children n) (lastTouch n) (defunct n).
Definition set_children (n : Node) (c : option (list Node)) : Node :=
  mkNode (viewNode n) (level n) (expanded n) c (lastTouch n) (defunct n).
Definition set_lastTouch (n : Node) (t : Z) : Node :=
  mkNode (viewNode n) (level n) (expanded n) (children n) t (defunct n).
Definition set_defunct (n : Node) (b : bool) : Node :=
  mkNode (viewNode n) (level n) (expanded n) (children n) (lastTouch n) b.

(** ** The world outside a node

    Everything a [Node] method does to its surroundings: it reads the clock
    ([Date.now()]), fires updates on the shared emitter and sends visibility
    notifications to the provider. *)
Record World := mkWorld {
  clockReads : nat;
  fired : list TreeModelUpdate;
  notified : list (option string * bool)
}.

(** The surroundings a method runs in: the value of the [k]-th reading of
    the clock and the children the provider answers with. *)
Record Env := mkEnv {
  clock : nat → Z;
  loadNodeChildren : option string → list TreeViewNode
}.

Definition M (A : Type) : Type := World → A * World.

Definition ret {A} (a : A) : M A := λ w, (a, w).
Definition bind {A B} (m : M A) (f : A → M B) : M B :=
  λ w, let (a, w') := m w in f a w'.

Declare Scope m_scope.
Delimit Scope m_scope with m.
Notation "'do' x <- m ; k" := (bind m (λ x, k))
  (at level 10, x name, m at level 100, k at level 200) : m_scope.
Notation "'do' ' p <- m ; k" := (bind m (λ x, match x with p => k end))
  (at level 10, p pattern, m at level 100, k at level 200) : m_scope.
Local Open Scope m_scope.

Definition dateNow (e : Env) : M Z :=
  λ w, (clock e (clockReads w), mkWorld (S (clockReads w)) (fired w) (notified w)).
Definition fire (u : TreeModelUpdate) : M unit :=
  λ w, (tt, mkWorld (clockReads w) (fired w ++ [u]) (notified w)).
Definition sendTreeNodeVisibilityNotification (uri : option string) (collapsed : bool) : M unit :=
  λ w, (tt, mkWorld (clockReads w) (fired w) (notified w ++ [(uri, collapsed)])).

(** [Promise.all(xs.map(f))] and [xs.reduce((zP, x) => zP.then(z => f(z, x)), init)]
    over objects that [f] may mutate: the calls run in list order and the
    objects come back as the calls left them. *)
Definition mapM {A B} (f : A → M B) : list A → M (list B) :=
  fix go l :=
    match l with
    | [] => ret []
    | x :: l' => do y <- f x; do ys <- go l'; ret (y :: ys)
    end.

Definition foldNodes {S N} (f : S → N → M (S * N)) : S → list N → M (S * list N) :=
  fix go s l :=
    match l with
    | [] => ret (s, [])
    | c :: l' =>
        do '(s1, c1) <- f s c;
        do '(s2, l1) <- go s1 l';
        ret (s2, c1 :: l1)
    end.

(** ** Node *)

Definition expandable (n : Node) : bool :=
  bool_decide (collapseState (viewNode n) ≠ None).

Definition isExpanded (n : Node) : bool := expanded n.

Definition makeView (n : Node) : NodeView :=
  mkNodeView (viewNode n) (level n) (expandable n) (isExpanded n).

(** [new Node(node, level, provider, emitter)]: the field initialiser of
    [lastTouch] reads the clock. *)
Definition newNode (e : Env) (v : TreeViewNode) (lvl : Z) : M Node :=
  do t <- dateNow e; ret (mkNode v lvl false None t false).

(** [getChildren]: the cached children, or the ones loaded from the
    provider, which are then cached. *)
Definition getChildren (e : Env) (n : Node) : M (list Node * Node) :=
  match children n with
  | None =>
      do cs <- mapM (λ v, newNode e v (level n + 1))
                    (loadNodeChildren e (nodeUri (viewNode n)));
      ret (cs, set_children n (Some cs))
  | Some cs => ret (cs, n)
  end.

(** The recursive methods descend into the children of an expanded node
    only.  Children that have just been constructed by [getChildren] are
    collapsed, so on them a method takes its non-recursive branch; that
    branch is what is applied to them below.  The [_unfold] lemmas state
    that each method satisfies the recursive equation of its source text. *)

Definition height_children (rec : Node → M (Z * Node)) (n : Node) (cs : list Node)
  : M (Z * Node) :=
  do r <- mapM rec cs;
  ret (foldl Z.add 1 (r.*1), set_children n (Some (r.*2))).

Fixpoint height (e : Env) (n : Node) : M (Z * Node) :=
  if isExpanded n then
    match children n with
    | Some cs => height_children (height e) n cs
    | None =>
        do '(cs, n1) <- getChildren e n;
        height_children (λ c, ret (1, c)) n1 cs
    end
  else ret (1, n).

Definition collect_children (rec : list NodeView → Node → M (list NodeView * Node))
    (n : Node) (cs : list Node) (newAcc : list NodeView) : M (list NodeView * Node) :=
  do '(z, cs') <- foldNodes rec newAcc cs;
  ret (z, set_children n (Some cs')).

Fixpoint collectInternal (e : Env) (acc : list NodeView) (node : Node)
  : M (list NodeView * Node) :=
  let newAcc := acc ++ [makeView node] in
  if isExpanded node then
    match children node with
    | Some cs => collect_children (collectInternal e) node cs newAcc
    | None =>
        do '(cs, n1) <- getChildren e node;
        collect_children (λ z c, ret (z ++ [makeView c], c)) n1 cs newAcc
    end
  else ret (newAcc, node).

Definition collectVisibleNodes (e : Env) (n : Node) : M (list NodeView * Node) :=
  collectInternal e [] n.

(** [touch] stamps the node, then its children when it is expanded, and
    returns the stamp of the node.  The source starts the [touch] of all the
    children before it awaits any of them, so that the order in which the
    nodes further down read the clock is the one in which the runtime
    resumes them; here each child is stamped with all that is below it
    before the next one.  The stamp of the node itself, which is what
    [touch] returns and what [expand] and [collapse] compare, is read first
    in both. *)
Definition touch_children (rec : Node → M (Z * Node)) (n : Node) (cs : list Node)
    (state : Z) : M (Z * Node) :=
  do r <- mapM rec cs;
  ret (state, set_children n (Some (r.*2))).

Fixpoint touch (e : Env) (n : Node) : M (Z * Node) :=
  do state <- dateNow e;
  let n0 := set_lastTouch n state in
  if isExpanded n then
    match children n with
    | Some cs => touch_children (touch e) n0 cs state
    | None =>
        do '(cs, n1) <- getChildren e n0;
        touch_children (λ c, do t <- dateNow e; ret (t, set_lastTouch c t)) n1 cs state
    end
  else ret (state, n0).

Definition markAsDefunct_children (rec : Node → M Node) (n : Node) (cs : list Node)
  : M Node :=
  do cs' <- mapM rec cs;
  ret (set_children n (Some cs')).

Fixpoint markAsDefunct (e : Env) (n : Node) : M Node :=
  let n0 := set_defunct n true in
  if isExpanded n then
    match children n with
    | Some cs => markAsDefunct_children (markAsDefunct e) n0 cs
    | None =>
        do '(cs, n1) <- getChildren e n0;
        markAsDefunct_children (λ c, ret (set_defunct c true)) n1 cs
    end
  else ret n0.

(** A path of identities from the refreshed node down to an expanded node. *)
Abbreviation Path := (list (option string)).

Definition findOpenNodes_children
    (rec : list Path → Path → Node → M (list Path * Node))
    (curPath : Path) (n : Node) (cs : list Node) (acc : list Path) : M (list Path * Node) :=
  do '(z, cs') <- foldNodes (λ z child, rec z (curPath ++ [nodeUri (viewNode child)]) child) acc cs;
  ret (z, set_children n (Some cs')).

Fixpoint findOpenNodes (e : Env) (acc : list Path) (curPath : Path) (node : Node)
  : M (list Path * Node) :=
  if isExpanded node then
    let acc1 := acc ++ [curPath] in
    match children node with
    | Some cs => findOpenNodes_children (findOpenNodes e) curPath node cs acc1
    | None =>
        do '(cs, n1) <- getChildren e node;
        findOpenNodes_children (λ z _ c, ret (z, c)) curPath n1 cs acc1
    end
  else ret (acc, node).

(** *** expand and collapse

    [expand] is written in two parts.  [expand_start] is the method up to
    and including [await this.getChildren()]: the retired check, the
    notification, [expanded = true], [touch] and the call of [getChildren].
    It yields [None] when the method has returned [false] already, and the
    recorded stamp [curState] otherwise.  [expand_resume] is the rest of the
    method: it collects the visible rows, compares the recorded stamp with
    the node's current one and fires the update or not.  [expand] is the one
    after the other. *)
Definition expand_start (e : Env) (n : Node) : M (option Z * Node) :=
  if defunct n then ret (None, n)
  else
    do _ <- sendTreeNodeVisibilityNotification (nodeUri (viewNode n)) false;
    let n1 := set_expanded n true in
    do '(curState, n2) <- touch e n1;
    do '(_, n3) <- getChildren e n2;
    ret (Some curState, n3).

Definition expand_resume (e : Env) (curState : Z) (n : Node) : M (bool * Node) :=
  do '(visibleNodes, n1) <- collectVisibleNodes e n;
  if bool_decide (curState = lastTouch n1) && negb (defunct n1) then
    do _ <- fire (mkUpdate (makeView n1) 1 visibleNodes false);
    ret (true, n1)
  else ret (false, n1).

Definition expand (e : Env) (n : Node) : M (bool * Node) :=
  do '(r, n1) <- expand_start e n;
  match r with
  | None => ret (false, n1)
  | Some curState => expand_resume e curState n1
  end.

Definition collapse (e : Env) (n : Node) : M (bool * Node) :=
  if defunct n then ret (false, n)
  else
    do _ <- sendTreeNodeVisibilityNotification (nodeUri (viewNode n)) true;
    do '(curState, n1) <- touch e n;
    do '(h, n2) <- height e n1;
    let n3 := set_expanded n2 false in
    if bool_decide (curState = lastTouch n3) && negb (defunct n3) then
      do _ <- fire (mkUpdate (makeView n3) h [makeView n3] false);
      ret (true, n3)
    else ret (false, n3).

(** *** refreshSubtree *)

(** Modelled from the spec: [groupBy] comes from [../util/array], which is
    not part of the sources.  [groupBy_get paths k] is
    [groupBy(paths, arr => arr[0]).get(k)]: the paths that start with [k], in
    order, and [undefined] when there is none. *)
Definition groupBy_get (paths : list Path) (k : option string) : option (list Path) :=
  match filter (λ p, head p = Some k) paths with
  | [] => None
  | g => Some g
  end.

(** [reloadSubtree].  Each recursive call receives paths that are one
    element shorter, so the recursion is on a bound [depth] of their length;
    [reloadSubtree] below starts it at the length of the longest path, and
    [reloadSubtree_unfold] shows that the bound is never exhausted. *)
Fixpoint reloadSubtree_upto (depth : nat) (e : Env) (node : Node) (openNodes : list Path)
  : M Node :=
  if bool_decide (openNodes ≠ []) then
    do '(cs, node1) <- getChildren e node;
    let childToNodes := groupBy_get (filter (λ p, p ≠ []) openNodes) in
    do cs' <- mapM (λ child,
                match childToNodes (nodeUri (viewNode child)) with
                | None => ret child
                | Some mbOpenNodes =>
                    let child1 := set_expanded child true in
                    let nextOpenNodes := tail <$> mbOpenNodes in
                    match depth with
                    | S d => reloadSubtree_upto d e child1 nextOpenNodes
                    | O => ret child1
                    end
                end) cs;
    ret (set_children node1 (Some cs'))
  else ret node.

Definition max_length (paths : list Path) : nat :=
  foldr (λ p m, Nat.max (length p) m) 0%nat paths.

Definition reloadSubtree (e : Env) (node : Node) (openNodes : list Path) : M Node :=
  reloadSubtree_upto (max_length openNodes) e node openNodes.

(** The step of [refreshSubtree] that retires the current children. *)
Definition retireChildren (e : Env) (n : Node) : M Node :=
  if isExpanded n then
    do '(cs, n1) <- getChildren e n;
    do cs' <- mapM (markAsDefunct e) cs;
    ret (set_children n1 (Some cs'))
  else ret n.

Definition refreshSubtree (e : Env) (newViewNode : option TreeViewNode) (n : Node) : M Node :=
  do '(h, n1) <- height e n;
  do n2 <- retireChildren e n1;
  do '(openNodes, n3) <- findOpenNodes e [] [] n2;
  let n4 := set_children n3 None in
  do n5 <- reloadSubtree e n4 openNodes;
  let n6 := match newViewNode with Some v => set_viewNode n5 v | None => n5 end in
  do '(visibleNodes, n7) <- collectVisibleNodes e n6;
  do _ <- fire (mkUpdate (makeView n7) h visibleNodes false);
  ret n7.

(** ** TreeModel *)

Inductive JsError := TypeError | RangeError | NvimError.

Inductive Result (A : Type) := Ok (a : A) | Throw (err : JsError).
Arguments Ok {A} _.
Arguments Throw {A} _.

Definition findNodeOffset_children (rec : Z * bool → Node → M (Z * bool * Node))
    (n : Node) (cs : list Node) (init : Z * bool) : M (Z * bool * Node) :=
  do '(z, cs') <- foldNodes rec init cs;
  ret (z, set_children n (Some cs')).

Fixpoint findNodeOffsetInternal (e : Env) (target : option string) (acc : Z * bool)
    (node : Node) : M (Z * bool * Node) :=
  if bool_decide (nodeUri (viewNode node) = target) || acc.2 then ret ((acc.1, true), node)
  else if isExpanded node then
    let init := (acc.1 + 1, acc.2) in
    match children node with
    | Some cs => findNodeOffset_children (findNodeOffsetInternal e target) node cs init
    | None =>
        do '(cs, n1) <- getChildren e node;
        findNodeOffset_children
          (λ z c, if bool_decide (nodeUri (viewNode c) = target) || z.2
                  then ret ((z.1, true), c) else ret ((z.1 + 1, z.2), c))
          n1 cs init
    end
  else ret ((acc.1 + 1, acc.2), node).

(** [findNodeOffset(nodeView)].  The argument is typed [NodeView], but the
    view passes [undefined] too (see [rewriteRoot]); reading
    [nodeView.underlying] then throws at the first node visited. *)
Definition findNodeOffset (e : Env) (nodeView : option NodeView) (rootNode : Node)
  : M (Result (option Z) * Node) :=
  match nodeView with
  | None => ret (Throw TypeError, rootNode)
  | Some v =>
      do '((offset, found), rootNode') <-
        findNodeOffsetInternal e (nodeUri (underlying v)) (0, false) rootNode;
      ret (Ok (if found then Some offset else None), rootNode')
  end.

(** [findNodeWithOffsetInternal] descends into a child after calling
    [height] on it, and, for a negative offset, keeps descending and loading
    for as long as the provider supplies children: the recursion is on
    [fuel]. *)
Inductive Outcome (A : Type) := Done (a : A) | OutOfFuel.
Arguments Done {A} _.
Arguments OutOfFuel {A}.

(** One round of the [reduce] over the children: [state] is the pair
    [{height, result}] of the source. *)
Definition findNodeWithOffset_step (rec : Node → Z → M (Outcome (option Node) * Node))
    (e : Env) (offset : Z) (state : Outcome (Z * option Node)) (child : Node)
  : M (Outcome (Z * option Node) * Node) :=
  match state with
  | OutOfFuel => ret (state, child)
  | Done (_, Some _) => ret (state, child)
  | Done (h, None) =>
      do '(childHeight, child1) <- height e child;
      if h + childHeight <=? offset then ret (Done (h + childHeight, None), child1)
      else
        do '(r, child2) <- rec child1 (offset - h);
        ret (match r with
             | Done result => Done (0, result)
             | OutOfFuel => OutOfFuel
             end, child2)
  end.

Fixpoint findNodeWithOffsetInternal (fuel : nat) (e : Env) (node : Node) (offset : Z)
  : M (Outcome (option Node) * Node) :=
  match fuel with
  | O => ret (OutOfFuel, node)
  | S fuel' =>
      if offset =? 0 then ret (Done (Some node), node)
      else
        do '(cs, node1) <- getChildren e node;
        do '(state, cs') <-
          foldNodes (findNodeWithOffset_step (findNodeWithOffsetInternal fuel' e) e offset)
                    (Done (1, None)) cs;
        ret (match state with
             | Done (_, result) => Done result
             | OutOfFuel => OutOfFuel
             end, set_children node1 (Some cs'))
  end.

Definition findNodeWithOffset (fuel : nat) (e : Env) (rootNode : Node) (offset : Z)
  : M (Outcome (option Node) * Node) :=
  findNodeWithOffsetInternal fuel e rootNode offset.

(** [new TreeModel(provider)]: the root wraps the view's own id. *)
Definition newRootNode (e : Env) (vid : string) : M Node :=
  newNode e (mkTreeViewNode vid None vid None None) 0.


(** ** TreeView: the reconciler *)

(** A JavaScript number as the reconciler uses it: an integer row or [NaN]. *)
Inductive JsNumber := JNum (z : Z) | JNaN.

Global Instance JsNumber_eq_dec : EqDecision JsNumber.
Proof. solve_decision. Defined.

Global Instance JsNumber_countable : Countable JsNumber :=
  inj_countable' (λ n, match n with JNum z => Some z | JNaN => None end)
                 (λ o, match o with Some z => JNum z | None => JNaN end)
                 (λ n, match n with JNum _ => eq_refl | JNaN => eq_refl end).

(** [ToNumber]: [undefined] converts to [NaN]. *)
Definition toNumber (v : option Z) : JsNumber :=
  match v with Some z => JNum z | None => JNaN end.

Definition js_add (a b : JsNumber) : JsNumber :=
  match a, b with JNum x, JNum y => JNum (x + y) | _, _ => JNaN end.
Definition js_sub (a b : JsNumber) : JsNumber :=
  match a, b with JNum x, JNum y => JNum (x - y) | _, _ => JNaN end.

(** [v === undefined] for a value that is a number or [undefined]. *)
Definition isUndefined (v : option JsNumber) : bool :=
  match v with None => true | Some _ => false end.

(** The calls that change the display surface. *)
Inductive NvimCall :=
  | SignUnplace (id : Z)
  | SignPlace (placeId : Z) (highlightSchema : string) (lnum : JsNumber)
  | BufferRemove (from to : JsNumber)
  | BufferInsert (lines : list string) (offset : JsNumber)
  | BufferSetOption (name : string) (value : bool)
  | WinGotoId (id : Z)
  | JumpTo2 (topLine : Z) (line : JsNumber)
  | WinExecuteJumpTo2 (id topLine curLine : Z)
  | WindowSetCursor (id line : Z).

Record Window := mkWindow {
  win_id : Z;
  win_cursor : Z * Z;
  win_line : Z;
  win_w0 : Z
}.

(** What the editor answers to the reconciler's queries, and which calls it
    rejects. *)
Record Nvim := mkNvim {
  nvim_windows : list Window;
  tabpage_windows : list Z;
  win_findbuf : list Z;
  isVim : bool;
  rejects : NvimCall → bool
}.

(** The settled state of a promise without value. *)
Abbreviation Settled := (Result unit).

Record TreeView := mkTreeView {
  firstUpdate : bool;
  eventQueue : Settled;
  highlightPlaceId : Z;
  lineToSignId : gmap JsNumber Z;
  rootNode : Node;
  world : World;
  calls : list NvimCall
}.

Definition set_firstUpdate (tv : TreeView) (b : bool) : TreeView :=
  mkTreeView b (eventQueue tv) (highlightPlaceId tv) (lineToSignId tv) (rootNode tv)
             (world tv) (calls tv).
Definition set_eventQueue (tv : TreeView) (q : Settled) : TreeView :=
  mkTreeView (firstUpdate tv) q (highlightPlaceId tv) (lineToSignId tv) (rootNode tv)
             (world tv) (calls tv).
Definition set_highlightPlaceId (tv : TreeView) (i : Z) : TreeView :=
  mkTreeView (firstUpdate tv) (eventQueue tv) i (lineToSignId tv) (rootNode tv)
             (world tv) (calls tv).
Definition set_lineToSignId (tv : TreeView) (m : gmap JsNumber Z) : TreeView :=
  mkTreeView (firstUpdate tv) (eventQueue tv) (highlightPlaceId tv) m (rootNode tv)
             (world tv) (calls tv).
Definition set_model (tv : TreeView) (n : Node) (w : World) : TreeView :=
  mkTreeView (firstUpdate tv) (eventQueue tv) (highlightPlaceId tv) (lineToSignId tv) n
             w (calls tv).
Definition add_call (tv : TreeView) (c : NvimCall) : TreeView :=
  mkTreeView (firstUpdate tv) (eventQueue tv) (highlightPlaceId tv) (lineToSignId tv)
             (rootNode tv) (world tv) (calls tv ++ [c]).

(** An asynchronous step of the reconciler: it settles with a value or
    rejects, and leaves the view in a new state. *)
Definition V (A : Type) : Type := TreeView → Result A * TreeView.

Definition retV {A} (a : A) : V A := λ tv, (Ok a, tv).
Definition throwV {A} (err : JsError) : V A := λ tv, (Throw err, tv).
Definition bindV {A B} (m : V A) (f : A → V B) : V B :=
  λ tv, match m tv with
        | (Ok a, tv') => f a tv'
        | (Throw err, tv') => (Throw err, tv')
        end.

Declare Scope v_scope.
Delimit Scope v_scope with v.
Notation "'await' x <- m ; k" := (bindV m (λ x, k))
  (at level 10, x name, m at level 100, k at level 200) : v_scope.

(** [p.finally(cleanup)]: the cleanup runs either way; the outcome is the
    one of [p] unless the cleanup itself rejects. *)
Definition finallyV {A} (m : V A) (cleanup : V unit) : V A :=
  λ tv, match m tv with
        | (r, tv') =>
            match cleanup tv' with
            | (Ok _, tv'') => (r, tv'')
            | (Throw err, tv'') => (Throw err, tv'')
            end
        end.

(** A call of the editor: it takes effect unless the editor rejects it. *)
Definition call (nv : Nvim) (c : NvimCall) : V unit :=
  λ tv, if rejects nv c then (Throw NvimError, tv) else (Ok tt, add_call tv c).

(** [Promise.all] over calls that have all been issued already. *)
Definition callAll (nv : Nvim) (cs : list NvimCall) : V unit :=
  λ tv, let tv' := foldl (λ tv c, if rejects nv c then tv else add_call tv c) tv cs in
        if forallb (λ c, negb (rejects nv c)) cs then (Ok tt, tv') else (Throw NvimError, tv').

(** Modelled from the spec: [sequence] comes from [../util], which is not
    part of the sources; it runs an asynchronous function over the elements
    one after the other and collects the results. *)
Definition sequence {A B} (f : A → V B) : list A → V (list B) :=
  fix go l :=
    match l with
    | [] => retV []
    | x :: l' => bindV (f x) (λ y, bindV (go l') (λ ys, retV (y :: ys)))
    end.

Definition closed : string := "▸".
Definition open : string := "▾".

(** ["  ".repeat(count)]: a negative count throws. *)
Definition repeat_spaces (count : Z) : Result string :=
  if count <? 0 then Throw RangeError
  else Ok (Nat.iter (Z.to_nat count) (String.append "  ") "").

Definition makeRow (child : NodeView) : Result string :=
  let icon := if view_expandable child
              then String.append (if view_expanded child then open else closed) " "
              else "  " in
  match repeat_spaces (view_level child - 1) with
  | Ok indent => Ok (String.append indent (String.append icon (label (underlying child))))
  | Throw err => Throw err
  end.

Definition makeRows : list NodeView → Result (list string) :=
  fix go nodes :=
    match nodes with
    | [] => Ok []
    | child :: rest =>
        match makeRow child, go rest with
        | Ok r, Ok rs => Ok (r :: rs)
        | Throw err, _ => Throw err
        | _, Throw err => Throw err
        end
    end.

(** One round of the loop of [removeRows], for the row [i]: the marker
    recorded for line [i + 1] is queued for release and the entry of key [i]
    is deleted. *)
Definition removeRows_step (st : list Z * gmap JsNumber Z) (i : Z)
  : list Z * gmap JsNumber Z :=
  let '(unplaceList, m) := st in
  match m !! JNum (i + 1) with
  | Some mbPlaceId => (unplaceList ++ [mbPlaceId], delete (JNum i) m)
  | None => (unplaceList, m)
  end.

(** [for (let i = from; i < to; i++)]: no round when a bound is [NaN]. *)
Definition removeRows_loop (from to : JsNumber) (m : gmap JsNumber Z)
  : list Z * gmap JsNumber Z :=
  match from, to with
  | JNum f, JNum t => foldl removeRows_step ([], m) (seqZ f (t - f))
  | _, _ => ([], m)
  end.

Definition removeRows (nv : Nvim) (from to : JsNumber) : V unit :=
  λ tv,
    let '(unplaceList, m) := removeRows_loop from to (lineToSignId tv) in
    (await _ <- callAll nv (SignUnplace <$> unplaceList);
     call nv (BufferRemove from to))%v (set_lineToSignId tv m).

Definition highlightSchemaOf (icon : option string) : option string :=
  match icon with
  | Some "trait" => Some "TvpTrait"
  | Some "class" => Some "TvpClass"
  | Some "object" => Some "TvpObject"
  | Some "method" => Some "TvpMethod"
  | Some "val" => Some "TvpVal"
  | _ => None
  end%string.

(** The [map] callback of [insertRows], for the row of index [idx]: the
    bookkeeping is done at once, the call is returned to be awaited. *)
Definition placeSign (offset : JsNumber) (st : TreeView * list NvimCall)
    (node : NodeView) (idx : nat) : TreeView * list NvimCall :=
  let '(tv, issued) := st in
  match highlightSchemaOf (icon (underlying node)) with
  | Some highlightSchema =>
      let placeId := highlightPlaceId tv in
      let line := js_add (js_add offset (JNum (Z.of_nat idx))) (JNum 1) in
      (set_lineToSignId (set_highlightPlaceId tv (placeId + 1))
                        (<[line := placeId]> (lineToSignId tv)),
       issued ++ [SignPlace placeId highlightSchema line])
  | None => (tv, issued)
  end.

Definition insertRows (nv : Nvim) (offset : JsNumber) (nodes : list NodeView) : V unit :=
  match makeRows nodes with
  | Throw err => throwV err
  | Ok lines =>
      (await _ <- call nv (BufferInsert lines offset);
       λ tv,
         let '(tv', issued) :=
           foldl (λ st '(idx, node), placeSign offset st node idx) (tv, []) (imap pair nodes) in
         callAll nv issued tv')%v
  end.

Definition modifyBuffer {X} (nv : Nvim) (action : V X) : V X :=
  (await _ <- call nv (BufferSetOption "readonly" false);
   await _ <- call nv (BufferSetOption "modifiable" true);
   finallyV action
     (await _ <- call nv (BufferSetOption "modifiable" false);
      call nv (BufferSetOption "readonly" true)))%v.

Record WindowWithOffsets := mkWindowWithOffsets {
  wo_window : Window;
  curLine : Z;
  topLine : option Z
}.

(** The first lines of [handleModelUpdates]: an update anchored at the
    hidden root is readdressed to the rows below it. *)
Definition rewriteRoot (ev0 : TreeModelUpdate) : Update (option NodeView) :=
  let isRoot := bool_decide (nodeUri (underlying (ev_root ev0)) = None) in
  if isRoot
  then mkUpdate (ev_payload ev0 !! 1%nat) (ev_length ev0 - 1) (drop 1 (ev_payload ev0))
                (ev_focusEvent ev0)
  else mkUpdate (Some (ev_root ev0)) (ev_length ev0) (ev_payload ev0) (ev_focusEvent ev0).

(** The callback that [handleModelUpdates] chains on the queue, from the
    line that reads the windows on: [applyAt] is what it does for the row
    [offset]. *)
Definition applyAt (nv : Nvim) (ev : Update (option NodeView)) (offset : JsNumber) : V unit :=
  (let bufferWindows :=
     filter (λ window, win_id window ∈ win_findbuf nv) (nvim_windows nv) in
   if ev_focusEvent ev then
     await _ <- sequence (λ w,
             let needRedraw := bool_decide (win_id w ∈ tabpage_windows nv) in
             if needRedraw then
               await _ <- call nv (WinGotoId (win_id w));
               call nv (JumpTo2 1 (js_add offset (JNum 1)))
             else retV tt) bufferWindows;
     retV tt
   else
     modifyBuffer nv
       (await offsets <- sequence (λ window,
             if isVim nv && bool_decide (win_id window ∈ tabpage_windows nv)
             then retV (mkWindowWithOffsets window (win_line window) (Some (win_w0 window)))
             else retV (mkWindowWithOffsets window (win_cursor window).1 None))
           bufferWindows;
        await _ <- removeRows nv offset (js_add offset (JNum (ev_length ev)));
        await _ <- insertRows nv offset (ev_payload ev);
        await _ <- sequence (λ o,
                match topLine o with
                | Some top => call nv (WinExecuteJumpTo2 (win_id (wo_window o)) top (curLine o))
                | None => call nv (WindowSetCursor (win_id (wo_window o)) (curLine o))
                end) offsets;
        λ tv,
          if firstUpdate tv then
            let n := Z.of_nat (length (ev_payload ev)) in
            call nv (BufferRemove (JNum n) (JNum (n + 1))) (set_firstUpdate tv false)
          else retV tt tv))%v.

(** The callback itself: the offset of the anchor is looked up in the
    model, [1] is subtracted, and the result is compared with [undefined]. *)
Definition applyUpdate (nv : Nvim) (e : Env) (ev : Update (option NodeView)) : V unit :=
  (await r <- (λ tv, let '((r, root'), w') :=
                       findNodeOffset e (ev_root ev) (rootNode tv) (world tv) in
                     (r, set_model tv root' w'));
   let offset := js_sub (toNumber r) (JNum 1) in
   if isUndefined (Some offset) then retV tt
   else applyAt nv ev offset)%v.

(** [this.eventQueue = this.eventQueue.then(async _ => ...)]: the callback
    runs once the queue has been fulfilled, and never when it was rejected;
    the new queue settles as the callback does. *)
Definition handleModelUpdates (nv : Nvim) (e : Env) (ev0 : TreeModelUpdate) (tv : TreeView)
  : TreeView :=
  let ev := rewriteRoot ev0 in
  match eventQueue tv with
  | Ok _ => let '(r, tv') := applyUpdate nv e ev tv in set_eventQueue tv' r
  | Throw err => tv
  end.

(** A view over a freshly constructed model, before any update. *)
Definition newTreeView (rootNode : Node) (w : World) : TreeView :=
  mkTreeView true (Ok tt) 0 ∅ rootNode w [].

(** ** TreeModel: searches by identity and reveal *)

Definition findNodeByUri_children (rec : option Node → Node → M (option Node * Node))
    (n : Node) (cs : list Node) : M (option Node * Node) :=
  do '(z, cs') <- foldNodes rec None cs;
  ret (z, set_children n (Some cs')).

Fixpoint findNodeByUriInternal (e : Env) (uri : string) (acc : option Node) (node : Node)
  : M (option Node * Node) :=
  match acc with
  | Some _ => ret (acc, node)
  | None =>
      if bool_decide (nodeUri (viewNode node) = Some uri) then ret (Some node, node)
      else if isExpanded node then
        match children node with
        | Some cs => findNodeByUri_children (findNodeByUriInternal e uri) node cs
        | None =>
            do '(cs, n1) <- getChildren e node;
            findNodeByUri_children
              (λ z c, match z with
                      | Some _ => ret (z, c)
                      | None => if bool_decide (nodeUri (viewNode c) = Some uri)
                                then ret (Some c, c) else ret (None, c)
                      end)
              n1 cs
        end
      else ret (None, node)
  end.

Definition findNodeByUri (e : Env) (uri : string) (rootNode : Node) : M (option Node * Node) :=
  findNodeByUriInternal e uri None rootNode.

(** The accumulator of the [reduce] in [findParentNode]: nothing yet, the
    node whose children are being folded (the source returns [parent], the
    object itself, so its value is taken once the fold has gone through its
    children), or a parent found further down. *)
Inductive ParentSearch := NotFound | FoundHere | FoundBelow (p : Node).

Definition findParentNode_step (rec : Node → M (option Node * Node))
    (target : option string) (z : ParentSearch) (child : Node) : M (ParentSearch * Node) :=
  match z with
  | NotFound =>
      if bool_decide (nodeUri (viewNode child) = target) then ret (FoundHere, child)
      else
        do '(r, child') <- rec child;
        ret (match r with Some p => FoundBelow p | None => NotFound end, child')
  | _ => ret (z, child)
  end.

Definition findParentNode_children (rec : Node → M (option Node * Node))
    (target : option string) (parent : Node) (cs : list Node) : M (option Node * Node) :=
  do '(z, cs') <- foldNodes (findParentNode_step rec target) NotFound cs;
  let parent' := set_children parent (Some cs') in
  ret (match z with
       | NotFound => None
       | FoundHere => Some parent'
       | FoundBelow p => Some p
       end, parent').

(** [internal(result, parent)] of [findParentNode]. *)
Fixpoint findParentNodeInternal (e : Env) (target : option string) (result : option Node)
    (parent : Node) : M (option Node * Node) :=
  match result with
  | Some _ => ret (result, parent)
  | None =>
      if isExpanded parent then
        match children parent with
        | Some cs =>
            findParentNode_children (findParentNodeInternal e target None) target parent cs
        | None =>
            do '(cs, n1) <- getChildren e parent;
            findParentNode_children (λ c, ret (None, c)) target n1 cs
        end
      else ret (None, parent)
  end.

Definition findParentNode (e : Env) (node : Node) (rootNode : Node) : M (option Node * Node) :=
  findParentNodeInternal e (nodeUri (viewNode node)) None rootNode.

(** [revealDocumentInternal].  The child found by [children.find] is an
    element of the parent's children: what the recursive call does to it is
    written back at its index. *)
Fixpoint revealDocumentInternal (e : Env) (parents : list string) (node : Node)
  : M (option Node * Node) :=
  match parents with
  | [] => ret (Some node, node)
  | childUri :: rest =>
      do '(expanded, node1) <- (if isExpanded node then ret (true, node) else expand e node);
      if expanded : bool then
        do '(cs, node2) <- getChildren e node1;
        match list_find (λ child, nodeUri (viewNode child) = Some childUri) cs with
        | Some (i, child) =>
            do '(r, child') <- revealDocumentInternal e rest child;
            ret (r, set_children node2 (Some (<[i := child']> cs)))
        | None => ret (None, node2)
        end
      else ret (None, node1)
  end.

Definition revealByParents (e : Env) (parents : list string) (rootNode : Node)
  : M (option Node * Node) :=
  revealDocumentInternal e parents rootNode.

(** [revealDocument]: [uriChain] is what the provider answers to
    [loadParentInfo] for the document and the position. *)
Definition revealDocument (e : Env) (uriChain : list string) (rootNode : Node)
  : M (option Node * Node) :=
  let parents := reverse uriChain in
  do '(result, rootNode') <- revealDocumentInternal e parents rootNode;
  match result with
  | Some node =>
      do _ <- fire (mkUpdate (makeView node) 1 [] true);
      ret (result, rootNode')
  | None => ret (result, rootNode')
  end.

(** ** TreeModelManager *)

(** A JavaScript [Map] with string keys: the entries in insertion order, a
    key at most once; [set] on a present key replaces the value in place. *)
Fixpoint jsmap_set {T} (k : string) (v : T) (m : list (string * T)) : list (string * T) :=
  match m with
  | [] => [(k, v)]
  | (k', v') :: m' => if bool_decide (k' = k) then (k, v) :: m' else (k', v') :: jsmap_set k v m'
  end.

Fixpoint jsmap_get {T} (k : string) (m : list (string * T)) : option T :=
  match m with
  | [] => None
  | (k', v') :: m' => if bool_decide (k' = k) then Some v' else jsmap_get k m'
  end.

Definition jsmap_delete {T} (k : string) (m : list (string * T)) : list (string * T) :=
  filter (λ kv, kv.1 ≠ k) m.

Section TreeModelManager.
(** The providers and the models built from them ([new TreeModel(provider)]). *)
Context {Provider TreeModel : Type}.
Variable newTreeModel : Provider → TreeModel.
Variable providerViewId : Provider → string.

Record TreeModelManager := mkTreeModelManager {
  treeModels : list (string * TreeModel);
  ready : bool
}.

Definition newTreeModelManager : TreeModelManager := mkTreeModelManager [] false.

(** The handler of the ["ready"] event of the services. *)
Definition onReady (mgr : TreeModelManager) : TreeModelManager :=
  mkTreeModelManager (treeModels mgr) true.

Definition register (provider : Provider) (mgr : TreeModelManager) : TreeModelManager :=
  mkTreeModelManager
    (jsmap_set (providerViewId provider) (newTreeModel provider) (treeModels mgr))
    (ready mgr).

(** The [Disposable] that [register(provider)] returns, once disposed. *)
Definition unregister (provider : Provider) (mgr : TreeModelManager) : TreeModelManager :=
  mkTreeModelManager (jsmap_delete (providerViewId provider) (treeModels mgr)) (ready mgr).

Definition getViews (mgr : TreeModelManager) : option (list string) :=
  if ready mgr then Some ((treeModels mgr).*1) else None.

Definition getTreeModel (viewId : string) (mgr : TreeModelManager) : option TreeModel :=
  if ready mgr then jsmap_get viewId (treeModels mgr) else None.

Definition dispose (mgr : TreeModelManager) : TreeModelManager :=
  mkTreeModelManager [] (ready mgr).
End TreeModelManager.

(** ** TreeViewFeature: the handler of [metals/treeViewDidChange] *)

(** What the handler does to its surroundings: it registers a provider for
    a view, or fires a node on the emitter of a view. *)
Inductive FeatureEffect :=
  | RegisterTreeViewsProvider (viewId : string)
  | FireUpdatedNode (viewId : string) (node : TreeViewNode).

Record TreeViewFeature := mkTreeViewFeature {
  viewUpdaters : gset string;
  effects : list FeatureEffect
}.

(** The body of [message.nodes.forEach]. *)
Definition onChangedNode (st : TreeViewFeature) (node : TreeViewNode) : TreeViewFeature :=
  let viewId := viewId node in
  if bool_decide (viewId ∈ viewUpdaters st)
  then mkTreeViewFeature (viewUpdaters st) (effects st ++ [FireUpdatedNode viewId node])
  else mkTreeViewFeature ({[viewId]} ∪ viewUpdaters st)
                         (effects st ++ [RegisterTreeViewsProvider viewId]).

Definition onTreeViewDidChange (nodes : list TreeViewNode) (st : TreeViewFeature)
  : TreeViewFeature :=
  foldl onChangedNode st nodes.

(** ** TreeViewsManager: the order of the views *)

Record TreeViewDescription := mkTreeViewDescription {
  name : string;
  size : Z;
  expandedPaths : list (list string)
}.

(** [descs.findIndex(d => d.name === view)]. *)
Fixpoint findIndex (descs : list TreeViewDescription) (view : string) : Z :=
  match descs with
  | [] => -1
  | d :: descs' =>
      if bool_decide (name d = view) then 0
      else let i := findIndex descs' view in if i =? -1 then -1 else i + 1
  end.

Definition viewsComparator (descs : list TreeViewDescription) (view1 view2 : string) : Z :=
  let idx1 := findIndex descs view1 in
  let idx2 := findIndex descs view2 in
  if (idx1 =? -1) && (idx2 =? -1) then 0
  else if idx1 =? -1 then 1
  else if idx2 =? -1 then -1
  else idx2 - idx1.
(** * Reasoning principles *)

(** [Spec m Q]: in every world, [m] returns a value satisfying [Q], fires
    no update and sends no notification. *)
Definition Spec {A} (m : M A) (Q : A → Prop) : Prop :=
  ∀ w, Q (m w).1 ∧ fired (m w).2 = fired w ∧ notified (m w).2 = notified w.

(** The chain of states of a fold: [FoldRel R s l s' l'] when folding from
    [s] over [l] ends in [s'] and leaves the elements as [l'], each step
    being related by [R]. *)
Inductive FoldRel {S N} (R : S → N → S → N → Prop) : S → list N → S → list N → Prop :=
  | FoldRel_nil s : FoldRel R s [] s []
  | FoldRel_cons s c l s1 c1 s2 l1 :
      R s c s1 c1 → FoldRel R s1 l s2 l1 → FoldRel R s (c :: l) s2 (c1 :: l1).

(** What [getChildren] constructs: collapsed nodes without cache, one level
    down, not retired. *)
Definition isNew (lvl : Z) (v : TreeViewNode) (c : Node) : Prop :=
  ∃ t, c = mkNode v lvl false None t false.

(** The row of a child that [getChildren] has just constructed. *)
Definition freshView (lvl : Z) (v : TreeViewNode) : NodeView :=
  mkNodeView v lvl (bool_decide (collapseState v ≠ None)) false.

(** The rows below a node once it is expanded: those of the cached
    children, or one row per child the provider would answer with. *)
Fixpoint rows (e : Env) (n : Node) : list NodeView :=
  makeView n ::
  if isExpanded n then
    match children n with
    | Some cs => concat (rows e <$> cs)
    | None => freshView (level n + 1) <$> loadNodeChildren e (nodeUri (viewNode n))
    end
  else [].

Definition hgt (e : Env) (n : Node) : Z := Z.of_nat (length (rows e n)).

Definition sumZ (l : list Z) : Z := foldr Z.add 0 l.

(** [kept e n n']: [n'] is [n] up to children that were loaded meanwhile
    and up to the stamps and retired flags. *)
Definition kept (e : Env) (n n' : Node) : Prop :=
  viewNode n' = viewNode n ∧ level n' = level n ∧ expanded n' = expanded n ∧
  rows e n' = rows e n.

Definition same_state (n n' : Node) : Prop :=
  lastTouch n' = lastTouch n ∧ defunct n' = defunct n.

(** What a refresh keeps of the node it is invoked on. *)
Definition same_ident (n n' : Node) : Prop :=
  level n' = level n ∧ expanded n' = expanded n ∧ same_state n n'.

(** The identities of the visible rows, in display order. *)
Definition uris (e : Env) (n : Node) : list (option string) :=
  (λ v, nodeUri (underlying v)) <$> rows e n.

(** One step of the running count of [findNodeOffsetInternal]. *)
Definition scan (target : option string) (acc : Z * bool) (u : option string) : Z * bool :=
  if bool_decide (u = target) || acc.2 then (acc.1, true) else (acc.1 + 1, acc.2).

(** The node objects behind the visible rows: the node and, below an
    expanded node, those of its cached children. *)
Fixpoint shownNodes (n : Node) : list Node :=
  n ::
  if isExpanded n then
    match children n with
    | Some cs => concat (shownNodes <$> cs)
    | None => []
    end
  else [].

(** What a search by identity has found after some rows: a node with the
    identity behind one of them, or nothing when no row has it. *)
Definition foundAmong (uri : string) (rs : list NodeView) (z : option Node) : Prop :=
  match z with
  | Some m => nodeUri (viewNode m) = Some uri ∧ makeView m ∈ rs
  | None => Some uri ∉ (λ v, nodeUri (underlying v)) <$> rs
  end.

(** One round of the search over the children. *)
Definition searchStep (e : Env) (uri : string) (s : option Node) (c : Node)
    (s1 : option Node) (c1 : Node) : Prop :=
  kept e c c1 ∧
  match s with
  | Some _ => s1 = s
  | None => foundAmong uri (rows e c) s1
  end.

(** What [findParentNode] may return for the rows [rs]: an expanded node
    behind one of them with a child of the target identity. *)
Definition isParentAmong (target : option string) (rs : list NodeView) (p : Node) : Prop :=
  isExpanded p = true ∧ makeView p ∈ rs ∧
  ∃ cs, children p = Some cs ∧ target ∈ (λ c, nodeUri (viewNode c)) <$> cs.

(** One round of the fold of [findParentNode] over the children. *)
Definition parentStep (e : Env) (target : option string) (z : ParentSearch) (c : Node)
    (z1 : ParentSearch) (c1 : Node) : Prop :=
  kept e c c1 ∧
  match z with
  | NotFound =>
      match z1 with
      | NotFound => target ∉ uris e c
      | FoundHere => nodeUri (viewNode c1) = target
      | FoundBelow p => isParentAmong target (rows e c) p
      end
  | _ => z1 = z
  end.

(** The view after the calls [cs] have taken effect, in order. *)
Definition add_calls (tv : TreeView) (cs : list NvimCall) : TreeView :=
  foldl add_call tv cs.

(** The calls of a navigation update for the row [line], one pair per
    window that shows the buffer in the current tab page. *)
Definition navigationCalls (nv : Nvim) (line : JsNumber) : list NvimCall :=
  w ← filter (λ window, win_id window ∈ win_findbuf nv) (nvim_windows nv);
  if bool_decide (win_id w ∈ tabpage_windows nv)
  then [WinGotoId (win_id w); JumpTo2 1 line] else [].

(** The rows of a payload that get a marker, with their index. *)
Definition decoratedRows (nodes : list NodeView) : list (nat * string) :=
  omap (λ '(idx, node), pair idx <$> highlightSchemaOf (icon (underlying node)))
       (imap pair nodes).

(** * A small tree and a small editor, for the concrete cases

    The provider answers with the children [a] (decorated as a class) and
    [b] for the root, and with [a1], [a2] for [a]. *)
Module Sample.

Definition descr (uri : string) (ic : option string) : TreeViewNode :=
  mkTreeViewNode "v" (Some uri) uri ic (Some "collapsed").

Definition env : Env :=
  mkEnv (λ k, 100 + Z.of_nat k)
        (λ uri, match uri with
                | None => [descr "a" (Some "class"); descr "b" None]
                | Some "a" => [descr "a1" None; descr "a2" None]
                | _ => []
                end%string).

Definition world0 : World := mkWorld 0 [] [].

(** The root of a new model, and the root after [init] has expanded it. *)
Definition fresh : Node * World := newRootNode env "v" world0.
Definition shown : bool * Node * World := expand env fresh.1 fresh.2.

(** A child of the root that its parent's refresh has retired. *)
Definition retired : Node :=
  mkNode (descr "a" (Some "class")) 1 false None 104 true.

(** The child [a], collapsed and never expanded. *)
Definition nodeA : Node :=
  mkNode (descr "a" (Some "class")) 1 false None 104 false.

Definition window : Window := mkWindow 7 (3, 0) 3 1.
Definition nvim : Nvim := mkNvim [window] [7] [7] false (λ _, false).

(** The view once the update of the first [expand] has been applied. *)
Definition view0 : TreeView := newTreeView shown.1.2 shown.2.
Definition firstUpdateEvent : TreeModelUpdate :=
  mkUpdate (makeView shown.1.2) 1 (rows env shown.1.2) false.
Definition view1 : TreeView := handleModelUpdates nvim env firstUpdateEvent view0.

(** A navigation update whose anchor is not displayed any more. *)
Definition goneAnchor : TreeModelUpdate :=
  mkUpdate (mkNodeView (descr "zz" None) 2 true false) 1 [] true.

(** A content update whose anchor is not displayed any more. *)
Definition goneAnchorRows : TreeModelUpdate :=
  mkUpdate (mkNodeView (descr "zz" None) 2 true false) 1
           [mkNodeView (descr "zz" (Some "class")) 2 true false] false.

(** The update that [revealDocument] fires when the chain is empty: a
    navigation update anchored at the root, with an empty payload. *)
Definition rootNavigation : TreeModelUpdate :=
  mkUpdate (makeView shown.1.2) 1 [] true.

(** The rows of [a] once expanded and the update that [a.expand()] fires. *)
Definition rowsA : list NodeView :=
  [mkNodeView (descr "a" (Some "class")) 1 true true;
   mkNodeView (descr "a1" None) 2 true false;
   mkNodeView (descr "a2" None) 2 true false].
Definition expandA : TreeModelUpdate :=
  mkUpdate (mkNodeView (descr "a" (Some "class")) 1 true true) 1 rowsA false.

(** Markers recorded for the lines 1 and 2. *)
Definition decorated : TreeView :=
  set_lineToSignId view0 (<[JNum 1 := 5]> (<[JNum 2 := 6]> ∅)).

End Sample.

(** The updates that reach the view, handled in the order they were fired. *)
Definition handleAll (nv : Nvim) (e : Env) (evs : list TreeModelUpdate) (tv : TreeView)
  : TreeView :=
  foldl (λ tv ev0, handleModelUpdates nv e ev0 tv) tv evs.

(** Induction on a node with the hypothesis for every cached child. *)
Lemma Node_ind_children (P : Node → Prop) :
  (∀ v l ex ch lt d, (∀ cs, ch = Some cs → Forall P cs) → P (mkNode v l ex ch lt d)) →
  ∀ n, P n.
Proof.
  intros step. fix IH 1. intros [v l ex ch lt d]. apply step.
  destruct ch as [cs0|]; [|discriminate].
  assert (Forall P cs0) as Hcs0.
  { induction cs0 as [|c cs0 IHcs]; constructor; [apply IH | exact IHcs]. }
  intros cs [= <-]. exact Hcs0.
Qed.

Lemma Spec_ret {A} (a : A) (Q : A → Prop) : Q a → Spec (ret a) Q.
Proof. intros H w. by cbn. Qed.

Lemma Spec_bind {A B} (m : M A) (f : A → M B) (P : A → Prop) (Q : B → Prop) :
  Spec m P → (∀ a, P a → Spec (f a) Q) → Spec (bind m f) Q.
Proof.
  intros Hm Hf w. unfold bind. specialize (Hm w).
  destruct (m w) as [a w1]. cbn in Hm. destruct Hm as (Ha & Hf1 & Hn1).
  destruct (Hf a Ha w1) as (Hq & Hf2 & Hn2). rewrite <- Hf1, <- Hn1. done.
Qed.

Lemma Spec_weaken {A} (m : M A) (P Q : A → Prop) :
  Spec m P → (∀ a, P a → Q a) → Spec m Q.
Proof. intros Hm HPQ w. destruct (Hm w) as (? & ? & ?). auto. Qed.

Lemma Spec_dateNow e : Spec (dateNow e) (λ _, True).
Proof. intros w. by cbn. Qed.

Lemma Spec_mapM {A B} (f : A → M B) (P : A → B → Prop) (l : list A) :
  Forall (λ x, Spec (f x) (P x)) l → Spec (mapM f l) (λ ys, Forall2 P l ys).
Proof.
  induction 1 as [|x l Hx Hl IH]; cbn.
  - apply Spec_ret. constructor.
  - eapply Spec_bind; [exact Hx|]. intros y Hy.
    eapply Spec_bind; [exact IH|]. intros ys Hys.
    apply Spec_ret. by constructor.
Qed.

Lemma Spec_foldNodes {S N} (f : S → N → M (S * N)) (R : S → N → S → N → Prop)
    (l : list N) (s : S) :
  Forall (λ c, ∀ s, Spec (f s c) (λ r, R s c r.1 r.2)) l →
  Spec (foldNodes f s l) (λ r, FoldRel R s l r.1 r.2).
Proof.
  intros H. revert s. induction H as [|c l Hc Hl IH]; intros s; cbn.
  - apply Spec_ret. constructor.
  - eapply Spec_bind; [apply Hc|]. intros [s1 c1] H1.
    eapply Spec_bind; [apply IH|]. intros [s2 l1] H2.
    apply Spec_ret. cbn in *. econstructor; eauto.
Qed.

(** Two bodies that agree on every element give the same traversal. *)
Lemma mapM_ext_Forall {A B} (f g : A → M B) (l : list A) :
  Forall (λ x, ∀ w, f x w = g x w) l → ∀ w, mapM f l w = mapM g l w.
Proof.
  induction 1 as [|x l Hx Hl IH]; intros w; cbn; [done|].
  unfold bind. rewrite Hx. destruct (g x w) as [y w1]. by rewrite IH.
Qed.

Lemma foldNodes_ext_Forall {S N} (f g : S → N → M (S * N)) (l : list N) :
  Forall (λ c, ∀ s w, f s c w = g s c w) l → ∀ s w, foldNodes f s l w = foldNodes g s l w.
Proof.
  induction 1 as [|c l Hc Hl IH]; intros s w; cbn; [done|].
  unfold bind. rewrite Hc. destruct (g s c w) as [[s1 c1] w1]. by rewrite IH.
Qed.

Lemma Spec_newNodes e lvl vs :
  Spec (mapM (λ v, newNode e v lvl) vs) (λ cs, Forall2 (isNew lvl) vs cs).
Proof.
  apply Spec_mapM, Forall_forall. intros v _. unfold newNode.
  eapply Spec_bind; [apply Spec_dateNow|]. intros t _. apply Spec_ret. by exists t.
Qed.

Lemma Spec_getChildren e n :
  Spec (getChildren e n) (λ r,
    r.2 = set_children n (Some r.1) ∧
    match children n with
    | Some cs => r.1 = cs
    | None => Forall2 (isNew (level n + 1)) (loadNodeChildren e (nodeUri (viewNode n))) r.1
    end).
Proof.
  unfold getChildren. destruct n as [v l ex [cs|] lt d]; cbn.
  - by apply Spec_ret.
  - eapply Spec_bind; [apply Spec_newNodes|]. intros cs Hcs. by apply Spec_ret.
Qed.


Lemma kept_refl e n : kept e n n.
Proof. by repeat split. Qed.

Lemma kept_trans e n1 n2 n3 : kept e n1 n2 → kept e n2 n3 → kept e n1 n3.
Proof. intros (?&?&?&?) (?&?&?&?). repeat split; congruence. Qed.

Lemma same_state_refl n : same_state n n.
Proof. by split. Qed.

Lemma same_state_trans n1 n2 n3 : same_state n1 n2 → same_state n2 n3 → same_state n1 n3.
Proof. intros (?&?) (?&?). split; congruence. Qed.

Lemma kept_children_rows e cs cs' :
  Forall2 (kept e) cs cs' → concat (rows e <$> cs') = concat (rows e <$> cs).
Proof.
  induction 1 as [|c c' cs cs' (_&_&_&Hc) _ IH]; [done|]. cbn [fmap list_fmap concat].
  by rewrite Hc, IH.
Qed.

Lemma isNew_rows e lvl v c : isNew lvl v c → rows e c = [freshView lvl v].
Proof. by intros [t ->]. Qed.

Lemma isNew_children_rows e lvl vs cs :
  Forall2 (isNew lvl) vs cs → concat (rows e <$> cs) = freshView lvl <$> vs.
Proof.
  induction 1 as [|v c vs cs Hc _ IH]; [done|]. cbn [fmap list_fmap concat].
  by rewrite (isNew_rows e lvl v c Hc), IH.
Qed.

Lemma kept_set_children e n cs cs' :
  children n = Some cs → Forall2 (kept e) cs cs' → kept e n (set_children n (Some cs')).
Proof.
  intros Hn Hcs. repeat split. destruct n as [v l ex ch lt d]; cbn in *. subst ch.
  by rewrite (kept_children_rows e cs cs').
Qed.

Lemma kept_loaded e n cs cs' :
  children n = None →
  Forall2 (isNew (level n + 1)) (loadNodeChildren e (nodeUri (viewNode n))) cs →
  Forall2 (kept e) cs cs' →
  kept e n (set_children (set_children n (Some cs)) (Some cs')).
Proof.
  intros Hn Hnew Hcs. repeat split. destruct n as [v l ex ch lt d]; cbn in *. subst ch.
  by rewrite (kept_children_rows e cs cs'), (isNew_children_rows e _ _ _ Hnew).
Qed.

Lemma foldl_add_sumZ a l : foldl Z.add a l = a + sumZ l.
Proof.
  unfold sumZ. revert a. induction l as [|x l IH]; intros a; cbn; [lia|]. rewrite IH. lia.
Qed.

Lemma hgt_unfold e n :
  hgt e n = if isExpanded n then
              match children n with
              | Some cs => 1 + sumZ (hgt e <$> cs)
              | None => 1 + Z.of_nat (length (loadNodeChildren e (nodeUri (viewNode n))))
              end
            else 1.
Proof.
  unfold hgt. destruct n as [v l [] [cs|] lt d]; cbn [rows isExpanded expanded children length];
    rewrite ?length_fmap, ?Nat2Z.inj_succ.
  all: try lia.
  enough (Z.of_nat (length (concat (rows e <$> cs)))
          = sumZ ((λ n, Z.of_nat (length (rows e n))) <$> cs)) by lia.
  induction cs as [|c cs IH]; [done|]. cbn [fmap list_fmap concat sumZ foldr].
  rewrite length_app, Nat2Z.inj_add. unfold sumZ in IH. cbn [fmap] in IH. lia.
Qed.


(** ** Node methods that only read the tree (and load what they visit) *)

Lemma kept_set_lastTouch e n t : kept e n (set_lastTouch n t).
Proof. by destruct n. Qed.

Lemma kept_set_defunct e n b : kept e n (set_defunct n b).
Proof. by destruct n. Qed.

Lemma Forall2_results {A B} (f : A → B) (Q : A → A → Prop) (cs : list A) (rs : list (B * A)) :
  Forall2 (λ c r, r.1 = f c ∧ Q c r.2) cs rs → rs.*1 = f <$> cs ∧ Forall2 Q cs (rs.*2).
Proof.
  induction 1 as [|c r cs rs [H1 H2] _ [IH1 IH2]]; [by split; [|constructor]|].
  cbn. split; [by rewrite H1, IH1 | by constructor].
Qed.

Lemma Forall2_seconds {A B} (Q : A → A → Prop) (cs : list A) (rs : list (B * A)) :
  Forall2 (λ c r, Q c r.2) cs rs → Forall2 Q cs (rs.*2).
Proof. induction 1; cbn; by constructor. Qed.

(** The children of a node after [getChildren], whichever branch it took:
    processing them by a function that keeps each child keeps the node. *)
Lemma kept_after_getChildren e n cs cs' n1 :
  n1 = set_children n (Some cs) →
  match children n with
  | Some cs0 => cs = cs0
  | None => Forall2 (isNew (level n + 1)) (loadNodeChildren e (nodeUri (viewNode n))) cs
  end →
  Forall2 (kept e) cs cs' →
  kept e n (set_children n1 (Some cs')).
Proof.
  intros -> Hcs Hk. destruct (children n) as [cs0|] eqn:Hn.
  - subst cs0. replace (set_children n (Some cs)) with n; [by apply (kept_set_children e n cs)|].
    destruct n; cbn in *; by subst.
  - by apply kept_loaded.
Qed.

Lemma isNew_Forall lvl vs cs :
  Forall2 (isNew lvl) vs cs → Forall (λ c, ∃ v, isNew lvl v c) cs.
Proof. induction 1; constructor; eauto. Qed.

Lemma hgt_new e lvl v c : isNew lvl v c → hgt e c = 1.
Proof. by intros [t ->]. Qed.

Lemma hgt_after_getChildren e n cs :
  isExpanded n = true →
  match children n with
  | Some cs0 => cs = cs0
  | None => Forall2 (isNew (level n + 1)) (loadNodeChildren e (nodeUri (viewNode n))) cs
  end →
  hgt e n = 1 + sumZ (hgt e <$> cs).
Proof.
  intros Hex Hcs. rewrite hgt_unfold, Hex. destruct (children n) as [cs0|]; [by subst|].
  f_equal. induction Hcs as [|v c vs cs Hc _ IH]; [done|].
  cbn [length fmap list_fmap sumZ foldr]. rewrite (hgt_new e _ _ _ Hc).
  unfold sumZ in IH. cbn [fmap] in IH. lia.
Qed.

Lemma Spec_height_children e rec n cs :
  Forall (λ c, Spec (rec c) (λ r, r.1 = hgt e c ∧ kept e c r.2)) cs →
  Spec (height_children rec n cs) (λ r,
    r.1 = 1 + sumZ (hgt e <$> cs) ∧
    ∃ cs', r.2 = set_children n (Some cs') ∧ Forall2 (kept e) cs cs').
Proof.
  intros Hrec. unfold height_children.
  eapply Spec_bind; [apply (Spec_mapM _ _ _ Hrec)|]. intros rs Hrs.
  apply Forall2_results in Hrs as [H1 H2].
  apply Spec_ret. cbn. split; [by rewrite foldl_add_sumZ, H1 | eauto].
Qed.

Lemma Spec_height e n :
  Spec (height e n) (λ r, r.1 = hgt e n ∧ kept e n r.2 ∧ same_state n r.2).
Proof.
  induction n as [v l ex ch lt d IH] using Node_ind_children.
  cbn [height isExpanded expanded children]. destruct ex.
  - destruct ch as [cs|].
    + eapply Spec_weaken.
      { apply (Spec_height_children e). eapply Forall_impl; [by apply IH|].
        intros c Hc. eapply Spec_weaken; [exact Hc|]. by intros r (? & ? & _). }
      intros r (Hv & cs' & -> & Hk). split; [by rewrite hgt_unfold|].
      split; [by apply (kept_set_children e _ cs) | done].
    + eapply Spec_bind; [apply Spec_getChildren|]. intros [cs n1] [Hn1 Hnew]. cbn in Hn1, Hnew.
      eapply Spec_weaken.
      { apply (Spec_height_children e).
        eapply Forall_impl; [exact (isNew_Forall _ _ _ Hnew)|]. intros c [v' Hv'].
        apply Spec_ret. cbn. split; [|apply kept_refl]. by rewrite (hgt_new e _ _ _ Hv'). }
      intros r (Hv & cs' & -> & Hk). split; [|split].
      * rewrite Hv. symmetry. by apply hgt_after_getChildren.
      * by eapply kept_after_getChildren.
      * by subst n1.
  - apply Spec_ret. cbn. split; [done|]. split; [apply kept_refl | apply same_state_refl].
Qed.

Lemma FoldRel_collect e acc cs z cs' :
  FoldRel (λ s c s1 c1, s1 = s ++ rows e c ∧ kept e c c1) acc cs z cs' →
  z = acc ++ concat (rows e <$> cs) ∧ Forall2 (kept e) cs cs'.
Proof.
  induction 1 as [s|s c l s1 c1 s2 l1 [-> Hk] _ [-> IH]]; cbn.
  - split; [by rewrite app_nil_r | constructor].
  - split; [by rewrite app_assoc | by constructor].
Qed.

Lemma Spec_collect_children e rec n cs newAcc :
  Forall (λ c, ∀ z, Spec (rec z c) (λ r, r.1 = z ++ rows e c ∧ kept e c r.2)) cs →
  Spec (collect_children rec n cs newAcc) (λ r,
    r.1 = newAcc ++ concat (rows e <$> cs) ∧
    ∃ cs', r.2 = set_children n (Some cs') ∧ Forall2 (kept e) cs cs').
Proof.
  intros Hrec. unfold collect_children.
  eapply Spec_bind;
    [apply (Spec_foldNodes _ (λ s c s1 c1, s1 = s ++ rows e c ∧ kept e c c1) _ _ Hrec)|].
  intros [z cs'] Hf. cbn in Hf. apply FoldRel_collect in Hf as [-> Hk]. apply Spec_ret. cbn. eauto.
Qed.

Lemma rows_after_getChildren e n cs :
  isExpanded n = true →
  match children n with
  | Some cs0 => cs = cs0
  | None => Forall2 (isNew (level n + 1)) (loadNodeChildren e (nodeUri (viewNode n))) cs
  end →
  rows e n = makeView n :: concat (rows e <$> cs).
Proof.
  intros Hex Hcs. destruct n as [v l ex [cs0|] lt d]; cbn in *; subst; [done|].
  by rewrite (isNew_children_rows e _ _ _ Hcs).
Qed.

Lemma Spec_collectInternal e acc n :
  Spec (collectInternal e acc n) (λ r,
    r.1 = acc ++ rows e n ∧ kept e n r.2 ∧ same_state n r.2).
Proof.
  revert acc. induction n as [v l ex ch lt d IH] using Node_ind_children. intros acc.
  cbn [collectInternal isExpanded expanded children]. destruct ex.
  - destruct ch as [cs|].
    + eapply Spec_weaken.
      { apply (Spec_collect_children e). eapply Forall_impl; [by apply IH|].
        intros c Hc z. eapply Spec_weaken; [apply Hc|]. by intros r (? & ? & _). }
      intros r (Hv & cs' & -> & Hk). split; [|split; [by apply (kept_set_children e _ cs) | done]].
      rewrite Hv. cbn. by rewrite <- app_assoc.
    + eapply Spec_bind; [apply Spec_getChildren|]. intros [cs n1] [Hn1 Hnew]. cbn in Hn1, Hnew.
      eapply Spec_weaken.
      { apply (Spec_collect_children e).
        eapply Forall_impl; [exact (isNew_Forall _ _ _ Hnew)|]. intros c [v' Hv'] z.
        apply Spec_ret. cbn. split; [|apply kept_refl]. by destruct Hv' as [t ->]. }
      intros r (Hv & cs' & -> & Hk). split; [|split].
      * rewrite Hv, (rows_after_getChildren e _ cs); [|done..]. by rewrite <- app_assoc.
      * by eapply kept_after_getChildren.
      * by subst n1.
  - apply Spec_ret. cbn. split; [done|]. split; [apply kept_refl | apply same_state_refl].
Qed.

Lemma Spec_collectVisibleNodes e n :
  Spec (collectVisibleNodes e n) (λ r, r.1 = rows e n ∧ kept e n r.2 ∧ same_state n r.2).
Proof. apply Spec_collectInternal. Qed.

Lemma Spec_touch_children e rec n cs state :
  Forall (λ c, Spec (rec c) (λ r, kept e c r.2)) cs →
  Spec (touch_children rec n cs state) (λ r,
    r.1 = state ∧ ∃ cs', r.2 = set_children n (Some cs') ∧ Forall2 (kept e) cs cs').
Proof.
  intros Hrec. unfold touch_children.
  eapply Spec_bind; [apply (Spec_mapM _ (λ c r, kept e c r.2) _ Hrec)|]. intros rs Hrs.
  apply Forall2_seconds in Hrs. apply Spec_ret. cbn. eauto.
Qed.

Lemma Spec_touch e n :
  Spec (touch e n) (λ r,
    lastTouch r.2 = r.1 ∧ kept e n r.2 ∧ defunct r.2 = defunct n).
Proof.
  induction n as [v l ex ch lt d IH] using Node_ind_children.
  cbn [touch isExpanded expanded children].
  eapply Spec_bind; [apply Spec_dateNow|]. intros state _. destruct ex.
  - destruct ch as [cs|].
    + eapply Spec_weaken.
      { apply (Spec_touch_children e). eapply Forall_impl; [by apply IH|].
        intros c Hc. eapply Spec_weaken; [exact Hc|]. by intros r (_ & ? & _). }
      intros r (Hv & cs' & -> & Hk). split; [by rewrite Hv|].
      split; [|done]. eapply kept_trans; [apply (kept_set_lastTouch e _ state)|].
      by apply (kept_set_children e _ cs).
    + eapply Spec_bind; [apply Spec_getChildren|]. intros [cs n1] [Hn1 Hnew]. cbn in Hn1, Hnew.
      eapply Spec_weaken.
      { apply (Spec_touch_children e).
        eapply Forall_impl; [exact (isNew_Forall _ _ _ Hnew)|]. intros c [v' [t ->]].
        eapply Spec_bind; [apply Spec_dateNow|]. intros t' _. by apply Spec_ret. }
      intros r (Hv & cs' & -> & Hk). subst n1. split; [by rewrite Hv|]. split; [|done].
      eapply kept_trans; [apply (kept_set_lastTouch e _ state)|].
      by eapply (kept_after_getChildren e _ cs cs' _ eq_refl).
  - by apply Spec_ret.
Qed.

Lemma Spec_markAsDefunct e n :
  Spec (markAsDefunct e n) (λ n',
    defunct n' = true ∧ kept e n n' ∧ lastTouch n' = lastTouch n).
Proof.
  induction n as [v l ex ch lt d IH] using Node_ind_children.
  cbn [markAsDefunct isExpanded expanded children]. destruct ex.
  - destruct ch as [cs|].
    + unfold markAsDefunct_children.
      eapply Spec_bind; [apply (Spec_mapM _ (λ c c', kept e c c'))|].
      { eapply Forall_impl; [by apply IH|].
        intros c Hc. eapply Spec_weaken; [exact Hc|]. by intros r (_ & ? & _). }
      intros cs' Hk. apply Spec_ret. split; [done|]. split; [|done].
      eapply kept_trans; [apply (kept_set_defunct e _ true)|].
      by apply (kept_set_children e _ cs).
    + eapply Spec_bind; [apply Spec_getChildren|]. intros [cs n1] [Hn1 Hnew]. cbn in Hn1, Hnew.
      unfold markAsDefunct_children.
      eapply Spec_bind; [apply (Spec_mapM _ (λ c c', kept e c c'))|].
      { eapply Forall_impl; [exact (isNew_Forall _ _ _ Hnew)|]. intros c [v' [t ->]].
        by apply Spec_ret. }
      intros cs' Hk. apply Spec_ret. subst n1. split; [done|]. split; [|done].
      eapply kept_trans; [apply (kept_set_defunct e _ true)|].
      by eapply (kept_after_getChildren e _ cs cs' _ eq_refl).
  - by apply Spec_ret.
Qed.

Lemma FoldRel_kept {S} e (R : S → Node → S → Node → Prop) s cs z cs' :
  (∀ s c s1 c1, R s c s1 c1 → kept e c c1) →
  FoldRel R s cs z cs' → Forall2 (kept e) cs cs'.
Proof. intros HR. induction 1; constructor; eauto. Qed.

Lemma Spec_findOpenNodes e acc curPath n :
  Spec (findOpenNodes e acc curPath n) (λ r, kept e n r.2 ∧ same_state n r.2).
Proof.
  revert acc curPath. induction n as [v l ex ch lt d IH] using Node_ind_children.
  intros acc curPath. cbn [findOpenNodes isExpanded expanded children]. destruct ex.
  - destruct ch as [cs|].
    + unfold findOpenNodes_children.
      eapply Spec_bind; [apply (Spec_foldNodes _ (λ _ c _ c1, kept e c c1))|].
      { eapply Forall_impl; [by apply IH|].
        intros c Hc z. eapply Spec_weaken; [apply Hc|]. by intros r (? & _). }
      intros [z cs'] Hf. apply (FoldRel_kept e) in Hf; [|done].
      apply Spec_ret. split; [by apply (kept_set_children e _ cs) | done].
    + eapply Spec_bind; [apply Spec_getChildren|]. intros [cs n1] [Hn1 Hnew]. cbn in Hn1, Hnew.
      unfold findOpenNodes_children.
      eapply Spec_bind; [apply (Spec_foldNodes _ (λ _ c _ c1, kept e c c1))|].
      { eapply Forall_impl; [exact (isNew_Forall _ _ _ Hnew)|]. intros c _ z.
        apply Spec_ret. apply kept_refl. }
      intros [z cs'] Hf. apply (FoldRel_kept e) in Hf; [|done].
      apply Spec_ret. subst n1. split; [|done].
      by apply (kept_after_getChildren e (mkNode v l true None lt d) cs cs' _ eq_refl).
  - apply Spec_ret. split; [apply kept_refl | apply same_state_refl].
Qed.

(** ** The recursive equations of the source text *)

Lemma isNew_collapsed lvl vs cs :
  Forall2 (isNew lvl) vs cs → Forall (λ c, isExpanded c = false) cs.
Proof. induction 1 as [|v c vs cs [t ->] _ IH]; by constructor. Qed.

(** The children a node hands out are its cached ones or collapsed. *)
Lemma getChildren_cases e n w :
  let r := getChildren e n w in
  (children n = Some r.1.1 ∧ r.1.2 = n ∧ r.2 = w) ∨
  (children n = None ∧ Forall (λ c, isExpanded c = false) r.1.1).
Proof.
  destruct (Spec_getChildren e n w) as ((_ & H) & _).
  destruct n as [v l ex [cs|] lt d]; cbn in *; [by left | right].
  split; [done|]. by eapply isNew_collapsed.
Qed.

Lemma height_unfold e n w :
  height e n w =
  (if isExpanded n then
     do '(cs, n1) <- getChildren e n; height_children (height e) n1 cs
   else ret (1, n)) w.
Proof.
  destruct n as [v l [] [cs|] lt d]; [done| |done..].
  cbn [height isExpanded expanded children]. unfold bind.
  destruct (getChildren_cases e (mkNode v l true None lt d) w) as [(? & _)|(_ & Hc)]; [done|].
  destruct (getChildren e _ w) as [[cs n1] w1]. cbn in Hc.
  unfold height_children, bind. rewrite (mapM_ext_Forall _ (height e) cs); [done|].
  eapply Forall_impl; [exact Hc|]. intros [? ? ? ? ? ?] Hex w'. cbn in Hex. subst. reflexivity.
Qed.

Lemma collectInternal_unfold e acc node w :
  collectInternal e acc node w =
  (let newAcc := acc ++ [makeView node] in
   if isExpanded node then
     do '(cs, n1) <- getChildren e node; collect_children (collectInternal e) n1 cs newAcc
   else ret (newAcc, node)) w.
Proof.
  destruct node as [v l [] [cs|] lt d]; [done| |done..].
  cbn [collectInternal isExpanded expanded children]. unfold bind.
  destruct (getChildren_cases e (mkNode v l true None lt d) w) as [(? & _)|(_ & Hc)]; [done|].
  destruct (getChildren e _ w) as [[cs n1] w1]. cbn in Hc.
  unfold collect_children, bind. rewrite (foldNodes_ext_Forall _ (collectInternal e) cs); [done|].
  eapply Forall_impl; [exact Hc|]. intros [? ? ? ? ? ?] Hex z w'. cbn in Hex. subst. reflexivity.
Qed.

Lemma touch_unfold e n w :
  touch e n w =
  (do state <- dateNow e;
   let n0 := set_lastTouch n state in
   if isExpanded n0 then
     do '(cs, n1) <- getChildren e n0; touch_children (touch e) n1 cs state
   else ret (state, n0)) w.
Proof.
  destruct n as [v l [] [cs|] lt d]; [done| |done..].
  cbn [touch isExpanded expanded children set_lastTouch viewNode level lastTouch defunct].
  unfold bind, dateNow. cbv beta iota.
  set (state := clock e (clockReads w)). set (w0 := mkWorld _ _ _).
  destruct (getChildren_cases e (mkNode v l true None state d) w0) as [(? & _)|(_ & Hc)]; [done|].
  destruct (getChildren e _ w0) as [[cs n1] w1]. cbn in Hc.
  unfold touch_children, bind. rewrite (mapM_ext_Forall _ (touch e) cs); [done|].
  eapply Forall_impl; [exact Hc|]. intros [? ? ? ? ? ?] Hex w'. cbn in Hex. subst. reflexivity.
Qed.

Lemma markAsDefunct_unfold e n w :
  markAsDefunct e n w =
  (let n0 := set_defunct n true in
   if isExpanded n0 then
     do '(cs, n1) <- getChildren e n0; markAsDefunct_children (markAsDefunct e) n1 cs
   else ret n0) w.
Proof.
  destruct n as [v l [] [cs|] lt d]; [done| |done..].
  cbn [markAsDefunct isExpanded expanded children set_defunct]. unfold bind.
  destruct (getChildren_cases e (mkNode v l true None lt true) w) as [(? & _)|(_ & Hc)]; [done|].
  cbn [viewNode level expanded children lastTouch defunct].
  destruct (getChildren e _ w) as [[cs n1] w1]. cbn in Hc.
  unfold markAsDefunct_children, bind. rewrite (mapM_ext_Forall _ (markAsDefunct e) cs); [done|].
  eapply Forall_impl; [exact Hc|]. intros [? ? ? ? ? ?] Hex w'. cbn in Hex. subst. reflexivity.
Qed.

Lemma findOpenNodes_unfold e acc curPath node w :
  findOpenNodes e acc curPath node w =
  (if isExpanded node then
     do '(cs, n1) <- getChildren e node;
     findOpenNodes_children (findOpenNodes e) curPath n1 cs (acc ++ [curPath])
   else ret (acc, node)) w.
Proof.
  destruct node as [v l [] [cs|] lt d]; [done| |done..].
  cbn [findOpenNodes isExpanded expanded children]. unfold bind.
  destruct (getChildren_cases e (mkNode v l true None lt d) w) as [(? & _)|(_ & Hc)]; [done|].
  destruct (getChildren e _ w) as [[cs n1] w1]. cbn in Hc.
  unfold findOpenNodes_children, bind.
  rewrite (foldNodes_ext_Forall _ (λ z child, findOpenNodes e z (curPath ++ [nodeUri (viewNode child)]) child) cs);
    [done|].
  eapply Forall_impl; [exact Hc|]. intros [? ? ? ? ? ?] Hex z w'. cbn in Hex. subst. reflexivity.
Qed.

Lemma findNodeOffsetInternal_unfold e target acc node w :
  findNodeOffsetInternal e target acc node w =
  (if bool_decide (nodeUri (viewNode node) = target) || acc.2 then ret ((acc.1, true), node)
   else if isExpanded node then
     do '(cs, n1) <- getChildren e node;
     findNodeOffset_children (findNodeOffsetInternal e target) n1 cs (acc.1 + 1, acc.2)
   else ret ((acc.1 + 1, acc.2), node)) w.
Proof.
  destruct node as [v l [] [cs|] lt d]; [done| |done..].
  cbn [findNodeOffsetInternal isExpanded expanded children viewNode].
  destruct (_ || _); [done|]. unfold bind.
  destruct (getChildren_cases e (mkNode v l true None lt d) w) as [(? & _)|(_ & Hc)]; [done|].
  destruct (getChildren e _ w) as [[cs n1] w1]. cbn in Hc.
  unfold findNodeOffset_children, bind.
  rewrite (foldNodes_ext_Forall _ (findNodeOffsetInternal e target) cs); [done|].
  eapply Forall_impl; [exact Hc|]. intros [? ? ? ? ? ?] Hex z w'. cbn in Hex. subst. reflexivity.
Qed.

(** ** reloadSubtree *)

Lemma Spec_reloadSubtree_upto depth e node openNodes :
  Spec (reloadSubtree_upto depth e node openNodes) (λ n',
    viewNode n' = viewNode node ∧ same_ident node n').
Proof.
  revert node openNodes. induction depth as [|d IH]; intros node openNodes.
  all: cbn [reloadSubtree_upto]; case_bool_decide; [|by apply Spec_ret].
  all: eapply Spec_bind; [apply Spec_getChildren|]; intros [cs n1] [Hn1 _]; cbn in Hn1.
  all: eapply Spec_bind; [apply (Spec_mapM _ (λ _ _, True))|
                          intros cs' _; apply Spec_ret; by subst n1].
  all: apply Forall_forall; intros c _; destruct (groupBy_get _ _); [|by apply Spec_ret].
  - by apply Spec_ret.
  - eapply Spec_weaken; [apply IH|done].
Qed.

Lemma max_length_elem (p : Path) paths :
  p ∈ paths → (length p ≤ max_length paths)%nat.
Proof.
  induction 1 as [p paths|p q paths _ IH]; cbn [max_length foldr]; [lia|].
  unfold max_length in IH. lia.
Qed.

Lemma max_length_bound paths (m : nat) :
  (∀ p, p ∈ paths → (length p ≤ m)%nat) → (max_length paths ≤ m)%nat.
Proof.
  induction paths as [|p paths IH]; intros H; cbn [max_length foldr]; [lia|].
  assert (length p ≤ m)%nat by (apply H; left).
  assert (max_length paths ≤ m)%nat by (apply IH; intros q Hq; apply H; by right).
  unfold max_length in *. lia.
Qed.

(** The paths handed to a child are strictly shorter than the longest one. *)
Lemma groupBy_get_shorter paths k g :
  groupBy_get (filter (λ p, p ≠ []) paths) k = Some g →
  (S (max_length (tail <$> g)) ≤ max_length paths)%nat.
Proof.
  unfold groupBy_get. intros Hg.
  assert (∀ p, p ∈ g → p ≠ [] ∧ p ∈ paths) as Hin.
  { intros p Hp.
    assert (p ∈ filter (λ p, head p = Some k) (filter (λ p, p ≠ []) paths)) as Hp'.
    { destruct (filter _ (filter _ _)); [done|]. by injection Hg as <-. }
    apply list_elem_of_filter in Hp' as [_ Hp']. by apply list_elem_of_filter in Hp'. }
  assert (g ≠ []) as Hne by (destruct (filter _ (filter _ _)); [done|]; by injection Hg as <-).
  destruct g as [|p0 g]; [done|].
  destruct (Hin p0 ltac:(left)) as [Hp0 Hp0'].
  pose proof (max_length_elem _ _ Hp0').
  destruct (max_length paths) as [|m] eqn:Hm; [destruct p0; [done|cbn in *; lia]|].
  apply le_n_S, max_length_bound. intros q Hq.
  apply list_elem_of_fmap in Hq as (p & -> & Hp).
  destruct (Hin p Hp) as [Hne' Hp'].
  pose proof (max_length_elem _ _ Hp'). destruct p; [done|]. cbn in *. lia.
Qed.

Lemma groupBy_get_short paths k :
  max_length paths = 0%nat → groupBy_get (filter (λ p, p ≠ []) paths) k = None.
Proof.
  intros Hm. destruct (groupBy_get _ k) as [g|] eqn:Hg; [|done].
  apply groupBy_get_shorter in Hg. lia.
Qed.

(** A larger bound than the longest path changes nothing. *)
Lemma reloadSubtree_upto_enough e d d' node openNodes w :
  (max_length openNodes ≤ d)%nat → (max_length openNodes ≤ d')%nat →
  reloadSubtree_upto d e node openNodes w = reloadSubtree_upto d' e node openNodes w.
Proof.
  revert d' node openNodes w. induction d as [|d IH]; intros d' node openNodes w Hd Hd'.
  all: destruct d' as [|d']; try reflexivity.
  all: cbn [reloadSubtree_upto]; case_bool_decide; [|done].
  all: unfold bind; destruct (getChildren e node w) as [[cs n1] w1].
  all: erewrite mapM_ext_Forall; [done|].
  all: apply Forall_forall; intros c _ w'.
  all: destruct (groupBy_get _ _) as [g|] eqn:Hg; [|done].
  all: pose proof (groupBy_get_shorter _ _ _ Hg).
  1,2: lia.
  apply IH; lia.
Qed.

Lemma reloadSubtree_unfold e node openNodes w :
  reloadSubtree e node openNodes w =
  (if bool_decide (openNodes ≠ []) then
     do '(cs, node1) <- getChildren e node;
     let childToNodes := groupBy_get (filter (λ p, p ≠ []) openNodes) in
     do cs' <- mapM (λ child,
                 match childToNodes (nodeUri (viewNode child)) with
                 | None => ret child
                 | Some mbOpenNodes =>
                     reloadSubtree e (set_expanded child true) (tail <$> mbOpenNodes)
                 end) cs;
     ret (set_children node1 (Some cs'))
   else ret node) w.
Proof.
  unfold reloadSubtree. destruct (max_length openNodes) as [|d] eqn:Hm.
  all: cbn [reloadSubtree_upto]; case_bool_decide; [|done].
  all: unfold bind; destruct (getChildren e node w) as [[cs n1] w1].
  all: erewrite mapM_ext_Forall; [done|].
  all: apply Forall_forall; intros c _ w'.
  all: destruct (groupBy_get _ _) as [g|] eqn:Hg; [|done].
  all: pose proof (groupBy_get_shorter _ _ _ Hg).
  - lia.
  - apply reloadSubtree_upto_enough; lia.
Qed.

(** ** expand, collapse and refreshSubtree as state transformers *)

Lemma kept_makeView e n n' : kept e n n' → makeView n' = makeView n.
Proof.
  intros (Hv & Hl & Hx & _). unfold makeView, expandable, isExpanded. by rewrite Hv, Hl, Hx.
Qed.

Lemma kept_hgt e n n' : kept e n n' → hgt e n' = hgt e n.
Proof. intros (_ & _ & _ & Hr). unfold hgt. by rewrite Hr. Qed.

Lemma height_value e n w : (height e n w).1.1 = hgt e n.
Proof. by destruct (Spec_height e n w) as ((? & _) & _). Qed.

Lemma Spec_getChildren_kept e n :
  isExpanded n = true → Spec (getChildren e n) (λ r, kept e n r.2 ∧ same_state n r.2).
Proof.
  intros Hex. eapply Spec_weaken; [apply Spec_getChildren|]. intros [cs n1] [Hn1 Hcs].
  cbn in *. subst n1. split; [|done].
  repeat split. destruct n as [v l ex [cs0|] lt d]; cbn in *; subst; [done|].
  by rewrite (isNew_children_rows e _ _ _ Hcs).
Qed.

Lemma expand_start_effect e n w :
  defunct n = false →
  let s := expand_start e n w in
  s.1.1 = Some (lastTouch s.1.2) ∧ defunct s.1.2 = false ∧
  kept e (set_expanded n true) s.1.2 ∧
  fired s.2 = fired w ∧
  notified s.2 = notified w ++ [(nodeUri (viewNode n), false)].
Proof.
  intros Hd. unfold expand_start. rewrite Hd. unfold bind.
  cbn [sendTreeNodeVisibilityNotification].
  set (w0 := mkWorld _ _ _). set (n1 := set_expanded n true).
  destruct (Spec_touch e n1 w0) as ((Ht & Hk & Hd1) & Hf1 & Hn1).
  destruct (touch e n1 w0) as [[curState n2] w1]. cbn in Ht, Hk, Hd1, Hf1, Hn1.
  assert (isExpanded n2 = true) as Hex
    by (unfold isExpanded; by destruct Hk as (_ & _ & -> & _)).
  destruct (Spec_getChildren_kept e n2 Hex w1) as ((Hk2 & Hs2 & Hd2) & Hf2 & Hn2).
  destruct (getChildren e n2 w1) as [[cs n3] w2]. cbn in *.
  split; [congruence|]. split; [congruence|]. split; [by eapply kept_trans|].
  split; congruence.
Qed.

Lemma expand_resume_effect e curState n w :
  let x := expand_resume e curState n w in
  kept e n x.1.2 ∧ same_state n x.1.2 ∧ notified x.2 = notified w ∧
  if bool_decide (curState = lastTouch n) && negb (defunct n) then
    x.1.1 = true ∧ fired x.2 = fired w ++ [mkUpdate (makeView n) 1 (rows e n) false]
  else x.1.1 = false ∧ fired x.2 = fired w.
Proof.
  unfold expand_resume, bind.
  destruct (Spec_collectVisibleNodes e n w) as ((Hv & Hk & Hs) & Hf & Hn).
  destruct (collectVisibleNodes e n w) as [[visibleNodes n1] w1]. cbn in Hv, Hk, Hs, Hf, Hn.
  destruct Hs as [Hlt Hdf]. rewrite Hlt, Hdf.
  destruct (bool_decide _ && negb _); cbn.
  - rewrite (kept_makeView e n n1 Hk), Hv, Hf. done.
  - done.
Qed.

Lemma expand_effect e n w :
  defunct n = false →
  let r := expand e n w in
  r.1.1 = true ∧ kept e (set_expanded n true) r.1.2 ∧ defunct r.1.2 = false ∧
  fired r.2 = fired w ++
    [mkUpdate (makeView (set_expanded n true)) 1 (rows e (set_expanded n true)) false] ∧
  notified r.2 = notified w ++ [(nodeUri (viewNode n), false)].
Proof.
  intros Hd. unfold expand, bind.
  destruct (expand_start_effect e n w Hd) as (Hst & Hd1 & Hk1 & Hf1 & Hn1).
  destruct (expand_start e n w) as [[st n1] w1]. cbn in Hst, Hd1, Hk1, Hf1, Hn1. subst st.
  destruct (expand_resume_effect e (lastTouch n1) n1 w1) as (Hk2 & [Hlt2 Hd2] & Hn2 & Hx).
  rewrite bool_decide_eq_true_2, Hd1 in Hx by done. cbn in Hx. destruct Hx as [Hb Hf2].
  destruct (expand_resume e (lastTouch n1) n1 w1) as [[b n2] w2]. cbn in *.
  split; [done|]. split; [by eapply kept_trans|]. split; [congruence|].
  split; [|congruence].
  rewrite Hf2, Hf1, (kept_makeView e _ _ Hk1). by destruct Hk1 as (_ & _ & _ & ->).
Qed.

Lemma collapse_effect e n w :
  defunct n = false →
  let r := collapse e n w in
  r.1.1 = true ∧ isExpanded r.1.2 = false ∧
  makeView r.1.2 = makeView (set_expanded n false) ∧
  fired r.2 = fired w ++ [mkUpdate (makeView r.1.2) (hgt e n) [makeView r.1.2] false] ∧
  notified r.2 = notified w ++ [(nodeUri (viewNode n), true)].
Proof.
  intros Hd. unfold collapse. rewrite Hd. unfold bind.
  cbn [sendTreeNodeVisibilityNotification]. set (w0 := mkWorld _ _ _).
  destruct (Spec_touch e n w0) as ((Ht & Hk & Hd1) & Hf1 & Hn1).
  destruct (touch e n w0) as [[curState n1] w1]. cbn in Ht, Hk, Hd1, Hf1, Hn1.
  destruct (Spec_height e n1 w1) as ((Hh & Hk2 & Hlt2 & Hd2) & Hf2 & Hn2).
  destruct (height e n1 w1) as [[h n2] w2]. cbn in Hh, Hk2, Hlt2, Hd2, Hf2, Hn2.
  cbn [set_expanded lastTouch defunct].
  rewrite bool_decide_eq_true_2 by congruence.
  replace (defunct n2) with false by congruence. cbn.
  assert (makeView (set_expanded n2 false) = makeView (set_expanded n false)) as Hmv.
  { destruct Hk as (Hv & Hl & _), Hk2 as (Hv2 & Hl2 & _).
    unfold makeView, expandable. cbn. by rewrite Hv2, Hl2, Hv, Hl. }
  split; [done|]. split; [done|]. split; [done|].
  rewrite Hf2, Hf1, Hn2, Hn1, Hh, (kept_hgt e n n1 Hk). done.
Qed.

Lemma Spec_retireChildren e n :
  Spec (retireChildren e n) (λ n',
    kept e n n' ∧ same_state n n' ∧
    (isExpanded n = true → ∃ cs, children n' = Some cs ∧ Forall (λ c, defunct c = true) cs)).
Proof.
  unfold retireChildren. destruct (isExpanded n) eqn:Hex.
  - eapply Spec_bind; [apply Spec_getChildren|]. intros [cs n1] [Hn1 Hcs]. cbn in Hn1, Hcs.
    eapply Spec_bind;
      [apply (Spec_mapM _ (λ c c', defunct c' = true ∧ kept e c c')), Forall_forall|].
    { intros c _. eapply Spec_weaken; [apply Spec_markAsDefunct|]. by intros c' (? & ? & _). }
    intros cs' Hcs'. apply Spec_ret. split; [|split].
    + eapply (kept_after_getChildren e n cs cs' n1); [done..|].
      eapply Forall2_impl; [exact Hcs'|]. by intros ?? [_ ?].
    + by subst n1.
    + intros _. exists cs'. split; [done|]. clear -Hcs'.
      induction Hcs' as [|???? [? _]]; by constructor.
  - apply Spec_ret. split; [apply kept_refl|]. split; [apply same_state_refl | done].
Qed.

Lemma refreshSubtree_effect e newViewNode n w :
  let r := refreshSubtree e newViewNode n w in
  same_ident n r.1 ∧
  viewNode r.1 = default (viewNode n) newViewNode ∧
  fired r.2 = fired w ++ [mkUpdate (makeView r.1) (hgt e n) (rows e r.1) false] ∧
  notified r.2 = notified w.
Proof.
  unfold refreshSubtree, bind.
  destruct (Spec_height e n w) as ((Hh & (Hv1 & Hl1 & Hx1 & _) & Ht1 & Hd1) & Hf1 & Hn1).
  destruct (height e n w) as [[h n1] w1]. cbn in Hh, Hv1, Hl1, Hx1, Ht1, Hd1, Hf1, Hn1.
  destruct (Spec_retireChildren e n1 w1) as (((Hv2 & Hl2 & Hx2 & _) & (Ht2 & Hd2) & _) & Hf2 & Hn2).
  destruct (retireChildren e n1 w1) as [n2 w2]. cbn in Hv2, Hl2, Hx2, Ht2, Hd2, Hf2, Hn2.
  destruct (Spec_findOpenNodes e [] [] n2 w2) as (((Hv3 & Hl3 & Hx3 & _) & Ht3 & Hd3) & Hf3 & Hn3).
  destruct (findOpenNodes e [] [] n2 w2) as [[openNodes n3] w3].
  cbn in Hv3, Hl3, Hx3, Ht3, Hd3, Hf3, Hn3.
  destruct (Spec_reloadSubtree_upto (max_length openNodes) e (set_children n3 None) openNodes w3)
    as ((Hv5 & Hl5 & Hx5 & Ht5 & Hd5) & Hf5 & Hn5).
  fold (reloadSubtree e (set_children n3 None) openNodes) in *.
  destruct (reloadSubtree e (set_children n3 None) openNodes w3) as [n5 w5].
  cbn in Hv5, Hl5, Hx5, Ht5, Hd5, Hf5, Hn5.
  set (n6 := match newViewNode with Some v => set_viewNode n5 v | None => n5 end).
  assert (level n6 = level n5 ∧ expanded n6 = expanded n5 ∧ lastTouch n6 = lastTouch n5 ∧
          defunct n6 = defunct n5 ∧ viewNode n6 = default (viewNode n5) newViewNode)
    as (Hl6 & Hx6 & Ht6 & Hd6 & Hv6) by (subst n6; by destruct newViewNode).
  destruct (Spec_collectVisibleNodes e n6 w5) as ((Hr & Hk7 & Ht7 & Hd7) & Hf7 & Hn7).
  destruct (collectVisibleNodes e n6 w5) as [[visibleNodes n7] w7].
  cbn in Hr, Hk7, Ht7, Hd7, Hf7, Hn7. cbn.
  pose proof Hk7 as (Hv7 & Hl7 & Hx7 & Hr7).
  split; [repeat split; congruence|]. split.
  - rewrite Hv7, Hv6. destruct newViewNode; cbn; congruence.
  - split; [|congruence]. rewrite Hr7, <- Hr, Hf7, Hf5, Hf3, Hf2, Hf1, Hh. done.
Qed.

(** ** Offsets *)

Lemma uris_after_getChildren e n cs :
  isExpanded n = true →
  match children n with
  | Some cs0 => cs = cs0
  | None => Forall2 (isNew (level n + 1)) (loadNodeChildren e (nodeUri (viewNode n))) cs
  end →
  uris e n = nodeUri (viewNode n) :: concat (uris e <$> cs).
Proof.
  intros Hex Hcs. unfold uris at 1. rewrite (rows_after_getChildren e n cs Hex Hcs).
  cbn. f_equal. clear. induction cs as [|c cs IH]; [done|].
  cbn [fmap list_fmap concat]. rewrite fmap_app. f_equal. exact IH.
Qed.

Lemma uris_collapsed e n : isExpanded n = false → uris e n = [nodeUri (viewNode n)].
Proof. intros Hex. unfold uris. destruct n; cbn in *. by subst. Qed.

Lemma kept_uris e n n' : kept e n n' → uris e n' = uris e n.
Proof. intros (_ & _ & _ & Hr). unfold uris. by rewrite Hr. Qed.

Lemma scan_found target k us : foldl (scan target) (k, true) us = (k, true).
Proof.
  induction us as [|u us IH]; [done|]. cbn. unfold scan at 2. cbn.
  by rewrite orb_true_r.
Qed.

Lemma FoldRel_scan e target acc cs z cs' :
  FoldRel (λ s c s1 c1, s1 = foldl (scan target) s (uris e c) ∧ kept e c c1) acc cs z cs' →
  z = foldl (scan target) acc (concat (uris e <$> cs)) ∧ Forall2 (kept e) cs cs'.
Proof.
  induction 1 as [s|s c l s1 c1 s2 l1 [-> Hk] _ [-> IH]]; cbn.
  - split; [done | constructor].
  - split; [by rewrite foldl_app | by constructor].
Qed.

Lemma Spec_findNodeOffsetInternal e target acc n :
  Spec (findNodeOffsetInternal e target acc n) (λ r,
    r.1 = foldl (scan target) acc (uris e n) ∧ kept e n r.2).
Proof.
  revert acc. induction n as [v l ex ch lt d IH] using Node_ind_children. intros [k found].
  cbn [findNodeOffsetInternal isExpanded expanded children viewNode fst snd].
  destruct (bool_decide (nodeUri v = target) || found) eqn:Hm.
  { apply Spec_ret. split; [|apply kept_refl]. cbn [fst snd].
    assert (uris e (mkNode v l ex ch lt d) =
            nodeUri v :: tail (uris e (mkNode v l ex ch lt d))) as -> by done.
    cbn [foldl]. unfold scan at 2. cbn [fst snd]. rewrite Hm. by rewrite scan_found. }
  destruct ex.
  - destruct ch as [cs|].
    + unfold findNodeOffset_children.
      eapply Spec_bind;
        [apply (Spec_foldNodes _
           (λ s c s1 c1, s1 = foldl (scan target) s (uris e c) ∧ kept e c c1))|].
      { eapply Forall_impl; [by apply IH|]. intros c Hc z. apply Hc. }
      intros [z cs'] Hf. cbn in Hf. apply FoldRel_scan in Hf as [-> Hk].
      apply Spec_ret. split; [|by apply (kept_set_children e _ cs)]. cbn [fst].
      rewrite (uris_after_getChildren e _ cs); [|done..]. cbn [foldl viewNode].
      unfold scan at 3. cbn [fst snd]. by rewrite Hm.
    + eapply Spec_bind; [apply Spec_getChildren|]. intros [cs n1] [Hn1 Hnew]. cbn in Hn1, Hnew.
      unfold findNodeOffset_children.
      eapply Spec_bind;
        [apply (Spec_foldNodes _
           (λ s c s1 c1, s1 = foldl (scan target) s (uris e c) ∧ kept e c c1))|].
      { eapply Forall_impl; [exact (isNew_Forall _ _ _ Hnew)|]. intros c [v' [t ->]] z.
        cbn [viewNode]. unfold uris. cbn [rows isExpanded expanded fmap list_fmap foldl].
        unfold scan, makeView. cbn [underlying viewNode].
        destruct (bool_decide (nodeUri v' = target) || z.2); by apply Spec_ret. }
      intros [z cs'] Hf. cbn in Hf. apply FoldRel_scan in Hf as [-> Hk].
      apply Spec_ret. split; [|by eapply kept_after_getChildren]. cbn [fst].
      rewrite (uris_after_getChildren e _ cs); [|done..]. cbn [foldl viewNode].
      unfold scan at 3. cbn [fst snd]. by rewrite Hm.
  - apply Spec_ret. split; [|apply kept_refl]. cbn [fst].
    rewrite uris_collapsed by done. cbn. unfold scan. cbn. by rewrite Hm.
Qed.

(** The running count stops at the first row with the target identity. *)
Lemma scan_first target k us :
  target ∈ us →
  ∃ i, foldl (scan target) (k, false) us = (k + Z.of_nat i, true) ∧
       us !! i = Some target.
Proof.
  revert k. induction us as [|u us IH]; intros k Hin; [by apply elem_of_nil in Hin|].
  cbn [foldl]. unfold scan at 2. cbn [fst snd]. rewrite orb_false_r.
  case_bool_decide as Hu.
  - exists 0%nat. rewrite scan_found. split; [f_equal; lia | by subst].
  - apply elem_of_cons in Hin as [->|Hin]; [done|].
    destruct (IH (k + 1) Hin) as (i & Hf & Hi). exists (S i).
    rewrite Hf. split; [f_equal; lia | done].
Qed.

Lemma scan_absent target k us :
  target ∉ us → foldl (scan target) (k, false) us = (k + Z.of_nat (length us), false).
Proof.
  revert k. induction us as [|u us IH]; intros k Hin; cbn [foldl length]; [f_equal; lia|].
  apply not_elem_of_cons in Hin as [Hu Hin].
  unfold scan at 2. cbn [fst snd]. rewrite bool_decide_eq_false_2 by done. cbn [orb].
  rewrite IH by done. f_equal. lia.
Qed.

Lemma findNodeWithOffset_step_done rec e offset h m cs w :
  foldNodes (findNodeWithOffset_step rec e offset) (Done (h, Some m)) cs w
  = ((Done (h, Some m), cs), w).
Proof.
  induction cs as [|c cs IH]; [done|]. cbn [foldNodes]. unfold bind.
  cbn [findNodeWithOffset_step ret]. fold (foldNodes (findNodeWithOffset_step rec e offset)).
  by rewrite IH.
Qed.

Lemma length_rows_children e cs :
  Z.of_nat (length (concat (rows e <$> cs))) = sumZ (hgt e <$> cs).
Proof.
  induction cs as [|c cs IH]; [done|]. rewrite !fmap_cons. cbn [concat].
  by rewrite length_app, Nat2Z.inj_add, IH.
Qed.

Lemma hgt_pos e n : 1 ≤ hgt e n.
Proof. unfold hgt. destruct n; cbn [rows length]. lia. Qed.

(** The children loop while the offset lies beyond the children seen. *)
Lemma findNodeWithOffset_step_beyond rec e offset cs h w :
  h + sumZ (hgt e <$> cs) ≤ offset →
  ∃ cs' w',
    foldNodes (findNodeWithOffset_step rec e offset) (Done (h, None)) cs w
    = ((Done (h + sumZ (hgt e <$> cs), None), cs'), w') ∧
    Forall2 (kept e) cs cs'.
Proof.
  revert h w. induction cs as [|c cs IH]; intros h w Hle.
  { exists [], w. split; [|constructor]. cbn. unfold sumZ. cbn. by rewrite Z.add_0_r. }
  rewrite fmap_cons in Hle. change (sumZ (?a :: ?l)) with (a + sumZ l) in Hle.
  pose proof (hgt_pos e c). 
  assert (0 ≤ sumZ (hgt e <$> cs)) by (rewrite <- length_rows_children; lia).
  cbn [foldNodes]. unfold bind. cbn [findNodeWithOffset_step]. unfold bind.
  destruct (Spec_height e c w) as ((Hh & Hk & _) & _).
  destruct (height e c w) as [[childHeight c1] w1]. cbn in Hh, Hk. subst childHeight.
  rewrite (proj2 (Z.leb_le _ _)) by lia. cbn [ret].
  fold (foldNodes (findNodeWithOffset_step rec e offset)).
  destruct (IH (h + hgt e c) w1) as (cs' & w' & Hf & Hks); [lia|].
  rewrite Hf. exists (c1 :: cs'), w'. split; [|by constructor].
  rewrite fmap_cons. change (sumZ (?a :: ?l)) with (a + sumZ l). by rewrite Z.add_assoc.
Qed.

(** The children loop when the offset falls among the children: the
    recursive call is made on the child whose span contains it. *)
Lemma findNodeWithOffset_step_within rec e (f : nat) offset cs h w :
  (∀ c off w, (length (rows e c) ≤ f)%nat → 0 ≤ off < hgt e c →
     ∃ m c' w', rec c off w = ((Done (Some m), c'), w') ∧ kept e c c' ∧
                rows e c !! Z.to_nat off = Some (makeView m)) →
  (length (concat (rows e <$> cs)) ≤ f)%nat →
  h ≤ offset < h + sumZ (hgt e <$> cs) →
  ∃ m h' cs' w',
    foldNodes (findNodeWithOffset_step rec e offset) (Done (h, None)) cs w
    = ((Done (h', Some m), cs'), w') ∧
    Forall2 (kept e) cs cs' ∧
    concat (rows e <$> cs) !! Z.to_nat (offset - h) = Some (makeView m).
Proof.
  intros Hrec. revert h w. induction cs as [|c cs IH]; intros h w Hlen Hoff.
  { unfold sumZ in Hoff. cbn in Hoff. lia. }
  rewrite fmap_cons in Hoff. rewrite fmap_cons in Hlen. change (sumZ (?a :: ?l)) with (a + sumZ l) in Hoff.
  cbn [concat] in Hlen. rewrite length_app in Hlen.
  pose proof (hgt_pos e c) as Hpos.
  cbn [foldNodes]. unfold bind. cbn [findNodeWithOffset_step]. unfold bind.
  destruct (Spec_height e c w) as ((Hh & Hk & _) & _).
  destruct (height e c w) as [[childHeight c1] w1]. cbn in Hh, Hk. subst childHeight.
  fold (foldNodes (findNodeWithOffset_step rec e offset)).
  rewrite fmap_cons. cbn [concat].
  destruct (Z.leb_spec (h + hgt e c) offset) as [Hle|Hgt].
  - cbn [ret]. destruct (IH (h + hgt e c) w1) as (m & h' & cs' & w' & Hf & Hks & Hl);
      [lia | lia |].
    rewrite Hf. exists m, h', (c1 :: cs'), w'. split; [done|]. split; [by constructor|].
    rewrite lookup_app_r by (unfold hgt in Hle; lia).
    rewrite <- Hl. f_equal. unfold hgt. lia.
  - destruct (Hrec c1 (offset - h) w1) as (m & c2 & w2 & Hr & Hk2 & Hl).
    { destruct Hk as (_ & _ & _ & ->). lia. }
    { rewrite (kept_hgt e c c1 Hk). lia. }
    rewrite Hr. cbn [ret]. rewrite findNodeWithOffset_step_done.
    exists m, 0, (c2 :: cs), w2. split; [done|]. split.
    + constructor; [by eapply kept_trans|]. clear. induction cs; constructor; [apply kept_refl|done].
    + destruct Hk as (_ & _ & _ & Hrows). rewrite Hrows in Hl.
      rewrite lookup_app_l; [done|]. unfold hgt in Hgt. lia.
Qed.

Lemma findNodeWithOffsetInternal_found e fuel n offset w :
  (length (rows e n) ≤ fuel)%nat → 0 ≤ offset < hgt e n →
  ∃ m n' w',
    findNodeWithOffsetInternal fuel e n offset w = ((Done (Some m), n'), w') ∧
    kept e n n' ∧ rows e n !! Z.to_nat offset = Some (makeView m).
Proof.
  revert n offset w. induction fuel as [|f IH]; intros n offset w Hlen Hoff.
  { destruct n; cbn in Hlen. lia. }
  cbn [findNodeWithOffsetInternal]. destruct (Z.eqb_spec offset 0) as [->|Hne].
  { exists n, n, w. split; [done|]. split; [apply kept_refl|]. by destruct n. }
  assert (isExpanded n = true) as Hex.
  { destruct (isExpanded n) eqn:Hex; [done|]. rewrite hgt_unfold, Hex in Hoff. lia. }
  unfold bind.
  destruct (Spec_getChildren e n w) as ((Hn1 & Hcs) & _).
  destruct (getChildren e n w) as [[cs n1] w1]. cbn in Hn1, Hcs.
  pose proof (rows_after_getChildren e n cs Hex Hcs) as Hrows.
  pose proof (hgt_after_getChildren e n cs Hex Hcs) as Hhgt.
  destruct (findNodeWithOffset_step_within (findNodeWithOffsetInternal f e) e f offset cs 1 w1)
    as (m & h' & cs' & w' & Hf & Hks & Hl).
  - intros c off w0 Hc Ho. by apply IH.
  - rewrite Hrows in Hlen. cbn in Hlen. lia.
  - lia.
  - rewrite Hf. exists m, (set_children n1 (Some cs')), w'. split; [done|].
    split; [by eapply kept_after_getChildren|].
    rewrite Hrows. replace (Z.to_nat offset) with (S (Z.to_nat (offset - 1))) by lia.
    done.
Qed.

Lemma findNodeWithOffsetInternal_beyond e fuel n offset w :
  isExpanded n = true → hgt e n ≤ offset →
  (findNodeWithOffsetInternal (S fuel) e n offset w).1.1 = Done None.
Proof.
  intros Hex Hoff. pose proof (hgt_pos e n).
  cbn [findNodeWithOffsetInternal]. destruct (Z.eqb_spec offset 0) as [->|Hne]; [lia|].
  unfold bind.
  destruct (Spec_getChildren e n w) as ((Hn1 & Hcs) & _).
  destruct (getChildren e n w) as [[cs n1] w1]. cbn in Hn1, Hcs.
  pose proof (hgt_after_getChildren e n cs Hex Hcs) as Hhgt.
  destruct (findNodeWithOffset_step_beyond (findNodeWithOffsetInternal fuel e) e offset cs 1 w1)
    as (cs' & w' & Hf & _); [lia|].
  by rewrite Hf.
Qed.

(** ** The loop of removeRows *)

Lemma removeRows_loop_fold f t m :
  removeRows_loop (JNum f) (JNum t) m = foldl removeRows_step ([], m) (seqZ f (t - f)).
Proof. done. Qed.

(** Round [i] deletes at most the key [i]: the records of the lines after
    [i] are the initial ones. *)
Lemma removeRows_step_above st i k :
  i < k → (removeRows_step st i).2 !! JNum k = st.2 !! JNum k.
Proof.
  intros Hik. destruct st as [ul m]. cbn. destruct (m !! JNum (i + 1)); [|done].
  cbn. apply lookup_delete_ne. intros [= ->]. lia.
Qed.

Lemma removeRows_fold_spec (n : nat) a ul (m0 m : gmap JsNumber Z) :
  (∀ k, a < k → m !! JNum k = m0 !! JNum k) →
  (foldl removeRows_step (ul, m) (seqZ a (Z.of_nat n))).1
  = ul ++ omap (λ i, m0 !! JNum (i + 1)) (seqZ a (Z.of_nat n)) ∧
  (∀ k, a + Z.of_nat n ≤ k → a < k →
     (foldl removeRows_step (ul, m) (seqZ a (Z.of_nat n))).2 !! JNum k = m0 !! JNum k).
Proof.
  revert a ul m. induction n as [|n IH]; intros a ul m Hm.
  { cbn. split; [by rewrite app_nil_r | auto]. }
  rewrite Nat2Z.inj_succ, seqZ_cons by lia.
  replace (Z.pred (Z.succ (Z.of_nat n))) with (Z.of_nat n) by lia.
  cbn [foldl omap list_omap].
  assert (∀ k, Z.succ a < k → (removeRows_step (ul, m) a).2 !! JNum k = m0 !! JNum k) as Hm'.
  { intros k Hk. rewrite removeRows_step_above by lia. apply Hm. lia. }
  assert ((removeRows_step (ul, m) a).1
          = ul ++ from_option (λ x, [x]) [] (m0 !! JNum (a + 1))) as Hul.
  { cbn. rewrite Hm by lia. destruct (m0 !! JNum (a + 1)); [done|]. by rewrite app_nil_r. }
  destruct (removeRows_step (ul, m) a) as [ul' m'] eqn:Hstep. cbn in Hul, Hm'.
  destruct (IH (Z.succ a) ul' m' Hm') as [H1 H2]. split.
  - rewrite H1, Hul, <- app_assoc. f_equal. by destruct (m0 !! JNum (a + 1)).
  - intros k Hk1 Hk2. destruct (decide (k = a + 1)) as [->|Hne].
    + destruct n as [|n]; [|lia]. change (Z.of_nat 0) with 0. rewrite seqZ_nil by lia. cbn.
      pose proof (removeRows_step_above (ul, m) a (a + 1) ltac:(lia)) as Hs.
      rewrite Hstep in Hs. cbn in Hs. rewrite Hs. apply Hm. lia.
    + apply H2; lia.
Qed.

(** The markers released are those recorded for the lines of the range. *)
Lemma removeRows_loop_released f t (m : gmap JsNumber Z) :
  (removeRows_loop (JNum f) (JNum t) m).1
  = omap (λ i, m !! JNum (i + 1)) (seqZ f (t - f)).
Proof.
  rewrite removeRows_loop_fold. destruct (Z.le_gt_cases (t - f) 0) as [Hle|Hgt].
  { by rewrite seqZ_nil. }
  replace (t - f) with (Z.of_nat (Z.to_nat (t - f))) by lia.
  by destruct (removeRows_fold_spec (Z.to_nat (t - f)) f [] m m) as [-> _].
Qed.

(** The record of the last line of the range survives the loop. *)
Lemma removeRows_loop_keeps_last f t (m : gmap JsNumber Z) :
  f < t → (removeRows_loop (JNum f) (JNum t) m).2 !! JNum t = m !! JNum t.
Proof.
  intros Hft. rewrite removeRows_loop_fold.
  replace (t - f) with (Z.of_nat (Z.to_nat (t - f))) by lia.
  destruct (removeRows_fold_spec (Z.to_nat (t - f)) f [] m m) as [_ H]; [done|].
  apply H; lia.
Qed.
(** ** The calls of the editor when it rejects nothing *)

Lemma add_calls_calls tv cs : calls (add_calls tv cs) = calls tv ++ cs.
Proof.
  unfold add_calls. revert tv. induction cs as [|c cs IH]; intros tv; cbn.
  - by rewrite app_nil_r.
  - rewrite IH. cbn. by rewrite <- app_assoc.
Qed.

Lemma add_calls_app tv cs cs' : add_calls (add_calls tv cs) cs' = add_calls tv (cs ++ cs').
Proof. unfold add_calls. by rewrite foldl_app. Qed.

Lemma add_calls_fields tv cs :
  firstUpdate (add_calls tv cs) = firstUpdate tv ∧
  eventQueue (add_calls tv cs) = eventQueue tv ∧
  highlightPlaceId (add_calls tv cs) = highlightPlaceId tv ∧
  lineToSignId (add_calls tv cs) = lineToSignId tv ∧
  rootNode (add_calls tv cs) = rootNode tv ∧
  world (add_calls tv cs) = world tv.
Proof.
  unfold add_calls. revert tv. induction cs as [|c cs IH]; intros tv; cbn; [done|].
  destruct (IH (add_call tv c)) as (-> & -> & -> & -> & -> & ->). done.
Qed.

Lemma sequence_accepted {A B} (f : A → V B) (g : A → B) (h : A → list NvimCall) ws tv :
  (∀ a tv, f a tv = (Ok (g a), add_calls tv (h a))) →
  sequence f ws tv = (Ok (g <$> ws), add_calls tv (ws ≫= h)).
Proof.
  intros Hf. revert tv. induction ws as [|a ws IH]; intros tv; [done|].
  cbn [sequence]. unfold bindV at 1. rewrite Hf.
  fold (sequence f). unfold bindV at 1. rewrite IH. cbn. by rewrite add_calls_app.
Qed.

Section NothingRejected.
Variable nv : Nvim.
Hypothesis accepts : ∀ c, rejects nv c = false.

Lemma call_accepted c tv : call nv c tv = (Ok tt, add_calls tv [c]).
Proof. unfold call. by rewrite accepts. Qed.

Lemma callAll_accepted cs tv : callAll nv cs tv = (Ok tt, add_calls tv cs).
Proof.
  unfold callAll, add_calls.
  replace (forallb (λ c, negb (rejects nv c)) cs) with true.
  - f_equal. revert tv. induction cs as [|c cs IH]; intros tv; cbn; [done|].
    by rewrite accepts, IH.
  - symmetry. apply forallb_forall. intros c _. by rewrite accepts.
Qed.

Lemma navigation_step offset (w : Window) tv :
  (let needRedraw := bool_decide (win_id w ∈ tabpage_windows nv) in
   if needRedraw then
     bindV (call nv (WinGotoId (win_id w)))
           (λ _, call nv (JumpTo2 1 (js_add offset (JNum 1))))
   else retV tt) tv
  = (Ok tt,
     add_calls tv (if bool_decide (win_id w ∈ tabpage_windows nv)
                   then [WinGotoId (win_id w); JumpTo2 1 (js_add offset (JNum 1))] else [])).
Proof.
  cbv zeta. case_bool_decide; [|done].
  unfold bindV. by rewrite !call_accepted, add_calls_app.
Qed.

Lemma applyAt_navigation ev offset tv :
  ev_focusEvent ev = true →
  applyAt nv ev offset tv
  = (Ok tt, add_calls tv (navigationCalls nv (js_add offset (JNum 1)))).
Proof.
  intros Hfocus. unfold applyAt. rewrite Hfocus. cbv zeta. unfold bindV at 1.
  rewrite (sequence_accepted _ (λ _, tt) _ _ _ (navigation_step offset)). done.
Qed.
End NothingRejected.

Lemma applyUpdate_anchor_found nv e ev tv k :
  (findNodeOffset e (ev_root ev) (rootNode tv) (world tv)).1.1 = Ok (Some k) →
  let f := findNodeOffset e (ev_root ev) (rootNode tv) (world tv) in
  applyUpdate nv e ev tv = applyAt nv ev (JNum (k - 1)) (set_model tv f.1.2 f.2).
Proof.
  intros Hf f. subst f. unfold applyUpdate, bindV.
  destruct (findNodeOffset e (ev_root ev) (rootNode tv) (world tv)) as [[r root'] w'].
  cbn in Hf. by subst r.
Qed.

Lemma root_update_without_rows_rejects nv e u tv :
  nodeUri (underlying (ev_root u)) = None → (length (ev_payload u) < 2)%nat →
  eventQueue tv = Ok tt →
  handleModelUpdates nv e u tv = set_eventQueue tv (Throw TypeError).
Proof.
  intros Hroot Hlen Hq. unfold handleModelUpdates, rewriteRoot. rewrite Hq.
  rewrite bool_decide_eq_true_2 by done.
  rewrite (proj2 (lookup_ge_None (ev_payload u) 1)) by lia.
  unfold applyUpdate, bindV. cbn. by destruct tv.
Qed.

Lemma placeSign_fold offset (l : list (nat * NodeView)) tv issued :
  ∃ tv', 
  foldl (λ st '(idx, node), placeSign offset st node idx) (tv, issued) l
  = (tv', issued ++ imap (λ j '(idx, schema),
                    SignPlace (highlightPlaceId tv + Z.of_nat j) schema
                              (js_add (js_add offset (JNum (Z.of_nat idx))) (JNum 1)))
                 (omap (λ '(idx, node),
                          pair idx <$> highlightSchemaOf (icon (underlying node))) l)) ∧
  highlightPlaceId tv' = highlightPlaceId tv + Z.of_nat (length
    (omap (λ '(idx, node), pair idx <$> highlightSchemaOf (icon (underlying node))) l)) ∧
  (∀ j idx schema,
     omap (λ '(idx, node), pair idx <$> highlightSchemaOf (icon (underlying node))) l !! j
       = Some (idx, schema) →
     NoDup ((λ idx, js_add (js_add offset (JNum (Z.of_nat idx))) (JNum 1)) <$>
            (omap (λ '(idx, node),
                     pair idx <$> highlightSchemaOf (icon (underlying node))) l).*1) →
     lineToSignId tv' !! js_add (js_add offset (JNum (Z.of_nat idx))) (JNum 1)
       = Some (highlightPlaceId tv + Z.of_nat j)) ∧
  (∀ key,
     key ∉ (λ idx, js_add (js_add offset (JNum (Z.of_nat idx))) (JNum 1)) <$>
            (omap (λ '(idx, node),
                     pair idx <$> highlightSchemaOf (icon (underlying node))) l).*1 →
     lineToSignId tv' !! key = lineToSignId tv !! key) ∧
  calls tv' = calls tv.
Proof.
  revert tv issued. induction l as [|[idx0 node] l IH]; intros tv issued.
  { exists tv. cbn. rewrite app_nil_r, Z.add_0_r. done. }
  cbn [foldl]. unfold placeSign at 2.
  destruct (highlightSchemaOf (icon (underlying node))) as [s0|] eqn:Hs.
  2:{ destruct (IH tv issued) as (tv' & Hf & Hp & Hl & Ho & Hc). exists tv'.
      cbn [omap list_omap]. rewrite Hs. cbn [fmap option_fmap option_map].
      cbv beta iota. by split_and!. }
  set (tv1 := set_lineToSignId _ _).
  destruct (IH tv1 (issued ++ [SignPlace (highlightPlaceId tv) s0
              (js_add (js_add offset (JNum (Z.of_nat idx0))) (JNum 1))]))
    as (tv' & Hf & Hp & Hl & Ho & Hc).
  exists tv'. cbn [omap list_omap]. rewrite Hs. cbn [fmap option_fmap option_map].
  cbv beta iota. split_and!; [| | | |by rewrite Hc].
  - rewrite Hf, <- app_assoc. cbn. rewrite Z.add_0_r. do 3 f_equal.
    apply imap_ext. intros j [idx s] _. subst tv1. cbn. f_equal. lia.
  - rewrite Hp. subst tv1. cbn. lia.
  - intros j idx s Hj Hnd. cbn in Hnd. apply NoDup_cons in Hnd as [Hnot Hnd].
    destruct j as [|j]; cbn in Hj.
    + injection Hj as <- <-. rewrite Ho by done. subst tv1. cbn.
      rewrite lookup_insert_eq. f_equal. lia.
    + rewrite (Hl j idx s Hj Hnd). subst tv1. cbn. f_equal. lia.
  - intros key Hkey. cbn in Hkey. apply not_elem_of_cons in Hkey as [Hne Hkey].
    rewrite Ho by done. subst tv1. cbn. by rewrite lookup_insert_ne.
Qed.


Lemma removeRows_accepted nv f t tv :
  (∀ c, rejects nv c = false) →
  ∃ unplaced m,
    removeRows nv (JNum f) (JNum t) tv
    = (Ok tt, add_calls (set_lineToSignId tv m)
                ((SignUnplace <$> unplaced) ++ [BufferRemove (JNum f) (JNum t)])).
Proof.
  intros Hacc. unfold removeRows.
  destruct (removeRows_loop (JNum f) (JNum t) (lineToSignId tv)) as [unplaceList m].
  exists unplaceList, m. unfold bindV.
  by rewrite callAll_accepted, call_accepted, add_calls_app by done.
Qed.

Lemma insertRows_accepted nv offset nodes lines tv :
  (∀ c, rejects nv c = false) →
  makeRows nodes = Ok lines →
  ∃ placed tv',
    insertRows nv offset nodes tv = (Ok tt, tv') ∧
    calls tv' = calls tv ++ BufferInsert lines offset :: placed.
Proof.
  intros Hacc Hrows. unfold insertRows. rewrite Hrows. unfold bindV.
  rewrite call_accepted by done.
  destruct (placeSign_fold offset (imap pair nodes)
              (add_calls tv [BufferInsert lines offset]) [])
    as (tv1 & -> & _ & _ & _ & Hc).
  rewrite callAll_accepted by done. eexists _, _. split; [done|].
  by rewrite add_calls_calls, Hc, add_calls_calls, <- app_assoc.
Qed.

(** A content update applied at the row [o]: the buffer is made writable,
    the markers of the replaced rows are released, the rows are removed and
    the new ones inserted, in this order. *)
Lemma applyAt_content nv ev o lines tv :
  (∀ c, rejects nv c = false) →
  ev_focusEvent ev = false →
  makeRows (ev_payload ev) = Ok lines →
  ∃ unplaced rest tv',
    applyAt nv ev (JNum o) tv = (Ok tt, tv') ∧
    calls tv' = calls tv ++
      [BufferSetOption "readonly" false; BufferSetOption "modifiable" true] ++
      (SignUnplace <$> unplaced) ++
      [BufferRemove (JNum o) (JNum (o + ev_length ev)); BufferInsert lines (JNum o)] ++ rest.
Proof.
  intros Hacc Hfocus Hrows. unfold applyAt. rewrite Hfocus. cbv zeta.
  unfold modifyBuffer, finallyV. unfold bindV at 1. rewrite call_accepted by done.
  unfold bindV at 1. rewrite call_accepted, add_calls_app by done. cbn [app].
  set (tv0 := add_calls tv _).
  unfold bindV at 1.
  rewrite (sequence_accepted _
             (λ window, if isVim nv && bool_decide (win_id window ∈ tabpage_windows nv)
                        then mkWindowWithOffsets window (win_line window) (Some (win_w0 window))
                        else mkWindowWithOffsets window (win_cursor window).1 None)
             (λ _, [])) by (intros a tv1; by destruct (_ && _)).
  set (offsets := _ <$> _). set (tv1 := add_calls tv0 _).
  unfold bindV at 1. cbn [js_add].
  destruct (removeRows_accepted nv o (o + ev_length ev) tv1 Hacc) as (unplaced & m & ->).
  set (tv2 := add_calls _ _).
  unfold bindV at 1.
  destruct (insertRows_accepted nv (JNum o) (ev_payload ev) lines tv2 Hacc Hrows)
    as (placed & tv3 & -> & Hc3).
  unfold bindV at 1.
  rewrite (sequence_accepted _ (λ _, tt)
             (λ o', [match topLine o' with
                     | Some top => WinExecuteJumpTo2 (win_id (wo_window o')) top (curLine o')
                     | None => WindowSetCursor (win_id (wo_window o')) (curLine o')
                     end]))
    by (intros a tvx; destruct (topLine a); by rewrite call_accepted).
  set (tv4 := add_calls tv3 _).
  assert (∃ tv5 last, (if firstUpdate tv4
            then call nv (BufferRemove (JNum (Z.of_nat (length (ev_payload ev))))
                            (JNum (Z.of_nat (length (ev_payload ev)) + 1)))
                   (set_firstUpdate tv4 false)
            else retV tt tv4) = (Ok tt, tv5) ∧ calls tv5 = calls tv4 ++ last)
    as (tv5 & last & -> & Hc5).
  { destruct (firstUpdate tv4).
    - rewrite call_accepted by done. eexists _, _. split; [done|].
      by rewrite add_calls_calls.
    - exists tv4, []. by rewrite app_nil_r. }
  unfold bindV. rewrite !call_accepted, add_calls_app by done.
  repeat match goal with x := _ |- _ => subst x end.
  eexists unplaced, _, _. split; [done|].
  rewrite add_calls_calls, Hc5, add_calls_calls, Hc3, add_calls_calls.
  cbn [calls set_lineToSignId]. rewrite !add_calls_calls.
  assert (∀ ws : list Window, ws ≫= (λ _ : Window, @nil NvimCall) = []) as ->.
  { intros ws. induction ws; [done|]. by cbn. }
  rewrite app_nil_r, <- !app_assoc. cbn [app]. reflexivity.
Qed.

(** * The claims *)

(** ** Node *)

(** C7. [height()] returns 1 for a collapsed node and, for an expanded one,
    1 plus the sum of the heights of the children that [getChildren]
    resolves.  Nothing is cached: the node has no field for it, and a call
    made after the expansion flag has been cleared returns 1 whatever an
    earlier call returned. *)
Theorem height_one_plus_children e n w wc :
  (height e n w).1.1
  = (if isExpanded n
     then 1 + sumZ ((λ c, (height e c wc).1.1) <$> (getChildren e n w).1.1)
     else 1) ∧
  (height e (set_expanded (height e n w).1.2 false) wc).1.1 = 1.
Proof.
  split; [|by rewrite height_value, hgt_unfold].
  rewrite height_value. destruct (isExpanded n) eqn:Hex; [|by rewrite hgt_unfold, Hex].
  destruct (Spec_getChildren e n w) as ((_ & Hcs) & _).
  rewrite (hgt_after_getChildren e n _ Hex Hcs). do 2 f_equal.
  apply list_fmap_ext. intros i c _. by rewrite height_value.
Qed.

(** C8, as the code has it.  On a retired node [expand()] and [collapse()]
    return [false] and change nothing: no event, no notification, and the
    node, its [expanded] flag and its children cache included, is left as it
    was. *)
Theorem retired_expand_collapse_noop e n w :
  defunct n = true →
  expand e n w = ((false, n), w) ∧ collapse e n w = ((false, n), w).
Proof.
  intros Hd. unfold expand, expand_start, collapse, bind. by rewrite Hd.
Qed.

Lemma retired_expand_collapse_noop_witness :
  expand Sample.env Sample.retired Sample.world0
    = ((false, Sample.retired), Sample.world0) ∧
  collapse Sample.env Sample.retired Sample.world0
    = ((false, Sample.retired), Sample.world0).
Proof. apply retired_expand_collapse_noop. reflexivity. Defined.

(** Against C8 as stated: the child [a] is what the refresh of the root
    retires; [getChildren] does not look at the retired flag, so [a], which
    had no cache, resolves one. *)
Lemma retired_getChildren_loads_example :
  children (retireChildren Sample.env Sample.shown.1.2 Sample.shown.2).1
    ≫= (λ cs : list Node, cs !! 0%nat) = Some Sample.retired ∧
  defunct Sample.retired = true ∧ children Sample.retired = None ∧
  length <$> children (getChildren Sample.env Sample.retired Sample.world0).1.2
  = Some 2%nat.
Proof. by vm_compute. Qed.

(** C4, as the code has it.  [expand()] does not look at the expansion
    flag: on every node that is not retired, expanded already or not, a call
    that nothing interleaves with returns [true] and fires exactly one
    update, which replaces one row by the rows now visible below the node. *)
Theorem expand_fires_once_per_call e n w :
  defunct n = false →
  let r := expand e n w in
  r.1.1 = true ∧
  fired r.2 = fired w ++
    [mkUpdate (makeView r.1.2) 1 (collectVisibleNodes e r.1.2 r.2).1.1 false].
Proof.
  intros Hd r. destruct (expand_effect e n w Hd) as (Hb & Hk & _ & Hf & _).
  fold r in Hb, Hk, Hf. split; [done|]. rewrite Hf.
  destruct (Spec_collectVisibleNodes e r.1.2 r.2) as ((-> & _) & _).
  rewrite (kept_makeView e _ _ Hk). by destruct Hk as (_ & _ & _ & ->).
Qed.

Lemma expand_fires_once_per_call_witness :
  let r := expand Sample.env Sample.shown.1.2 Sample.shown.2 in
  r.1.1 = true ∧
  fired r.2 = fired Sample.shown.2 ++
    [mkUpdate (makeView r.1.2) 1 (collectVisibleNodes Sample.env r.1.2 r.2).1.1 false].
Proof. apply expand_fires_once_per_call. reflexivity. Defined.

(** Against C4 as stated: the root is expanded and not retired; a second
    [expand()] fires the update of the first one again. *)
Lemma expand_twice_fires_twice_example :
  isExpanded Sample.shown.1.2 = true ∧ defunct Sample.shown.1.2 = false ∧
  fired Sample.shown.2 = [Sample.firstUpdateEvent] ∧
  fired (expand Sample.env Sample.shown.1.2 Sample.shown.2).2
  = [Sample.firstUpdateEvent; Sample.firstUpdateEvent].
Proof. by vm_compute. Qed.

(** C6, as the code has it.  [collapse()] on a node that is not retired
    fires one update whose [length] is the height the subtree had before
    the flag was cleared and whose payload is the single row of the node;
    the rows it deletes minus the rows it inserts are the change of the
    subtree height.  The same balance holds for [expand()] on a node that
    was collapsed. *)
Theorem collapse_and_expand_row_balance e n w :
  defunct n = false →
  let before := (height e n w).1.1 in
  (let r := collapse e n w in
   r.1.1 = true ∧ isExpanded r.1.2 = false ∧
   fired r.2 = fired w ++ [mkUpdate (makeView r.1.2) before [makeView r.1.2] false] ∧
   before - 1 = before - (height e r.1.2 r.2).1.1) ∧
  (isExpanded n = false →
   let r := expand e n w in
   ∃ u, fired r.2 = fired w ++ [u] ∧
        ev_length u - Z.of_nat (length (ev_payload u))
        = before - (height e r.1.2 r.2).1.1).
Proof.
  intros Hd before. subst before. rewrite height_value. split.
  - intros r. destruct (collapse_effect e n w Hd) as (Hb & Hx & _ & Hf & _).
    fold r in Hb, Hx, Hf. split; [done|]. split; [done|]. split; [done|].
    by rewrite height_value, (hgt_unfold e r.1.2), Hx.
  - intros Hex r. destruct (expand_effect e n w Hd) as (_ & Hk & _ & Hf & _).
    fold r in Hk, Hf. eexists. split; [exact Hf|]. cbn [ev_length ev_payload].
    rewrite height_value, (kept_hgt e _ _ Hk). rewrite (hgt_unfold e n), Hex. done.
Qed.

Lemma collapse_and_expand_row_balance_witness :
  let before := (height Sample.env Sample.fresh.1 Sample.fresh.2).1.1 in
  (let r := collapse Sample.env Sample.fresh.1 Sample.fresh.2 in
   r.1.1 = true ∧ isExpanded r.1.2 = false ∧
   fired r.2 = fired Sample.fresh.2 ++
     [mkUpdate (makeView r.1.2) before [makeView r.1.2] false] ∧
   before - 1 = before - (height Sample.env r.1.2 r.2).1.1) ∧
  (isExpanded Sample.fresh.1 = false →
   let r := expand Sample.env Sample.fresh.1 Sample.fresh.2 in
   ∃ u, fired r.2 = fired Sample.fresh.2 ++ [u] ∧
        ev_length u - Z.of_nat (length (ev_payload u))
        = before - (height Sample.env r.1.2 r.2).1.1).
Proof. apply collapse_and_expand_row_balance. reflexivity. Defined.

(** Against C6 as stated: [expand()] on the expanded root replaces one row
    by three, while the height of the subtree is three before and after. *)
Lemma expand_on_expanded_breaks_balance_example :
  let n := Sample.shown.1.2 in
  let r := expand Sample.env n Sample.shown.2 in
  defunct n = false ∧
  (∃ u, fired r.2 = fired Sample.shown.2 ++ [u] ∧
        ev_length u - Z.of_nat (length (ev_payload u)) = -2) ∧
  (height Sample.env n Sample.shown.2).1.1 - (height Sample.env r.1.2 r.2).1.1 = 0.
Proof. cbv zeta. split; [done|]. split; [|by vm_compute]. eexists. by vm_compute. Qed.

(** ** TreeModel *)

(** C5, as the code has it.  The offset that [findNodeOffset] returns for a
    visible row leads [findNodeWithOffset] to a node of the same identity;
    [findNodeOffset] returns [undefined] for an identity that no visible
    row has; and [findNodeWithOffset] returns [undefined] for an offset
    beyond the height of the tree when the root is expanded. *)
Theorem offset_roundtrip e rootNode w :
  (∀ v, v ∈ (collectVisibleNodes e rootNode w).1.1 →
     let f := findNodeOffset e (Some v) rootNode w in
     ∃ k, f.1.1 = Ok (Some k) ∧
       ∃ fuel0, ∀ fuel, (fuel0 ≤ fuel)%nat →
         ∃ m, (findNodeWithOffset fuel e f.1.2 k f.2).1.1 = Done (Some m) ∧
              nodeUri (viewNode m) = nodeUri (underlying v)) ∧
  (isExpanded rootNode = true →
     ∀ offset fuel, (height e rootNode w).1.1 < offset →
       (findNodeWithOffset (S fuel) e rootNode offset w).1.1 = Done None) ∧
  (∀ v, (∀ v', v' ∈ (collectVisibleNodes e rootNode w).1.1 →
           nodeUri (underlying v') ≠ nodeUri (underlying v)) →
     (findNodeOffset e (Some v) rootNode w).1.1 = Ok None).
Proof.
  destruct (Spec_collectVisibleNodes e rootNode w) as ((Hrows & _) & _).
  rewrite Hrows. split; [|split].
  - intros v Hv f. subst f. unfold findNodeOffset, bind.
    set (target := nodeUri (underlying v)).
    destruct (Spec_findNodeOffsetInternal e target (0, false) rootNode w) as ((Hr & Hk) & _).
    destruct (findNodeOffsetInternal e target (0, false) rootNode w) as [[[k found] root1] w1].
    cbn in Hr, Hk. cbn [fst snd ret].
    destruct (scan_first target 0 (uris e rootNode)) as (i & Hs & Hi).
    { unfold uris. apply list_elem_of_fmap. by exists v. }
    rewrite Hs in Hr. injection Hr as -> ->. exists (0 + Z.of_nat i). split; [done|].
    exists (length (rows e rootNode)). intros fuel Hfuel.
    pose proof (lookup_lt_Some _ _ _ Hi) as Hlt. unfold uris in Hlt. rewrite length_fmap in Hlt.
    destruct (findNodeWithOffsetInternal_found e fuel root1 (0 + Z.of_nat i) w1)
      as (m & n' & w' & Hf & _ & Hl).
    { destruct Hk as (_ & _ & _ & ->). done. }
    { rewrite (kept_hgt e _ _ Hk). unfold hgt. lia. }
    unfold findNodeWithOffset. rewrite Hf. exists m. split; [done|].
    destruct Hk as (_ & _ & _ & Hk). rewrite Hk in Hl.
    replace (Z.to_nat (0 + Z.of_nat i)) with i in Hl by lia.
    unfold uris in Hi. rewrite list_lookup_fmap, Hl in Hi. cbn in Hi. congruence.
  - intros Hex offset fuel Hoff. rewrite height_value in Hoff.
    apply findNodeWithOffsetInternal_beyond; [done | lia].
  - intros v Hv. unfold findNodeOffset, bind.
    set (target := nodeUri (underlying v)).
    destruct (Spec_findNodeOffsetInternal e target (0, false) rootNode w) as ((Hr & _) & _).
    destruct (findNodeOffsetInternal e target (0, false) rootNode w) as [[[k found] root1] w1].
    cbn in Hr. cbn [fst snd ret]. rewrite scan_absent in Hr.
    + by injection Hr as -> ->.
    + unfold uris. intros Hin. apply list_elem_of_fmap in Hin as (v' & Hv' & Hin).
      by apply (Hv v' Hin).
Qed.

Lemma offset_roundtrip_witness :
  let f := findNodeOffset Sample.env (Some (mkNodeView (Sample.descr "b" None) 1 true false))
                          Sample.shown.1.2 Sample.shown.2 in
  ∃ k, f.1.1 = Ok (Some k) ∧
    ∃ fuel0, ∀ fuel, (fuel0 ≤ fuel)%nat →
      ∃ m, (findNodeWithOffset fuel Sample.env f.1.2 k f.2).1.1 = Done (Some m) ∧
           nodeUri (viewNode m) = Some "b".
Proof.
  apply (proj1 (offset_roundtrip Sample.env Sample.shown.1.2 Sample.shown.2)).
  vm_compute. do 2 right. left.
Defined.

(** Against C5 as stated: on a new model the root is collapsed and has
    height 1, yet offset 2 finds the child [b]. *)
Lemma collapsed_root_offset_beyond_height_example :
  (height Sample.env Sample.fresh.1 Sample.fresh.2).1.1 = 1 ∧
  match (findNodeWithOffset 2 Sample.env Sample.fresh.1 2 Sample.fresh.2).1.1 with
  | Done (Some m) => nodeUri (viewNode m) = Some "b"
  | _ => False
  end.
Proof. by vm_compute. Qed.

(** ** TreeView *)

(** The value tested by the guard of [applyUpdate] is the result of a
    subtraction: a number, possibly [NaN], never [undefined]. *)
Lemma offset_is_never_undefined (r : option Z) :
  isUndefined (Some (js_sub (toNumber r) (JNum 1))) = false.
Proof. done. Qed.

(** So an update whose anchor is not found is applied, at row [NaN]. *)
Lemma applyUpdate_anchor_not_found nv e ev tv :
  (findNodeOffset e (ev_root ev) (rootNode tv) (world tv)).1.1 = Ok None →
  let f := findNodeOffset e (ev_root ev) (rootNode tv) (world tv) in
  applyUpdate nv e ev tv = applyAt nv ev JNaN (set_model tv f.1.2 f.2).
Proof.
  intros Hf f. subst f. unfold applyUpdate, bindV.
  destruct (findNodeOffset e (ev_root ev) (rootNode tv) (world tv)) as [[r root'] w'].
  cbn in Hf. by subst r.
Qed.

(** C2, on the code.  The anchors of two updates are not displayed, so
    [findNodeOffset] returns [undefined] for them.  [1] is subtracted before
    the result is compared with [undefined], the guard does not fire, and
    the updates are applied at row [NaN]: the navigation update moves to the
    window and jumps; the content update removes and inserts rows, places a
    marker and records it under the key [NaN]. *)
Theorem anchor_gone_update_is_applied :
  (findNodeOffset Sample.env (Some (ev_root Sample.goneAnchor))
     (rootNode Sample.view1) (world Sample.view1)).1.1 = Ok None ∧
  eventQueue Sample.view1 = Ok tt ∧
  calls (handleModelUpdates Sample.nvim Sample.env Sample.goneAnchor Sample.view1)
  = calls Sample.view1 ++ [WinGotoId 7; JumpTo2 1 JNaN] ∧
  (let tv := handleModelUpdates Sample.nvim Sample.env Sample.goneAnchorRows Sample.view1 in
   calls tv
   = calls Sample.view1 ++
     [BufferSetOption "readonly" false; BufferSetOption "modifiable" true;
      BufferRemove JNaN JNaN; BufferInsert ["  ▸ zz"] JNaN;
      SignPlace 1 "TvpClass" JNaN; WindowSetCursor 7 3;
      BufferSetOption "modifiable" false; BufferSetOption "readonly" true] ∧
   lineToSignId Sample.view1 !! JNaN = None ∧
   lineToSignId tv !! JNaN = Some 1).
Proof. by vm_compute. Qed.

(** C3, as the code has it.  The callback of an update runs when the queue
    is fulfilled, and the queue then settles as the callback does; no
    rejection handler is attached, so once the queue is rejected none of
    the updates handled afterwards is applied: the view stays as it is. *)
Theorem rejected_queue_skips_later_updates nv e tv :
  (eventQueue tv = Ok tt →
   ∀ ev0, handleModelUpdates nv e ev0 tv
          = set_eventQueue (applyUpdate nv e (rewriteRoot ev0) tv).2
                           (applyUpdate nv e (rewriteRoot ev0) tv).1) ∧
  (∀ err, eventQueue tv = Throw err → ∀ evs, handleAll nv e evs tv = tv).
Proof.
  split.
  - intros Hq ev0. unfold handleModelUpdates. rewrite Hq. by destruct (applyUpdate _ _ _ _).
  - intros err Hq evs. induction evs as [|ev0 evs IH]; [done|].
    cbn. unfold handleModelUpdates at 2. rewrite Hq. exact IH.
Qed.

Lemma rejected_queue_skips_later_updates_witness :
  handleAll Sample.nvim Sample.env [Sample.expandA; Sample.goneAnchor]
    (handleModelUpdates Sample.nvim Sample.env Sample.rootNavigation Sample.view1)
  = handleModelUpdates Sample.nvim Sample.env Sample.rootNavigation Sample.view1.
Proof.
  apply (proj2 (rejected_queue_skips_later_updates Sample.nvim Sample.env _) TypeError).
  reflexivity.
Defined.

(** Against C3 as stated: the root-anchored navigation update rejects, and
    the update of [a.expand()] handled after it is not applied, although it
    is applied when the queue is fulfilled. *)
Lemma rejected_update_blocks_later_ones_example :
  let failed := handleModelUpdates Sample.nvim Sample.env Sample.rootNavigation Sample.view1 in
  eventQueue Sample.view1 = Ok tt ∧
  eventQueue failed = Throw TypeError ∧
  handleModelUpdates Sample.nvim Sample.env Sample.expandA failed = failed ∧
  calls (handleModelUpdates Sample.nvim Sample.env Sample.expandA Sample.view1)
  ≠ calls Sample.view1.
Proof. by vm_compute. Qed.

(** C9, on the code.  The loop releases the markers recorded for the lines
    of the range ([removeRows_loop_released]), but it deletes the key [i]
    where it has read the key [i + 1], so the record of the last line always
    survives ([removeRows_loop_keeps_last]).  Here the markers 5 and 6 are
    recorded for the lines 1 and 2; removing the row of line 2 releases the
    marker 6 but leaves it recorded for line 2, and drops the record of
    marker 5, which belongs to the row of line 1 outside the range and has
    not been released. *)
Theorem removeRows_keeps_released_marker :
  let r := removeRows Sample.nvim (JNum 1) (JNum 2) Sample.decorated in
  lineToSignId Sample.decorated !! JNum 1 = Some 5 ∧
  lineToSignId Sample.decorated !! JNum 2 = Some 6 ∧
  r.1 = Ok tt ∧
  calls r.2 = calls Sample.decorated ++ [SignUnplace 6; BufferRemove (JNum 1) (JNum 2)] ∧
  lineToSignId r.2 !! JNum 2 = Some 6 ∧
  lineToSignId r.2 !! JNum 1 = None.
Proof. by vm_compute. Qed.

(** C10.  An update anchored at the root is rewritten to
    [{root: payload[1], length: length - 1, payload: payload.slice(1)}], and
    the rewritten update is what the callback works with: it starts with
    the offset lookup of the new anchor, whatever that is, and goes on from
    the outcome of the lookup.  With fewer than two rows in the payload the
    new anchor is [undefined]; nothing checks it before the lookup, the
    update enters the queue, and the lookup throws: the queue is rejected
    and the view is otherwise unchanged.  With two rows or more, the anchor
    displayed at offset [k] and an editor that rejects nothing, a navigation
    update jumps to the row of the second payload row, and a content update
    removes [length - 1] rows from row [k - 1] on and inserts there the
    lines of the payload without its first row. *)
Theorem root_anchor_rewritten_to_second_row nv e ev0 tv :
  nodeUri (underlying (ev_root ev0)) = None →
  let ev := mkUpdate (ev_payload ev0 !! 1%nat) (ev_length ev0 - 1) (drop 1 (ev_payload ev0))
                     (ev_focusEvent ev0) in
  let f := findNodeOffset e (ev_root ev) (rootNode tv) (world tv) in
  rewriteRoot ev0 = ev ∧
  (eventQueue tv = Ok tt →
   handleModelUpdates nv e ev0 tv
   = match f.1.1 with
     | Throw err => set_eventQueue (set_model tv f.1.2 f.2) (Throw err)
     | Ok r =>
         let a := applyAt nv ev (js_sub (toNumber r) (JNum 1)) (set_model tv f.1.2 f.2) in
         set_eventQueue a.2 a.1
     end) ∧
  ((length (ev_payload ev0) < 2)%nat →
   ev_root (rewriteRoot ev0) = None ∧
   findNodeOffset e (ev_root (rewriteRoot ev0)) (rootNode tv) (world tv)
   = ((Throw TypeError, rootNode tv), world tv) ∧
   applyUpdate nv e (rewriteRoot ev0) tv = (Throw TypeError, tv) ∧
   (eventQueue tv = Ok tt →
    handleModelUpdates nv e ev0 tv = set_eventQueue tv (Throw TypeError))) ∧
  (∀ k, eventQueue tv = Ok tt → (∀ c, rejects nv c = false) → f.1.1 = Ok (Some k) →
     let tv' := handleModelUpdates nv e ev0 tv in
     (ev_focusEvent ev0 = true →
      eventQueue tv' = Ok tt ∧
      calls tv' = calls tv ++ navigationCalls nv (JNum (k - 1 + 1))) ∧
     (ev_focusEvent ev0 = false →
      ∀ lines, makeRows (drop 1 (ev_payload ev0)) = Ok lines →
        eventQueue tv' = Ok tt ∧
        ∃ unplaced rest,
          calls tv' = calls tv ++
            [BufferSetOption "readonly" false; BufferSetOption "modifiable" true] ++
            (SignUnplace <$> unplaced) ++
            [BufferRemove (JNum (k - 1)) (JNum (k - 1 + (ev_length ev0 - 1)));
             BufferInsert lines (JNum (k - 1))] ++ rest)).
Proof.
  intros Hroot ev f.
  assert (rewriteRoot ev0 = ev) as Hrw.
  { unfold rewriteRoot. by rewrite bool_decide_eq_true_2. }
  assert (eventQueue tv = Ok tt →
          handleModelUpdates nv e ev0 tv
          = match f.1.1 with
            | Throw err => set_eventQueue (set_model tv f.1.2 f.2) (Throw err)
            | Ok r =>
                let a := applyAt nv ev (js_sub (toNumber r) (JNum 1))
                                 (set_model tv f.1.2 f.2) in
                set_eventQueue a.2 a.1
            end) as Hhandle.
  { intros Hq. unfold handleModelUpdates. rewrite Hq, Hrw. unfold applyUpdate, bindV.
    subst f. destruct (findNodeOffset e (ev_root ev) (rootNode tv) (world tv))
      as [[[r|err] root'] w']; cbn [fst snd]; [|done].
    rewrite offset_is_never_undefined. by destruct (applyAt _ _ _ _). }
  split; [exact Hrw|]. split; [exact Hhandle|]. split.
  - intros Hlen.
    assert (ev_payload ev0 !! 1%nat = None) as Hnone by (apply lookup_ge_None; lia).
    assert (applyUpdate nv e (rewriteRoot ev0) tv = (Throw TypeError, tv)) as Happly.
    { rewrite Hrw. unfold applyUpdate, bindV. cbn [ev_root ev]. rewrite Hnone. cbn.
      by destruct tv. }
    split; [by rewrite Hrw|]. split; [by rewrite Hrw; cbn [ev_root ev]; rewrite Hnone|].
    split; [exact Happly|].
    intros Hq. unfold handleModelUpdates. by rewrite Hq, Happly.
  - intros k Hq Hacc Hk tv'. subst tv'. rewrite (Hhandle Hq), Hk.
    cbn [toNumber js_sub]. split.
    + intros Hfocus. rewrite (applyAt_navigation nv Hacc ev) by done.
      cbn [fst snd js_add eventQueue set_eventQueue calls].
      split; [done|]. by rewrite add_calls_calls.
    + intros Hfocus lines Hrows.
      destruct (applyAt_content nv ev (k - 1) lines (set_model tv f.1.2 f.2) Hacc Hfocus Hrows)
        as (unplaced & rest & tv1 & -> & Hc).
      cbn [fst snd eventQueue set_eventQueue calls]. split; [done|].
      exists unplaced, rest. exact Hc.
Qed.

Lemma root_anchor_rewritten_to_second_row_witness :
  rewriteRoot Sample.rootNavigation = mkUpdate None 0 [] true ∧
  applyUpdate Sample.nvim Sample.env (rewriteRoot Sample.rootNavigation) Sample.view1
  = (Throw TypeError, Sample.view1) ∧
  handleModelUpdates Sample.nvim Sample.env Sample.rootNavigation Sample.view1
  = set_eventQueue Sample.view1 (Throw TypeError) ∧
  eventQueue Sample.view1 = Ok tt ∧
  ∃ unplaced rest,
    calls Sample.view1
    = [BufferSetOption "readonly" false; BufferSetOption "modifiable" true] ++
      (SignUnplace <$> unplaced) ++
      [BufferRemove (JNum 0) (JNum 0); BufferInsert ["▸ a"; "▸ b"]%string (JNum 0)] ++ rest.
Proof.
  destruct (root_anchor_rewritten_to_second_row Sample.nvim Sample.env
              Sample.rootNavigation Sample.view1 eq_refl) as (Hrw & _ & Hshort & _).
  destruct Hshort as (_ & _ & Happly & Hqueue); [cbn; lia|].
  destruct (root_anchor_rewritten_to_second_row Sample.nvim Sample.env
              Sample.firstUpdateEvent Sample.view0 eq_refl) as (_ & _ & _ & Hlong).
  destruct (Hlong 1) as [_ Hcontent]; [reflexivity | intros c; reflexivity | reflexivity|].
  destruct (Hcontent eq_refl ["▸ a"; "▸ b"]%string) as [Hq Hcalls]; [reflexivity|].
  split; [exact Hrw|]. split; [exact Happly|]. split; [apply Hqueue; reflexivity|].
  split; [exact Hq | exact Hcalls].
Defined.

(** * Further properties of the code *)

(** ** Node *)

Lemma isNew_viewNodes lvl vs cs : Forall2 (isNew lvl) vs cs → viewNode <$> cs = vs.
Proof. induction 1 as [|v c vs cs [t ->] _ IH]; [done|]. cbn. by rewrite IH. Qed.

Lemma isNew_shape lvl vs cs :
  Forall2 (isNew lvl) vs cs →
  Forall (λ c, level c = lvl ∧ expanded c = false ∧ children c = None ∧ defunct c = false) cs.
Proof. induction 1 as [|v c vs cs [t ->] _ IH]; by constructor. Qed.

(** X1.  [getChildren] on a node without cache builds one node per
    descriptor of the provider's answer, in its order: one level down,
    collapsed, without cache, not retired; it caches them and fires
    nothing. *)
Theorem getChildren_builds_children e n w :
  children n = None →
  let r := getChildren e n w in
  viewNode <$> r.1.1 = loadNodeChildren e (nodeUri (viewNode n)) ∧
  Forall (λ c, level c = level n + 1 ∧ expanded c = false ∧ children c = None ∧
               defunct c = false) r.1.1 ∧
  r.1.2 = set_children n (Some r.1.1) ∧
  fired r.2 = fired w ∧ notified r.2 = notified w.
Proof.
  intros Hn r. destruct (Spec_getChildren e n w) as ((Hn1 & Hcs) & Hf & Hno).
  fold r in Hn1, Hcs, Hf, Hno. rewrite Hn in Hcs.
  split; [by eapply isNew_viewNodes|]. split; [by eapply isNew_shape | done].
Qed.

Lemma getChildren_builds_children_witness :
  let r := getChildren Sample.env Sample.nodeA Sample.world0 in
  viewNode <$> r.1.1 = [Sample.descr "a1" None; Sample.descr "a2" None] ∧
  Forall (λ c, level c = 2 ∧ expanded c = false ∧ children c = None ∧
               defunct c = false) r.1.1 ∧
  r.1.2 = set_children Sample.nodeA (Some r.1.1) ∧
  fired r.2 = [] ∧ notified r.2 = [].
Proof. apply (getChildren_builds_children Sample.env Sample.nodeA Sample.world0). reflexivity. Defined.

(** X2.  The cache is stable: once [getChildren] has been called, every
    later call, whatever the provider would answer by then, returns the
    same children and leaves the node and the world as they are. *)
Theorem getChildren_memoised e e' n w w' :
  let r := getChildren e n w in
  getChildren e' r.1.2 w' = ((r.1.1, r.1.2), w').
Proof.
  intros r. destruct (Spec_getChildren e n w) as ((Hn1 & _) & _). fold r in Hn1.
  rewrite Hn1. reflexivity.
Qed.

(** X3.  The height of a node is the number of rows that
    [collectVisibleNodes] returns for it, and at least 1. *)
Theorem height_counts_visible_rows e n w w' :
  (height e n w).1.1 = Z.of_nat (length (collectVisibleNodes e n w').1.1) ∧
  1 ≤ (height e n w).1.1.
Proof.
  rewrite height_value. destruct (Spec_collectVisibleNodes e n w') as ((-> & _) & _).
  split; [done | apply hgt_pos].
Qed.

Lemma findNodeOffsetInternal_same_state e target acc n w :
  same_state n (findNodeOffsetInternal e target acc n w).1.2.
Proof.
  rewrite findNodeOffsetInternal_unfold. destruct (_ || _); [apply same_state_refl|].
  destruct (isExpanded n); [|apply same_state_refl]. unfold bind.
  destruct (Spec_getChildren e n w) as ((Hn1 & _) & _).
  destruct (getChildren e n w) as [[cs n1] w1]. cbn in Hn1. subst n1.
  unfold findNodeOffset_children, bind. by destruct (foldNodes _ _ _ _) as [[z cs'] w2].
Qed.

(** X4.  [height], [collectVisibleNodes] and [findNodeOffset] only fill
    caches: they fire no update, send no notification, keep the stamp and
    the retired flag of the node, and the rows visible below the node are
    the same after the call as before. *)
Theorem queries_keep_the_projection e n w w' v :
  let quiet (n' : Node) (w1 : World) :=
    fired w1 = fired w ∧ notified w1 = notified w ∧
    lastTouch n' = lastTouch n ∧ defunct n' = defunct n ∧
    (collectVisibleNodes e n' w').1.1 = (collectVisibleNodes e n w').1.1 in
  quiet (height e n w).1.2 (height e n w).2 ∧
  quiet (collectVisibleNodes e n w).1.2 (collectVisibleNodes e n w).2 ∧
  quiet (findNodeOffset e (Some v) n w).1.2 (findNodeOffset e (Some v) n w).2.
Proof.
  intros quiet. subst quiet. cbv beta.
  destruct (Spec_collectVisibleNodes e n w') as ((-> & _) & _).
  assert (∀ n', kept e n n' → (collectVisibleNodes e n' w').1.1 = rows e n) as Hrows.
  { intros n' (_ & _ & _ & <-). by destruct (Spec_collectVisibleNodes e n' w') as ((-> & _) & _). }
  split; [|split].
  - destruct (Spec_height e n w) as ((_ & Hk & Hlt & Hd) & Hf & Hn). split_and!; try done; by apply Hrows.
  - destruct (Spec_collectVisibleNodes e n w) as ((_ & Hk & Hlt & Hd) & Hf & Hn). split_and!; try done; by apply Hrows.
  - unfold findNodeOffset, bind.
    pose proof (findNodeOffsetInternal_same_state e (nodeUri (underlying v)) (0, false) n w)
      as [Hlt Hd].
    destruct (Spec_findNodeOffsetInternal e (nodeUri (underlying v)) (0, false) n w)
      as ((_ & Hk) & Hf & Hn).
    destruct (findNodeOffsetInternal e _ (0, false) n w) as [[[k found] n'] w1].
    cbn in *. split_and!; try done. by apply Hrows.
Qed.

Lemma shown_children_retired e cs cs' :
  Forall2 (λ c c', Forall (λ m, defunct m = true) (shownNodes c') ∧
                   makeView <$> shownNodes c' = rows e c) cs cs' →
  Forall (λ m, defunct m = true) (concat (shownNodes <$> cs')) ∧
  makeView <$> concat (shownNodes <$> cs') = concat (rows e <$> cs).
Proof.
  induction 1 as [|c c' cs cs' [Hd Hr] _ [IHd IHr]]; [by split|].
  rewrite !fmap_cons. cbn [concat]. split; [by apply Forall_app|].
  by rewrite fmap_app, Hr, IHr.
Qed.

Lemma Spec_markAsDefunct_shown e n :
  Spec (markAsDefunct e n) (λ n',
    Forall (λ m, defunct m = true) (shownNodes n') ∧
    makeView <$> shownNodes n' = rows e n).
Proof.
  induction n as [v l ex ch lt d IH] using Node_ind_children.
  cbn [markAsDefunct isExpanded expanded children]. destruct ex.
  - destruct ch as [cs|].
    + unfold markAsDefunct_children.
      eapply Spec_bind; [apply (Spec_mapM _ _ _ (IH cs eq_refl))|].
      intros cs' Hcs'. apply shown_children_retired in Hcs' as [Hd Hr].
      apply Spec_ret. cbn. split; [by constructor|]. by rewrite Hr.
    + eapply Spec_bind; [apply Spec_getChildren|]. intros [cs n1] [Hn1 Hnew]. cbn in Hn1, Hnew.
      unfold markAsDefunct_children.
      eapply Spec_bind;
        [apply (Spec_mapM _ (λ c c', Forall (λ m, defunct m = true) (shownNodes c') ∧
                                     makeView <$> shownNodes c' = rows e c))|].
      { eapply Forall_impl; [exact (isNew_Forall _ _ _ Hnew)|]. intros c [v' [t ->]].
        apply Spec_ret. cbn. split; [by repeat constructor | done]. }
      intros cs' Hcs'. apply shown_children_retired in Hcs' as [Hd Hr].
      apply Spec_ret. subst n1. cbn. split; [by constructor|].
      by rewrite Hr, (isNew_children_rows e _ _ _ Hnew).
  - apply Spec_ret. cbn. split; [by repeat constructor | done].
Qed.

(** X5.  [markAsDefunct] retires the node and every node behind a row that
    is visible below it, and nothing else changes: the rows stay the same,
    nothing is fired. *)
Theorem markAsDefunct_retires_visible_subtree e n w w' :
  let r := markAsDefunct e n w in
  Forall (λ m, defunct m = true) (shownNodes r.1) ∧
  makeView <$> shownNodes r.1 = (collectVisibleNodes e n w').1.1 ∧
  (collectVisibleNodes e r.1 w').1.1 = (collectVisibleNodes e n w').1.1 ∧
  fired r.2 = fired w ∧ notified r.2 = notified w.
Proof.
  intros r. destruct (Spec_markAsDefunct_shown e n w) as ((Hd & Hr) & Hf & Hn).
  destruct (Spec_markAsDefunct e n w) as ((_ & (_ & _ & _ & Hk) & _) & _).
  fold r in Hd, Hr, Hf, Hn, Hk.
  destruct (Spec_collectVisibleNodes e n w') as ((-> & _) & _).
  destruct (Spec_collectVisibleNodes e r.1 w') as ((-> & _) & _). done.
Qed.

Lemma collapse_node e n w :
  defunct n = false →
  ∃ n2, (collapse e n w).1.2 = set_expanded n2 false ∧ kept e n n2 ∧ defunct n2 = false.
Proof.
  intros Hd. unfold collapse. rewrite Hd. unfold bind.
  cbn [sendTreeNodeVisibilityNotification]. set (w0 := mkWorld _ _ _).
  destruct (Spec_touch e n w0) as ((Ht & Hk & Hd1) & _).
  destruct (touch e n w0) as [[curState n1] w1]. cbn in Ht, Hk, Hd1.
  destruct (Spec_height e n1 w1) as ((_ & Hk2 & Hlt2 & Hd2) & _).
  destruct (height e n1 w1) as [[h n2] w2]. cbn in Hk2, Hlt2, Hd2.
  exists n2. split; [by destruct (_ && _)|]. split; [by eapply kept_trans | congruence].
Qed.

Lemma set_expanded_back n : isExpanded n = true → set_expanded (set_expanded n false) true = n.
Proof. destruct n; cbn. by intros ->. Qed.

Lemma rows_collapsed e n : isExpanded n = false → rows e n = [makeView n].
Proof. destruct n; cbn. by intros ->. Qed.

(** X6.  Collapsing keeps the children cache: [collapse()] followed by
    [expand()] on an expanded node brings back the rows that were visible,
    and the second update inserts as many rows as the first one deleted. *)
Theorem collapse_then_expand_restores_rows e n w :
  defunct n = false → isExpanded n = true →
  let c := collapse e n w in
  let x := expand e c.1.2 c.2 in
  c.1.1 = true ∧ x.1.1 = true ∧
  (collectVisibleNodes e x.1.2 x.2).1.1 = (collectVisibleNodes e n w).1.1 ∧
  ∃ u1 u2, fired x.2 = fired w ++ [u1; u2] ∧
           length (ev_payload u1) = 1%nat ∧ ev_length u2 = 1 ∧
           ev_length u1 = Z.of_nat (length (ev_payload u2)).
Proof.
  intros Hd Hex c x.
  destruct (collapse_effect e n w Hd) as (Hc & _ & _ & Hfc & _).
  destruct (collapse_node e n w Hd) as (n2 & Hn2 & Hk2 & Hd2).
  fold c in Hc, Hfc, Hn2.
  assert (defunct c.1.2 = false) as Hdc by (rewrite Hn2; done).
  destruct (expand_effect e c.1.2 c.2 Hdc) as (Hx & Hkx & _ & Hfx & _).
  fold x in Hx, Hkx, Hfx.
  assert (rows e (set_expanded c.1.2 true) = rows e n) as Hrows.
  { rewrite Hn2, set_expanded_back; [by destruct Hk2 as (_ & _ & _ & ->)|].
    unfold isExpanded. by destruct Hk2 as (_ & _ & -> & _). }
  split; [done|]. split; [done|]. split.
  - destruct (Spec_collectVisibleNodes e x.1.2 x.2) as ((-> & _) & _).
    destruct (Spec_collectVisibleNodes e n w) as ((-> & _) & _).
    by destruct Hkx as (_ & _ & _ & ->).
  - eexists _, _. split; [by rewrite Hfx, Hfc, <- app_assoc|].
    cbn [ev_payload ev_length length]. by rewrite Hrows.
Qed.

Lemma collapse_then_expand_restores_rows_witness :
  let n := Sample.shown.1.2 in
  let w := Sample.shown.2 in
  let c := collapse Sample.env n w in
  let x := expand Sample.env c.1.2 c.2 in
  c.1.1 = true ∧ x.1.1 = true ∧
  (collectVisibleNodes Sample.env x.1.2 x.2).1.1 = (collectVisibleNodes Sample.env n w).1.1 ∧
  ∃ u1 u2, fired x.2 = fired w ++ [u1; u2] ∧
           length (ev_payload u1) = 1%nat ∧ ev_length u2 = 1 ∧
           ev_length u1 = Z.of_nat (length (ev_payload u2)).
Proof. apply collapse_then_expand_restores_rows; reflexivity. Defined.

(** X7.  [expand()] followed by [collapse()] on a collapsed node leaves the
    single row of the node, and the second update deletes as many rows as
    the first one inserted. *)
Theorem expand_then_collapse_balances e n w :
  defunct n = false → isExpanded n = false →
  let x := expand e n w in
  let c := collapse e x.1.2 x.2 in
  x.1.1 = true ∧ c.1.1 = true ∧
  (collectVisibleNodes e c.1.2 c.2).1.1 = [makeView n] ∧
  ∃ u1 u2, fired c.2 = fired w ++ [u1; u2] ∧
           ev_length u1 = 1 ∧ ev_payload u2 = [makeView n] ∧
           ev_length u2 = Z.of_nat (length (ev_payload u1)).
Proof.
  intros Hd Hex x c.
  destruct (expand_effect e n w Hd) as (Hx & Hkx & Hdx & Hfx & _).
  fold x in Hx, Hkx, Hdx, Hfx.
  destruct (collapse_effect e x.1.2 x.2 Hdx) as (Hc & Hxc & Hmv & Hfc & _).
  fold c in Hc, Hxc, Hmv, Hfc.
  assert (makeView c.1.2 = makeView n) as Hview.
  { rewrite Hmv. destruct Hkx as (Hv & Hl & _). cbn in Hv, Hl.
    unfold makeView, expandable, isExpanded in *. cbn. by rewrite Hv, Hl, Hex. }
  split; [done|]. split; [done|]. split.
  - destruct (Spec_collectVisibleNodes e c.1.2 c.2) as ((-> & _) & _).
    by rewrite rows_collapsed, Hview.
  - eexists _, _. split; [by rewrite Hfc, Hfx, <- app_assoc|].
    cbn [ev_payload ev_length]. split; [done|]. split; [by rewrite Hview|].
    by rewrite (kept_hgt e _ _ Hkx).
Qed.

Lemma expand_then_collapse_balances_witness :
  let n := Sample.nodeA in
  let w := Sample.world0 in
  let x := expand Sample.env n w in
  let c := collapse Sample.env x.1.2 x.2 in
  x.1.1 = true ∧ c.1.1 = true ∧
  (collectVisibleNodes Sample.env c.1.2 c.2).1.1 = [makeView n] ∧
  ∃ u1 u2, fired c.2 = fired w ++ [u1; u2] ∧
           ev_length u1 = 1 ∧ ev_payload u2 = [makeView n] ∧
           ev_length u2 = Z.of_nat (length (ev_payload u1)).
Proof. apply expand_then_collapse_balances; reflexivity. Defined.

(** X8.  [refreshSubtree] always fires exactly one update, on a retired or
    collapsed node as well: its [length] is the height before the refresh,
    its payload the rows visible afterwards.  The node keeps its level, its
    expansion flag, its stamp and its retired flag, takes the new
    descriptor when there is one, and no notification is sent. *)
Theorem refreshSubtree_fires_once e newViewNode n w :
  let r := refreshSubtree e newViewNode n w in
  fired r.2 = fired w ++
    [mkUpdate (makeView r.1) (height e n w).1.1 (collectVisibleNodes e r.1 r.2).1.1 false] ∧
  notified r.2 = notified w ∧
  viewNode r.1 = default (viewNode n) newViewNode ∧
  level r.1 = level n ∧ expanded r.1 = expanded n ∧
  lastTouch r.1 = lastTouch n ∧ defunct r.1 = defunct n.
Proof.
  intros r.
  destruct (refreshSubtree_effect e newViewNode n w) as ((Hl & Hx & Ht & Hd) & Hv & Hf & Hn).
  fold r in Hl, Hx, Ht, Hd, Hv, Hf, Hn. rewrite height_value.
  by destruct (Spec_collectVisibleNodes e r.1 r.2) as ((-> & _) & _).
Qed.

(** X9.  On a collapsed node [refreshSubtree] asks the provider nothing: it
    drops the children cache, takes the new descriptor and fires the update
    that replaces the row of the node by its new row. *)
Theorem refreshSubtree_collapsed e newViewNode n w :
  isExpanded n = false →
  let n' := match newViewNode with
            | Some v => set_viewNode (set_children n None) v
            | None => set_children n None
            end in
  refreshSubtree e newViewNode n w
  = (n', mkWorld (clockReads w) (fired w ++ [mkUpdate (makeView n') 1 [makeView n'] false])
                 (notified w)).
Proof.
  destruct n as [v l ex ch lt d]. cbn. intros ->. by destruct newViewNode.
Qed.

Lemma refreshSubtree_collapsed_witness :
  refreshSubtree Sample.env None Sample.nodeA Sample.world0
  = (Sample.nodeA,
     mkWorld 0 [mkUpdate (makeView Sample.nodeA) 1 [makeView Sample.nodeA] false] []).
Proof. apply (refreshSubtree_collapsed Sample.env None Sample.nodeA Sample.world0). reflexivity. Defined.

Lemma groupBy_get_None paths k :
  groupBy_get (filter (λ p, p ≠ []) paths) k = None ↔
  ¬ Exists (λ p : Path, head p = Some k) paths.
Proof.
  unfold groupBy_get. rewrite Exists_exists. split.
  - intros Hg (p & Hp & Hk).
    assert (p ∈ filter (λ p : Path, head p = Some k) (filter (λ p : Path, p ≠ []) paths)) as Hin.
    { apply list_elem_of_filter. split; [done|]. apply list_elem_of_filter.
      split; [by destruct p | done]. }
    destruct (filter _ (filter _ _)); [by apply elem_of_nil in Hin | done].
  - intros Hno. destruct (filter _ (filter _ _)) as [|p g] eqn:Hf; [done|]. exfalso.
    assert (p ∈ filter (λ p : Path, head p = Some k) (filter (λ p : Path, p ≠ []) paths)) as Hin
      by (rewrite Hf; left).
    apply list_elem_of_filter in Hin as [Hk Hin]. apply list_elem_of_filter in Hin as [_ Hin].
    apply Hno. eauto.
Qed.

(** X10.  The replay of the open paths on a node whose cache has been
    dropped: the children are built from the provider's answer, and a child
    is expanded exactly when some open path starts with its identity; the
    paths that match no child are ignored. *)
Theorem reloadSubtree_replays_open_paths e node openNodes w :
  openNodes ≠ [] → children node = None →
  let r := reloadSubtree e node openNodes w in
  ∃ cs, children r.1 = Some cs ∧
    viewNode <$> cs = loadNodeChildren e (nodeUri (viewNode node)) ∧
    Forall (λ c, level c = level node + 1 ∧ defunct c = false ∧
                 expanded c = bool_decide (Exists (λ p : Path, head p = Some (nodeUri (viewNode c)))
                                                  openNodes)) cs.
Proof.
  intros Hne Hnone. unfold reloadSubtree. generalize (max_length openNodes). intros depth.
  enough (Spec (reloadSubtree_upto depth e node openNodes) (λ n',
    ∃ cs, children n' = Some cs ∧
      viewNode <$> cs = loadNodeChildren e (nodeUri (viewNode node)) ∧
      Forall (λ c, level c = level node + 1 ∧ defunct c = false ∧
                   expanded c = bool_decide (Exists (λ p : Path, head p = Some (nodeUri (viewNode c)))
                                                    openNodes)) cs)) as HS
    by apply (HS w).
  assert (reloadSubtree_upto depth e node openNodes
          = (do '(cs, node1) <- getChildren e node;
             let childToNodes := groupBy_get (filter (λ p, p ≠ []) openNodes) in
             do cs' <- mapM (λ child,
                 match childToNodes (nodeUri (viewNode child)) with
                 | None => ret child
                 | Some mbOpenNodes =>
                     match depth with
                     | S d => reloadSubtree_upto d e (set_expanded child true) (tail <$> mbOpenNodes)
                     | O => ret (set_expanded child true)
                     end
                 end) cs;
             ret (set_children node1 (Some cs')))) as ->.
  { destruct depth; cbn [reloadSubtree_upto]; by rewrite bool_decide_eq_true_2. }
  eapply Spec_bind; [apply Spec_getChildren|]. intros [cs n1] [Hn1 Hnew].
  cbn in Hn1, Hnew. rewrite Hnone in Hnew. cbv zeta.
  eapply Spec_bind;
    [apply (Spec_mapM _ (λ c0 c, viewNode c = viewNode c0 ∧ level c = level node + 1 ∧
              defunct c = false ∧
              expanded c = bool_decide (Exists (λ p : Path, head p = Some (nodeUri (viewNode c)))
                                               openNodes)))|].
  { eapply Forall_impl; [exact (isNew_Forall _ _ _ Hnew)|]. intros c [v' [t ->]].
    cbn [viewNode]. destruct (groupBy_get _ (nodeUri v')) as [g|] eqn:Hg.
    - assert (Exists (λ p : Path, head p = Some (nodeUri v')) openNodes) as Hex.
      { destruct (decide (Exists (λ p : Path, head p = Some (nodeUri v')) openNodes)) as [|Hno]; [done|].
        apply groupBy_get_None in Hno. congruence. }
      eapply Spec_weaken; [|intros c' Hc'; exact Hc'].
      assert (∀ c', viewNode c' = v' ∧ same_ident (set_expanded (mkNode v' (level node + 1) false None t false) true) c' →
                    viewNode c' = v' ∧ level c' = level node + 1 ∧ defunct c' = false ∧
                    expanded c' = bool_decide (Exists (λ p : Path, head p = Some (nodeUri (viewNode c')))
                                                      openNodes)) as Himp.
      { intros c' (Hv & Hl & Hx & _ & Hd). cbn in *. rewrite Hv. by rewrite bool_decide_eq_true_2. }
      destruct depth as [|d].
      + apply Spec_ret. apply Himp. by repeat split.
      + eapply Spec_weaken; [apply Spec_reloadSubtree_upto|]. intros c' Hc'. by apply Himp.
    - apply Spec_ret. cbn. rewrite bool_decide_eq_false_2; [done|]. by apply groupBy_get_None. }
  intros cs' Hcs'. apply Spec_ret. subst n1. exists cs'. split; [done|]. split.
  - rewrite <- (isNew_viewNodes _ _ _ Hnew). clear -Hcs'.
    induction Hcs' as [|c0 c cs0 cs (Hv & _) _ IH]; [done|]. cbn. by rewrite Hv, IH.
  - clear -Hcs'. induction Hcs' as [|c0 c cs0 cs (_ & ? & ? & ?) _ IH]; by constructor.
Qed.

Lemma reloadSubtree_replays_open_paths_witness :
  let r := reloadSubtree Sample.env (set_children Sample.shown.1.2 None)
             [[]; [Some "a"]; [Some "gone"; Some "x"]]%string Sample.world0 in
  ∃ cs, children r.1 = Some cs ∧
    viewNode <$> cs = [Sample.descr "a" (Some "class"); Sample.descr "b" None] ∧
    Forall (λ c, level c = 1 ∧ defunct c = false ∧
                 expanded c = bool_decide (Exists (λ p : Path, head p = Some (nodeUri (viewNode c)))
                                [[]; [Some "a"]; [Some "gone"; Some "x"]]%string)) cs.
Proof.
  apply (reloadSubtree_replays_open_paths Sample.env (set_children Sample.shown.1.2 None)
           [[]; [Some "a"]; [Some "gone"; Some "x"]]%string Sample.world0); done.
Defined.

(** ** TreeModel *)

Lemma foundAmong_app_l uri rs rs' m :
  foundAmong uri rs (Some m) → foundAmong uri (rs ++ rs') (Some m).
Proof. intros [? ?]. split; [done|]. apply elem_of_app. by left. Qed.

Lemma FoldRel_findNodeByUri e uri cs z cs' acc rs :
  FoldRel (searchStep e uri) acc cs z cs' →
  foundAmong uri rs acc →
  foundAmong uri (rs ++ concat (rows e <$> cs)) z ∧ Forall2 (kept e) cs cs'.
Proof.
  intros HF. revert rs. induction HF as [s|s c l s1 c1 s2 l1 [Hk Hs] _ IH]; intros rs Hacc.
  { cbn. rewrite app_nil_r. split; [done | constructor]. }
  rewrite fmap_cons. cbn [concat]. rewrite app_assoc.
  destruct (IH (rs ++ rows e c)) as [Hz Hks]; [|split; [done | by constructor]].
  destruct s as [m|].
  - subst s1. by apply foundAmong_app_l.
  - destruct s1 as [m|]; cbn in *.
    + destruct Hs as [? ?]. split; [done|]. apply elem_of_app. by right.
    + rewrite fmap_app. intros [?|?]%elem_of_app; tauto.
Qed.

Lemma Spec_findNodeByUriInternal e uri n :
  Spec (findNodeByUriInternal e uri None n) (λ r,
    foundAmong uri (rows e n) r.1 ∧ kept e n r.2 ∧ same_state n r.2).
Proof.
  induction n as [v l ex ch lt d IH] using Node_ind_children.
  cbn [findNodeByUriInternal isExpanded expanded children viewNode].
  case_bool_decide as Hm.
  { apply Spec_ret. split; [|split; [apply kept_refl | apply same_state_refl]].
    split; [done|]. cbn. left. }
  assert (∀ cs, Forall (λ c, ∀ z, Spec (findNodeByUriInternal e uri z c) (λ r,
             searchStep e uri z c r.1 r.2)) cs →
          ∀ n0, Spec (findNodeByUri_children (findNodeByUriInternal e uri) n0 cs) (λ r,
             foundAmong uri ([makeView (mkNode v l ex ch lt d)] ++ concat (rows e <$> cs)) r.1 ∧
             ∃ cs', r.2 = set_children n0 (Some cs') ∧ Forall2 (kept e) cs cs')) as Hchildren.
  { intros cs Hcs n0. unfold findNodeByUri_children.
    eapply Spec_bind; [apply (Spec_foldNodes _ (searchStep e uri) _ _ Hcs)|].
    intros [z cs'] HF. cbn in HF.
    apply (FoldRel_findNodeByUri e uri cs z cs' None [makeView (mkNode v l ex ch lt d)]) in HF
      as [Hz Hk].
    - apply Spec_ret. eauto.
    - cbn. intros [Heq|[]%elem_of_nil]%elem_of_cons. congruence. }
  destruct ex.
  - destruct ch as [cs|].
    + eapply Spec_weaken; [apply Hchildren|].
      { eapply Forall_impl; [by apply IH|]. intros c Hc [m|].
        - destruct c; cbn. apply Spec_ret. split; [apply kept_refl | done].
        - eapply Spec_weaken; [exact Hc|]. by intros r (? & ? & _). }
      intros r (Hz & cs' & -> & Hk). split; [exact Hz|].
      split; [by apply (kept_set_children e _ cs) | done].
    + eapply Spec_bind; [apply Spec_getChildren|]. intros [cs n1] [Hn1 Hnew]. cbn in Hn1, Hnew.
      unfold findNodeByUri_children.
      eapply Spec_bind;
        [apply (Spec_foldNodes _ (searchStep e uri))|].
      { eapply Forall_impl; [exact (isNew_Forall _ _ _ Hnew)|]. intros c [v' [t ->]] [m|].
        - apply Spec_ret. split; [apply kept_refl | done].
        - cbn [viewNode]. case_bool_decide as Hc; apply Spec_ret; (split; [apply kept_refl|]); cbn.
          + split; [done | left].
          + intros [?|[]%elem_of_nil]%elem_of_cons. cbn in *. congruence. }
      intros [z cs'] HF. cbn in HF.
      apply (FoldRel_findNodeByUri e uri cs z cs' None [makeView (mkNode v l true None lt d)]) in HF
        as [Hz Hk].
      * apply Spec_ret. subst n1. split; [|split; [by eapply kept_after_getChildren | done]].
        cbn [fst]. rewrite (rows_after_getChildren e _ cs); done.
      * cbn. intros [Heq|[]%elem_of_nil]%elem_of_cons. congruence.
  - apply Spec_ret. split; [|split; [apply kept_refl | apply same_state_refl]].
    cbn. intros [Heq|[]%elem_of_nil]%elem_of_cons. congruence.
Qed.

(** X11.  [findNodeByUri] returns a node of the given identity that is
    behind a visible row, and [undefined] exactly when no visible row has
    the identity; it fires nothing and keeps the visible rows. *)
Theorem findNodeByUri_finds_visible e uri rootNode w w' :
  let r := findNodeByUri e uri rootNode w in
  let visible := (collectVisibleNodes e rootNode w').1.1 in
  match r.1.1 with
  | Some m => nodeUri (viewNode m) = Some uri ∧ makeView m ∈ visible
  | None => ∀ v, v ∈ visible → nodeUri (underlying v) ≠ Some uri
  end ∧
  (collectVisibleNodes e r.1.2 w').1.1 = visible ∧
  fired r.2 = fired w ∧ notified r.2 = notified w.
Proof.
  intros r visible. subst visible.
  destruct (Spec_collectVisibleNodes e rootNode w') as ((-> & _) & _).
  destruct (Spec_findNodeByUriInternal e uri rootNode w) as ((Hz & Hk & _) & Hf & Hn).
  fold (findNodeByUri e uri rootNode) in *. fold r in Hz, Hk, Hf, Hn.
  split; [|split; [|done]].
  - destruct r.1.1 as [m|]; [done|]. intros v Hv Hu. apply Hz.
    apply list_elem_of_fmap. exists v. by split.
  - destruct (Spec_collectVisibleNodes e r.1.2 w') as ((-> & _) & _).
    by destruct Hk as (_ & _ & _ & ->).
Qed.

Lemma uris_head e n : uris e n = nodeUri (viewNode n) :: tail (uris e n).
Proof. by destruct n. Qed.

Lemma FoldRel_findParentNode e target cs z cs' :
  FoldRel (parentStep e target) NotFound cs z cs' →
  Forall2 (kept e) cs cs' ∧
  match z with
  | NotFound => target ∉ concat (uris e <$> cs)
  | FoundHere => target ∈ (λ c, nodeUri (viewNode c)) <$> cs'
  | FoundBelow p => isParentAmong target (concat (rows e <$> cs)) p
  end.
Proof.
  assert (∀ z0 z, z0 ≠ NotFound → FoldRel (parentStep e target) z0 cs z cs' →
                  z = z0 ∧ Forall2 (kept e) cs cs') as Hdone.
  { clear. intros z0 z Hz0 HF. induction HF as [s|s c l s1 c1 s2 l1 [Hk Hs] _ IH].
    - split; [done | constructor].
    - assert (s1 = s) as -> by (by destruct s). destruct (IH Hz0) as [-> ?].
      split; [done | by constructor]. }
  clear Hdone.
  assert (∀ z0, FoldRel (parentStep e target) z0 cs z cs' →
          Forall2 (kept e) cs cs' ∧
          match z0 with
          | NotFound =>
              match z with
              | NotFound => target ∉ concat (uris e <$> cs)
              | FoundHere => target ∈ (λ c, nodeUri (viewNode c)) <$> cs'
              | FoundBelow p => isParentAmong target (concat (rows e <$> cs)) p
              end
          | _ => z = z0
          end) as Hgen; [|intros HF; apply (Hgen NotFound HF)].
  intros z0 HF. induction HF as [s|s c l s1 c1 s2 l1 [Hk Hs] _ [IHk IH]].
  { split; [constructor|]. destruct s; [|done..]. cbn. apply not_elem_of_nil. }
  split; [by constructor|]. rewrite !fmap_cons. cbn [concat].
  destruct s; [|by destruct s1; subst..].
  destruct s1.
  - destruct s2.
    + rewrite not_elem_of_app. done.
    + apply elem_of_cons. by right.
    + destruct IH as (? & ? & ?). split; [done|]. split; [|done]. apply elem_of_app. by right.
  - subst s2. apply elem_of_cons. by left.
  - subst s2. destruct Hs as (? & ? & ?). split; [done|]. split; [|done]. apply elem_of_app. by left.
Qed.

Lemma Spec_findParentNodeInternal e target n :
  Spec (findParentNodeInternal e target None n) (λ r,
    kept e n r.2 ∧
    match r.1 with
    | Some p => isParentAmong target (rows e n) p
    | None => target ∉ tail (uris e n)
    end).
Proof.
  induction n as [v l ex ch lt d IH] using Node_ind_children.
  cbn [findParentNodeInternal isExpanded expanded children].
  assert (∀ cs n0 rec,
            Forall (λ c, Spec (rec c) (λ r, kept e c r.2 ∧
                      match r.1 with
                      | Some p => isParentAmong target (rows e c) p
                      | None => target ∉ tail (uris e c)
                      end)) cs →
            isExpanded n0 = true →
            Spec (findParentNode_children rec target n0 cs) (λ r,
              ∃ cs', r.2 = set_children n0 (Some cs') ∧ Forall2 (kept e) cs cs' ∧
              match r.1 with
              | Some p => isParentAmong target (makeView n0 :: concat (rows e <$> cs)) p
              | None => target ∉ concat (uris e <$> cs)
              end)) as Hchildren.
  { intros cs n0 rec Hrec Hex0. unfold findParentNode_children.
    eapply Spec_bind; [apply (Spec_foldNodes _ (parentStep e target))|].
    { eapply Forall_impl; [exact Hrec|]. intros c Hc z. unfold findParentNode_step.
      destruct z; [|by apply Spec_ret; split; [apply kept_refl|]..].
      case_bool_decide as Hm.
      - apply Spec_ret. split; [apply kept_refl | done].
      - eapply Spec_bind; [exact Hc|]. intros [r c'] [Hk Hr]. apply Spec_ret. cbn in *.
        split; [done|]. destruct r as [p|]; [done|].
        rewrite uris_head. by intros [?|?]%elem_of_cons. }
    intros [z cs'] HF. cbn in HF. apply FoldRel_findParentNode in HF as [Hk Hz].
    apply Spec_ret. exists cs'. split; [done|]. split; [done|]. cbn [fst].
    destruct z as [| |p]; [done| |].
    - split; [by destruct n0 | split; [by destruct n0; left|]].
      exists cs'. split; [by destruct n0 | done].
    - destruct Hz as (? & ? & ?). split; [done|]. split; [by right | done]. }
  destruct ex.
  - destruct ch as [cs|].
    + eapply Spec_weaken; [apply Hchildren; [by apply IH | done]|].
      intros r (cs' & -> & Hk & Hr). split; [by apply (kept_set_children e _ cs)|].
      destruct r.1 as [p|]; [done|]. by rewrite (uris_after_getChildren e _ cs).
    + eapply Spec_bind; [apply Spec_getChildren|]. intros [cs n1] [Hn1 Hnew]. cbn in Hn1, Hnew.
      eapply Spec_weaken; [apply Hchildren; [|by subst n1]|].
      { eapply Forall_impl; [exact (isNew_Forall _ _ _ Hnew)|]. intros c [v' [t ->]].
        apply Spec_ret. split; [apply kept_refl|]. cbn. apply not_elem_of_nil. }
      intros r (cs' & -> & Hk & Hr). split; [by eapply kept_after_getChildren|].
      rewrite (rows_after_getChildren e _ cs), (uris_after_getChildren e _ cs) by done.
      subst n1. destruct r.1 as [p|]; done.
  - apply Spec_ret. split; [apply kept_refl|]. cbn. apply not_elem_of_nil.
Qed.

(** X12.  [findParentNode] returns an expanded node behind a visible row,
    one of whose children has the identity of the given node; it returns
    [undefined] exactly when no visible row below the root has that
    identity. *)
Theorem findParentNode_finds_parent e node rootNode w w' :
  let r := findParentNode e node rootNode w in
  let visible := (collectVisibleNodes e rootNode w').1.1 in
  match r.1.1 with
  | Some p =>
      isExpanded p = true ∧ makeView p ∈ visible ∧
      ∃ cs c, children p = Some cs ∧ c ∈ cs ∧
              nodeUri (viewNode c) = nodeUri (viewNode node)
  | None => ∀ v, v ∈ tail visible → nodeUri (underlying v) ≠ nodeUri (viewNode node)
  end ∧
  fired r.2 = fired w ∧ notified r.2 = notified w.
Proof.
  intros r visible. subst visible.
  destruct (Spec_collectVisibleNodes e rootNode w') as ((-> & _) & _).
  destruct (Spec_findParentNodeInternal e (nodeUri (viewNode node)) rootNode w)
    as ((_ & Hz) & Hf & Hn).
  fold (findParentNode e node rootNode) in *. fold r in Hz, Hf, Hn. split; [|done].
  destruct r.1.1 as [p|].
  - destruct Hz as (Hex & Hin & cs & Hcs & Ht). split; [done|]. split; [done|].
    apply list_elem_of_fmap in Ht as (c & Hc & Hcin). by exists cs, c.
  - intros v Hv Hu. apply Hz. unfold uris. rewrite <- fmap_tail.
    apply list_elem_of_fmap. exists v. by split.
Qed.

Lemma rows_child_subset e n cs c :
  isExpanded n = true → children n = Some cs → c ∈ cs → rows e c ⊆ tail (rows e n).
Proof.
  intros Hex Hcs Hc v Hv. destruct n as [vn l ex ch lt d]. cbn in *. subst.
  apply list_elem_of_In, in_concat. exists (rows e c).
  split; [|by apply list_elem_of_In]. apply in_map_iff. exists c.
  split; [done | by apply list_elem_of_In].
Qed.

(** The first node of a non-empty chain, after the step that makes sure it
    is expanded. *)
Lemma reveal_first_step e n w :
  let s := (if isExpanded n then ret (true, n) else expand e n) w in
  (s.1.1 = true → isExpanded s.1.2 = true) ∧
  (defunct n = false → s.1.1 = true) ∧
  (isExpanded n = true → s = ((true, n), w)).
Proof.
  destruct (isExpanded n) eqn:Hex; cbn; [done|]. split; [|split; [|done]].
  - destruct (defunct n) eqn:Hd.
    + unfold expand, expand_start, bind. rewrite Hd. done.
    + destruct (expand_effect e n w Hd) as (_ & (_ & _ & Hx & _) & _). intros _. exact Hx.
  - intros Hd. by destruct (expand_effect e n w Hd) as (? & _).
Qed.

Lemma revealDocumentInternal_found e parents :
  ∀ node w m, (revealDocumentInternal e parents node w).1.1 = Some m →
  parents ≠ [] →
  let r := revealDocumentInternal e parents node w in
  nodeUri (viewNode m) = last parents ∧
  isExpanded r.1.2 = true ∧ makeView m ∈ tail (rows e r.1.2).
Proof.
  induction parents as [|childUri rest IH]; intros node w m Hm Hne; [done|].
  cbn [revealDocumentInternal] in *. unfold bind in *.
  pose proof (reveal_first_step e node w) as (Hs1 & _).
  destruct ((if isExpanded node then ret (true, node) else expand e node) w)
    as [[expanded node1] w1]. cbn in Hs1.
  destruct expanded; [|done]. specialize (Hs1 eq_refl).
  destruct (Spec_getChildren e node1 w1) as ((Hn2 & _) & _).
  destruct (getChildren e node1 w1) as [[cs node2] w2]. cbn in Hn2.
  destruct (list_find _ cs) as [[i child]|] eqn:Hfind; [|done].
  apply list_find_Some in Hfind as (Hi & Hu & _).
  specialize (IH child w2 m).
  destruct (revealDocumentInternal e rest child w2) as [[r child'] w3] eqn:Hrec.
  cbn in Hm, IH. unfold ret. cbn [fst snd]. subst r node2.
  assert (child' ∈ <[i:=child']> cs) as Hin.
  { apply list_elem_of_lookup. exists i. apply list_lookup_insert_eq. by eapply lookup_lt_Some. }
  assert (isExpanded (set_children (set_children node1 (Some cs)) (Some (<[i:=child']> cs))) = true)
    as Hex by (by destruct node1).
  split; [|split; [done|]].
  - destruct rest as [|u rest'].
    + cbn in Hrec. injection Hrec as <- <- <-. done.
    + destruct (IH eq_refl ltac:(done)) as (-> & _). done.
  - destruct rest as [|u rest'].
    + cbn in Hrec. injection Hrec as <- <- <-.
      eapply rows_child_subset; [exact Hex | by destruct node1 | exact Hin|].
      match goal with |- makeView ?x ∈ rows _ ?x => destruct x; left end.
    + destruct (IH eq_refl ltac:(done)) as (_ & _ & Hv).
      eapply rows_child_subset; [exact Hex | by destruct node1 | exact Hin|].
      destruct (rows e child') eqn:Hr; [done|]. cbn in Hv. by right.
Qed.

(** X13.  When [revealByParents] returns a node for a non-empty chain, the
    node has the last identity of the chain and is behind a visible row
    below the root, so that [findNodeOffset] finds the anchor of the
    navigation update that [revealDocument] fires for it. *)
Theorem revealByParents_result_is_visible e parents rootNode w w' m :
  (revealByParents e parents rootNode w).1.1 = Some m →
  parents ≠ [] →
  let r := revealByParents e parents rootNode w in
  nodeUri (viewNode m) = last parents ∧
  makeView m ∈ tail (collectVisibleNodes e r.1.2 w').1.1 ∧
  ∃ k, (findNodeOffset e (Some (makeView m)) r.1.2 w').1.1 = Ok (Some k).
Proof.
  intros Hm Hne r.
  destruct (revealDocumentInternal_found e parents rootNode w m Hm Hne) as (Hu & _ & Hv).
  fold (revealByParents e parents rootNode w) in Hv. fold r in Hv.
  destruct (Spec_collectVisibleNodes e r.1.2 w') as ((-> & _) & _).
  split; [done|]. split; [done|].
  unfold findNodeOffset, bind. cbn [underlying makeView].
  destruct (Spec_findNodeOffsetInternal e (nodeUri (viewNode m)) (0, false) r.1.2 w')
    as ((Hr & _) & _).
  destruct (findNodeOffsetInternal e _ (0, false) r.1.2 w') as [[[k found] n'] w1].
  cbn in Hr. cbn [fst snd ret].
  destruct (scan_first (nodeUri (viewNode m)) 0 (uris e r.1.2)) as (i & Hs & _).
  { unfold uris. apply list_elem_of_fmap. exists (makeView m). split; [done|].
    destruct (rows e r.1.2); [done | by right]. }
  rewrite Hs in Hr. injection Hr as -> ->. eauto.
Qed.

Lemma revealByParents_result_is_visible_witness :
  let r := revealByParents Sample.env ["a"; "a2"]%string Sample.shown.1.2 Sample.shown.2 in
  ∃ m, r.1.1 = Some m ∧
    nodeUri (viewNode m) = Some "a2"%string ∧
    makeView m ∈ tail (collectVisibleNodes Sample.env r.1.2 Sample.world0).1.1 ∧
    ∃ k, (findNodeOffset Sample.env (Some (makeView m)) r.1.2 Sample.world0).1.1 = Ok (Some k).
Proof.
  eexists. split; [vm_compute; reflexivity|].
  apply (revealByParents_result_is_visible Sample.env ["a"; "a2"]%string
           Sample.shown.1.2 Sample.shown.2 Sample.world0); [vm_compute; reflexivity | done].
Defined.

(** X14.  Partial expansion persists: for a non-empty chain,
    [revealDocumentInternal] leaves the node it starts from expanded
    whenever that node is expanded already or not retired, also when it
    returns [undefined].  On an expanded node none of whose cached children
    has the first identity of the chain it returns [undefined] and does
    nothing; so it does on a retired collapsed node. *)
Theorem reveal_leaves_first_node_expanded e childUri rest node w :
  let r := revealDocumentInternal e (childUri :: rest) node w in
  (defunct node = false ∨ isExpanded node = true → isExpanded r.1.2 = true) ∧
  (isExpanded node = true →
   (∀ cs c, children node = Some cs → c ∈ cs → nodeUri (viewNode c) ≠ Some childUri) →
   is_Some (children node) → r = ((None, node), w)) ∧
  (defunct node = true → isExpanded node = false → r = ((None, node), w)).
Proof.
  intros r. subst r. cbn [revealDocumentInternal]. unfold bind.
  pose proof (reveal_first_step e node w) as (Hs1 & Hs2 & Hs3).
  split; [|split].
  - intros Hor.
    assert (((if isExpanded node then ret (true, node) else expand e node) w).1.1 = true) as Ht.
    { destruct Hor as [Hd|Hex]; [by apply Hs2 | by rewrite (Hs3 Hex)]. }
    destruct ((if isExpanded node then ret (true, node) else expand e node) w)
      as [[expanded node1] w1]. cbn in Hs1, Ht. subst expanded. specialize (Hs1 eq_refl).
    destruct (Spec_getChildren e node1 w1) as ((Hn2 & _) & _).
    destruct (getChildren e node1 w1) as [[cs node2] w2]. cbn in Hn2. subst node2.
    destruct (list_find _ cs) as [[i child]|]; [|by destruct node1].
    destruct (revealDocumentInternal e rest child w2) as [[r child'] w3]. by destruct node1.
  - intros Hex Hno [cs Hcs]. rewrite (Hs3 Hex). unfold getChildren. rewrite Hcs. cbn.
    destruct (list_find _ cs) as [[i child]|] eqn:Hfind; [|done].
    apply list_find_Some in Hfind as (Hi & Hu & _). exfalso.
    apply (Hno cs child Hcs); [|done]. apply list_elem_of_lookup. eauto.
  - intros Hd Hex. rewrite Hex. unfold expand, expand_start, bind. by rewrite Hd.
Qed.

Lemma reveal_leaves_first_node_expanded_witness :
  let r := revealDocumentInternal Sample.env ["zz"; "a"]%string Sample.shown.1.2 Sample.shown.2 in
  isExpanded r.1.2 = true ∧ r = ((None, Sample.shown.1.2), Sample.shown.2) ∧
  revealDocumentInternal Sample.env ["zz"; "a"]%string Sample.retired Sample.world0
  = ((None, Sample.retired), Sample.world0).
Proof.
  destruct (reveal_leaves_first_node_expanded Sample.env "zz" ["a"]%string
              Sample.shown.1.2 Sample.shown.2) as (H1 & H2 & _).
  destruct (reveal_leaves_first_node_expanded Sample.env "zz" ["a"]%string
              Sample.retired Sample.world0) as (_ & _ & H3).
  split; [apply H1; by left|]. split; [|by apply H3].
  apply H2; [done| |by eexists].
  intros cs c [= <-] Hc. revert c Hc. apply Forall_forall. by repeat constructor.
Defined.

(** ** TreeView *)

(** X15.  A navigation update changes no content: when the editor rejects
    nothing and the anchor is displayed at offset [k], handling the update
    only goes to each window that shows the buffer in the current tab page
    and jumps to the row of the anchor; the queue stays fulfilled and no
    marker, counter or flag of the view changes. *)
Theorem navigation_update_only_moves nv e ev0 tv k :
  (∀ c, rejects nv c = false) →
  eventQueue tv = Ok tt →
  ev_focusEvent ev0 = true →
  nodeUri (underlying (ev_root ev0)) ≠ None →
  (findNodeOffset e (Some (ev_root ev0)) (rootNode tv) (world tv)).1.1 = Ok (Some k) →
  let tv' := handleModelUpdates nv e ev0 tv in
  calls tv' = calls tv ++ navigationCalls nv (JNum (k - 1 + 1)) ∧
  eventQueue tv' = Ok tt ∧
  lineToSignId tv' = lineToSignId tv ∧
  highlightPlaceId tv' = highlightPlaceId tv ∧
  firstUpdate tv' = firstUpdate tv.
Proof.
  intros Hacc Hq Hfocus Hroot Hk tv'. subst tv'.
  unfold handleModelUpdates, rewriteRoot. rewrite Hq.
  rewrite bool_decide_eq_false_2 by done.
  rewrite (applyUpdate_anchor_found nv e _ tv k) by done.
  rewrite applyAt_navigation by done. cbn [js_add].
  set (tv1 := set_model tv _ _).
  pose proof (add_calls_fields tv1 (navigationCalls nv (JNum (k - 1 + 1))))
    as (H1 & H2 & H3 & H4 & _).
  pose proof (add_calls_calls tv1 (navigationCalls nv (JNum (k - 1 + 1)))) as H5.
  cbn. by rewrite H5, H1, H3, H4.
Qed.

Lemma navigation_update_only_moves_witness :
  let ev0 := mkUpdate (mkNodeView (Sample.descr "b" None) 1 true false) 1 [] true in
  let tv' := handleModelUpdates Sample.nvim Sample.env ev0 Sample.view0 in
  calls tv' = calls Sample.view0 ++ navigationCalls Sample.nvim (JNum (2 - 1 + 1)) ∧
  eventQueue tv' = Ok tt ∧
  lineToSignId tv' = lineToSignId Sample.view0 ∧
  highlightPlaceId tv' = highlightPlaceId Sample.view0 ∧
  firstUpdate tv' = firstUpdate Sample.view0.
Proof.
  apply (navigation_update_only_moves Sample.nvim Sample.env
           (mkUpdate (mkNodeView (Sample.descr "b" None) 1 true false) 1 [] true)
           Sample.view0 2);
    [intros c; reflexivity | reflexivity | reflexivity | discriminate | vm_compute; reflexivity].
Defined.

(** X16.  [modifyBuffer] always undoes what it did to the buffer options:
    when the editor rejects nothing, the action runs between the calls that
    make the buffer writable and those that protect it again, and the
    latter are issued, and the outcome of the action kept, whether the
    action succeeds or rejects. *)
Theorem modifyBuffer_restores_options {X} nv (action : V X) tv :
  (∀ c, rejects nv c = false) →
  let a := action (add_calls tv [BufferSetOption "readonly" false;
                                 BufferSetOption "modifiable" true]) in
  modifyBuffer nv action tv
  = (a.1, add_calls a.2 [BufferSetOption "modifiable" false;
                         BufferSetOption "readonly" true]).
Proof.
  intros Hacc a. subst a. unfold modifyBuffer, bindV, finallyV.
  rewrite !call_accepted, add_calls_app by done. cbn [app].
  destruct (action _) as [r tv']. rewrite !call_accepted, add_calls_app by done. done.
Qed.

Lemma modifyBuffer_restores_options_witness :
  modifyBuffer Sample.nvim (throwV (A := unit) RangeError) Sample.view0
  = (Throw RangeError,
     add_calls Sample.view0
       [BufferSetOption "readonly" false; BufferSetOption "modifiable" true;
        BufferSetOption "modifiable" false; BufferSetOption "readonly" true]).
Proof.
  apply (modifyBuffer_restores_options Sample.nvim (throwV (A := unit) RangeError)
           Sample.view0).
  intros c. reflexivity.
Defined.

(** X17.  [removeRows] when the editor rejects nothing.  Between two rows:
    one [sign_unplace] for each row [i] of the range whose next line,
    [i + 1], has a marker recorded, in the order of the rows, then the
    removal of the lines.
    With a bound that is [NaN] the loop does not run: no marker is
    released, the records are untouched, and the removal is still requested
    with these bounds. *)
Theorem removeRows_releases_recorded_markers nv from to tv :
  (∀ c, rejects nv c = false) →
  (∀ f t, from = JNum f → to = JNum t →
    let released := omap (λ i, lineToSignId tv !! JNum (i + 1)) (seqZ f (t - f)) in
    removeRows nv from to tv
    = (Ok tt,
       add_calls (set_lineToSignId tv (removeRows_loop from to (lineToSignId tv)).2)
                 ((SignUnplace <$> released) ++ [BufferRemove from to]))) ∧
  (from = JNaN ∨ to = JNaN →
    removeRows nv from to tv = (Ok tt, add_calls tv [BufferRemove from to])).
Proof.
  intros Hacc. split.
  - intros f t -> -> released. subst released. unfold removeRows.
    rewrite <- removeRows_loop_released.
    destruct (removeRows_loop (JNum f) (JNum t) (lineToSignId tv)) as [unplaceList m].
    unfold bindV. rewrite callAll_accepted, call_accepted, add_calls_app by done. done.
  - intros Hnan. unfold removeRows.
    assert (removeRows_loop from to (lineToSignId tv) = ([], lineToSignId tv)) as ->.
    { destruct Hnan as [-> | ->]; [done | by destruct from]. }
    unfold bindV. rewrite callAll_accepted, call_accepted by done. cbn. by destruct tv.
Qed.

Lemma removeRows_releases_recorded_markers_witness :
  calls (removeRows Sample.nvim (JNum 0) (JNum 3) Sample.decorated).2
  = [SignUnplace 5; SignUnplace 6; BufferRemove (JNum 0) (JNum 3)] ∧
  removeRows Sample.nvim JNaN (JNum 3) Sample.decorated
  = (Ok tt, add_calls Sample.decorated [BufferRemove JNaN (JNum 3)]).
Proof.
  destruct (removeRows_releases_recorded_markers Sample.nvim (JNum 0) (JNum 3)
              Sample.decorated) as [H1 _]; [intros c; reflexivity|].
  destruct (removeRows_releases_recorded_markers Sample.nvim JNaN (JNum 3)
              Sample.decorated) as [_ H2]; [intros c; reflexivity|].
  split; [|apply H2; by left].
  rewrite (H1 0 3 eq_refl eq_refl). reflexivity.
Defined.

Lemma makeRow_cases child :
  (1 ≤ view_level child → ∃ line, makeRow child = Ok line) ∧
  (view_level child < 1 → makeRow child = Throw RangeError).
Proof.
  unfold makeRow, repeat_spaces. split; intros Hl.
  - rewrite (proj2 (Z.ltb_ge _ _)) by lia. eauto.
  - by rewrite (proj2 (Z.ltb_lt _ _)) by lia.
Qed.

(** X18.  [makeRows] needs rows of level 1 or more: then it gives one line
    per row; a row of a lower level, such as the view of the root, makes
    the indentation throw a [RangeError], and [insertRows] rejects before
    any call of the editor. *)
Theorem makeRows_needs_positive_levels nodes :
  (Forall (λ v, 1 ≤ view_level v) nodes →
   ∃ lines, makeRows nodes = Ok lines ∧ length lines = length nodes) ∧
  (Exists (λ v, view_level v < 1) nodes →
   makeRows nodes = Throw RangeError ∧
   ∀ nv offset tv, insertRows nv offset nodes tv = (Throw RangeError, tv)).
Proof.
  split.
  - induction 1 as [|child rest Hl _ (lines & IH & Hlen)]; [by exists []|].
    destruct (proj1 (makeRow_cases child) Hl) as [line Hline].
    exists (line :: lines). cbn. rewrite Hline, IH. split; [done | by rewrite Hlen].
  - intros Hex. assert (makeRows nodes = Throw RangeError) as Hrows.
    { induction Hex as [child rest Hl | child rest _ IH]; cbn.
      - by rewrite (proj2 (makeRow_cases child) Hl).
      - rewrite IH. destruct (makeRow child) as [r|err] eqn:Hrow; [done|].
        destruct (Z_lt_le_dec (view_level child) 1) as [Hlt|Hge].
        + rewrite (proj2 (makeRow_cases child) Hlt) in Hrow. congruence.
        + destruct (proj1 (makeRow_cases child) Hge) as [line Hline]. congruence. }
    split; [done|]. intros nv offset tv. unfold insertRows. by rewrite Hrows.
Qed.

Lemma makeRows_needs_positive_levels_witness :
  (∃ lines, makeRows (tail (rows Sample.env Sample.shown.1.2)) = Ok lines ∧
            length lines = 2%nat) ∧
  makeRows (rows Sample.env Sample.shown.1.2) = Throw RangeError.
Proof.
  split.
  - apply (proj1 (makeRows_needs_positive_levels (tail (rows Sample.env Sample.shown.1.2)))).
    vm_compute. by repeat constructor.
  - apply (proj2 (makeRows_needs_positive_levels (rows Sample.env Sample.shown.1.2))).
    vm_compute. by left.
Defined.

(** The rows of [l] that get a marker, as [decoratedRows] lists them. *)
Lemma decorated_sublist (l : list (nat * NodeView)) :
  (omap (λ '(idx, node), pair idx <$> highlightSchemaOf (icon (underlying node))) l).*1
  `sublist_of` l.*1.
Proof.
  induction l as [|[idx node] l IH]; [done|]. cbn.
  destruct (highlightSchemaOf _); cbn; by constructor.
Qed.

Lemma imap_pair_fst {A} (l : list A) k : (imap (λ i, pair (k + i)%nat) l).*1 = seq k (length l).
Proof.
  revert k. induction l as [|a l IH]; intros k; [done|]. cbn. f_equal; [lia|].
  rewrite <- (IH (S k)). f_equal. apply imap_ext. intros i x _. cbn. f_equal. lia.
Qed.

Lemma decoratedRows_NoDup nodes : NoDup (decoratedRows nodes).*1.
Proof.
  unfold decoratedRows. eapply sublist_NoDup; [|apply decorated_sublist].
  assert ((imap pair nodes).*1 = seq 0 (length nodes)) as -> by exact (imap_pair_fst nodes 0).
  apply NoDup_seq.
Qed.

(** X19.  [insertRows] at the row [o], when the rows can be drawn and the
    editor rejects nothing: the lines are inserted first; then one marker
    is placed for each decorated row, with consecutive ids from the counter
    of the view, which advances by their number; the id is recorded under
    the line of the row, and the records of the other lines are kept. *)
Theorem insertRows_places_consecutive_ids nv o nodes lines tv :
  (∀ c, rejects nv c = false) →
  makeRows nodes = Ok lines →
  let dec := decoratedRows nodes in
  let p := highlightPlaceId tv in
  let line (idx : nat) := JNum (o + Z.of_nat idx + 1) in
  ∃ tv', insertRows nv (JNum o) nodes tv = (Ok tt, tv') ∧
    calls tv' = calls tv ++ BufferInsert lines (JNum o) ::
                  imap (λ j '(idx, schema), SignPlace (p + Z.of_nat j) schema (line idx)) dec ∧
    highlightPlaceId tv' = p + Z.of_nat (length dec) ∧
    (∀ j idx schema, dec !! j = Some (idx, schema) →
       lineToSignId tv' !! line idx = Some (p + Z.of_nat j)) ∧
    (∀ key, (∀ idx schema, (idx, schema) ∈ dec → key ≠ line idx) →
       lineToSignId tv' !! key = lineToSignId tv !! key).
Proof.
  intros Hacc Hrows dec p line. unfold insertRows. rewrite Hrows. unfold bindV.
  rewrite call_accepted by done.
  set (tv0 := add_calls tv [BufferInsert lines (JNum o)]).
  destruct (placeSign_fold (JNum o) (imap pair nodes) tv0 []) as (tv1 & -> & Hp & Hl & Ho & Hc).
  fold (decoratedRows nodes) in *. fold dec in Hp, Hl, Ho |- *. cbn [js_add app] in *.
  rewrite callAll_accepted by done. eexists. split; [done|].
  assert (NoDup ((λ idx, JNum (o + Z.of_nat idx + 1)) <$> dec.*1)) as Hnd.
  { apply NoDup_fmap_2; [|apply decoratedRows_NoDup]. intros i j [=]. lia. }
  split_and!.
  - rewrite add_calls_calls, Hc. subst tv0. rewrite add_calls_calls, <- app_assoc. done.
  - match goal with |- highlightPlaceId (add_calls _ ?cs) = _ =>
      destruct (add_calls_fields tv1 cs) as (_ & _ & -> & _) end. by rewrite Hp.
  - intros j idx s Hj.
    match goal with |- lineToSignId (add_calls _ ?cs) !! _ = _ =>
      destruct (add_calls_fields tv1 cs) as (_ & _ & _ & -> & _) end.
    exact (Hl j idx s Hj Hnd).
  - intros key Hkey.
    match goal with |- lineToSignId (add_calls _ ?cs) !! _ = _ =>
      destruct (add_calls_fields tv1 cs) as (_ & _ & _ & -> & _) end.
    apply Ho. intros Hin. apply list_elem_of_fmap in Hin as (idx & -> & Hin).
    apply list_elem_of_fmap in Hin as ([idx' s] & -> & Hin). by eapply Hkey.
Qed.

Lemma insertRows_places_consecutive_ids_witness :
  ∃ tv', insertRows Sample.nvim (JNum 3) Sample.rowsA Sample.decorated = (Ok tt, tv') ∧
    calls tv' = [BufferInsert ["▾ a"; "  ▸ a1"; "  ▸ a2"]%string (JNum 3);
                 SignPlace 0 "TvpClass" (JNum 4)] ∧
    highlightPlaceId tv' = 1 ∧
    lineToSignId tv' !! JNum 4 = Some 0 ∧
    lineToSignId tv' !! JNum 2 = Some 6.
Proof.
  destruct (insertRows_places_consecutive_ids Sample.nvim 3 Sample.rowsA
              ["▾ a"; "  ▸ a1"; "  ▸ a2"]%string Sample.decorated)
    as (tv' & H1 & H2 & H3 & H4 & H5); [intros c; reflexivity | reflexivity|].
  exists tv'. split_and!; [exact H1 | exact H2 | exact H3 | |].
  - apply (H4 0%nat 0%nat "TvpClass"%string). reflexivity.
  - rewrite (H5 (JNum 2)); [reflexivity|].
    intros idx s [[= -> ->]|[]%elem_of_nil]%elem_of_cons. discriminate.
Defined.

Lemma visible_row_has_offset e m root w :
  makeView m ∈ tail (rows e root) →
  ∃ k, (findNodeOffset e (Some (makeView m)) root w).1.1 = Ok (Some k).
Proof.
  intros Hv. unfold findNodeOffset, bind. cbn [underlying makeView].
  destruct (Spec_findNodeOffsetInternal e (nodeUri (viewNode m)) (0, false) root w)
    as ((Hr & _) & _).
  destruct (findNodeOffsetInternal e _ (0, false) root w) as [[[k found] n'] w1].
  cbn in Hr. cbn [fst snd ret].
  destruct (scan_first (nodeUri (viewNode m)) 0 (uris e root)) as (i & Hs & _).
  { unfold uris. apply list_elem_of_fmap. exists (makeView m). split; [done|].
    destruct (rows e root); [done | by right]. }
  rewrite Hs in Hr. injection Hr as -> ->. eauto.
Qed.

(** X20.  [revealDocument] with a non-empty chain that leads to a node:
    it fires, last, a navigation update anchored at that node, whose
    identity is the first of the chain; the anchor is displayed, and a view
    that handles the update on the model as [revealDocument] left it goes
    to each window of the buffer and jumps to the row of the node. *)
Theorem revealDocument_navigates_to_result nv e chain rootNode w tv m :
  (∀ c, rejects nv c = false) →
  eventQueue tv = Ok tt →
  chain ≠ [] →
  (revealDocument e chain rootNode w).1.1 = Some m →
  let r := revealDocument e chain rootNode w in
  let u := mkUpdate (makeView m) 1 [] true in
  fired r.2 = fired (revealDocumentInternal e (reverse chain) rootNode w).2 ++ [u] ∧
  nodeUri (viewNode m) = head chain ∧
  ∃ k, (findNodeOffset e (Some (makeView m)) r.1.2 r.2).1.1 = Ok (Some k) ∧
    let tv' := handleModelUpdates nv e u (set_model tv r.1.2 r.2) in
    calls tv' = calls tv ++ navigationCalls nv (JNum (k - 1 + 1)) ∧
    eventQueue tv' = Ok tt.
Proof.
  intros Hacc Hq Hne Hm r u. subst r u. unfold revealDocument, bind in *.
  assert (reverse chain ≠ []) as Hne'.
  { intros Hr. apply Hne. by rewrite <- (reverse_involutive chain), Hr. }
  pose proof (revealDocumentInternal_found e (reverse chain) rootNode w) as Hfound.
  destruct (revealDocumentInternal e (reverse chain) rootNode w) as [[res root'] w1].
  destruct res as [m'|]; [|done]. cbn in Hm. injection Hm as ->.
  destruct (Hfound m eq_refl Hne') as (Hu & _ & Hv). cbn [fst snd] in Hv.
  rewrite last_reverse in Hu. cbn [fst snd fire fired ret].
  split; [done|]. split; [done|].
  set (w2 := mkWorld _ _ _).
  destruct (visible_row_has_offset e m root' w2 Hv) as [k Hk].
  exists k. split; [done|]. cbv zeta.
  unfold handleModelUpdates, rewriteRoot. cbn [eventQueue set_model]. rewrite Hq.
  rewrite bool_decide_eq_false_2
    by (cbn [ev_root underlying makeView]; rewrite Hu; by destruct chain).
  rewrite (applyUpdate_anchor_found nv e _ _ k) by done.
  rewrite applyAt_navigation by done. cbn [js_add eventQueue set_eventQueue calls].
  split; [|done]. by rewrite add_calls_calls.
Qed.

Lemma revealDocument_navigates_to_result_witness :
  let r := revealDocument Sample.env ["a2"; "a"]%string Sample.shown.1.2 Sample.shown.2 in
  ∃ m, r.1.1 = Some m ∧ nodeUri (viewNode m) = Some "a2"%string ∧
  ∃ k, (findNodeOffset Sample.env (Some (makeView m)) r.1.2 r.2).1.1 = Ok (Some k) ∧
    calls (handleModelUpdates Sample.nvim Sample.env (mkUpdate (makeView m) 1 [] true)
             (set_model Sample.view0 r.1.2 r.2))
    = calls Sample.view0 ++ navigationCalls Sample.nvim (JNum (k - 1 + 1)).
Proof.
  eexists. split; [vm_compute; reflexivity|].
  destruct (revealDocument_navigates_to_result Sample.nvim Sample.env ["a2"; "a"]%string
              Sample.shown.1.2 Sample.shown.2 Sample.view0
              (mkNode (Sample.descr "a2" None) 2 false None 110 false))
    as (_ & Hu & k & Hk & Hc & _);
    [intros c; reflexivity | reflexivity | discriminate | vm_compute; reflexivity |].
  split; [exact Hu|]. exists k. split; [exact Hk | exact Hc].
Defined.

(** X21.  [revealDocument] with an empty chain returns the root and fires
    a navigation update anchored at the root with no row in it; the view
    reads the second row of the payload as the anchor, the lookup throws,
    and the queue of the view is left rejected with nothing else changed. *)
Theorem revealDocument_empty_chain_rejects_queue nv e e' rootNode w tv :
  nodeUri (viewNode rootNode) = None →
  eventQueue tv = Ok tt →
  let r := revealDocument e [] rootNode w in
  let u := mkUpdate (makeView rootNode) 1 [] true in
  r.1 = (Some rootNode, rootNode) ∧
  fired r.2 = fired w ++ [u] ∧
  handleModelUpdates nv e' u tv = set_eventQueue tv (Throw TypeError).
Proof.
  intros Hroot Hq r u. split; [done|]. split; [done|].
  apply root_update_without_rows_rejects; [done | cbn; lia | done].
Qed.

Lemma revealDocument_empty_chain_rejects_queue_witness :
  let r := revealDocument Sample.env [] Sample.shown.1.2 Sample.shown.2 in
  r.1 = (Some Sample.shown.1.2, Sample.shown.1.2) ∧
  fired r.2 = fired Sample.shown.2 ++ [Sample.rootNavigation] ∧
  handleModelUpdates Sample.nvim Sample.env Sample.rootNavigation Sample.view1
  = set_eventQueue Sample.view1 (Throw TypeError).
Proof.
  apply (revealDocument_empty_chain_rejects_queue Sample.nvim Sample.env Sample.env
           Sample.shown.1.2 Sample.shown.2 Sample.view1); reflexivity.
Defined.

(** X22.  Updates of the root that carry no row below it reject the queue
    of the view: the update that [collapse] fires on a root that is not
    retired, and the update that [expand] fires on such a root when the
    provider has no children for it.  The view takes the second row of the
    payload as the anchor, there is none, and the lookup throws. *)
Theorem root_update_without_children_rejects_queue nv e e' rootNode w tv :
  defunct rootNode = false →
  nodeUri (viewNode rootNode) = None →
  eventQueue tv = Ok tt →
  (∃ u, fired (collapse e rootNode w).2 = fired w ++ [u] ∧
        handleModelUpdates nv e' u tv = set_eventQueue tv (Throw TypeError)) ∧
  (children rootNode = None → loadNodeChildren e None = [] →
   ∃ u, fired (expand e rootNode w).2 = fired w ++ [u] ∧
        handleModelUpdates nv e' u tv = set_eventQueue tv (Throw TypeError)).
Proof.
  intros Hd Hroot Hq. split.
  - destruct (collapse_effect e rootNode w Hd) as (_ & _ & Hv & Hf & _).
    eexists. split; [exact Hf|].
    apply root_update_without_rows_rejects; [|cbn; lia|done].
    cbn [ev_root]. rewrite Hv. by destruct rootNode.
  - intros Hch Hload. destruct (expand_effect e rootNode w Hd) as (_ & _ & _ & Hf & _).
    eexists. split; [exact Hf|].
    apply root_update_without_rows_rejects; [by destruct rootNode| |done].
    destruct rootNode as [v l ex ch lt d]. cbn in *. subst. rewrite Hroot, Hload. cbn. lia.
Qed.

Lemma root_update_without_children_rejects_queue_witness :
  let e := mkEnv (λ _, 0) (λ _, []) in
  let root := (newRootNode e "v" Sample.world0).1 in
  (∃ u, fired (collapse e root Sample.world0).2 = [u] ∧
        handleModelUpdates Sample.nvim e u (newTreeView root Sample.world0)
        = set_eventQueue (newTreeView root Sample.world0) (Throw TypeError)) ∧
  (∃ u, fired (expand e root Sample.world0).2 = [u] ∧
        handleModelUpdates Sample.nvim e u (newTreeView root Sample.world0)
        = set_eventQueue (newTreeView root Sample.world0) (Throw TypeError)).
Proof.
  destruct (root_update_without_children_rejects_queue Sample.nvim
              (mkEnv (λ _, 0) (λ _, [])) (mkEnv (λ _, 0) (λ _, []))
              (newRootNode (mkEnv (λ _, 0) (λ _, [])) "v" Sample.world0).1 Sample.world0
              (newTreeView (newRootNode (mkEnv (λ _, 0) (λ _, [])) "v" Sample.world0).1
                           Sample.world0))
    as [H1 H2]; [reflexivity..|].
  split; [exact H1 | apply H2; reflexivity].
Defined.

(** ** TreeModelManager *)

Lemma jsmap_get_set {T} k k' (v : T) m :
  jsmap_get k' (jsmap_set k v m) = if bool_decide (k' = k) then Some v else jsmap_get k' m.
Proof.
  induction m as [|[k0 v0] m IH]; cbn.
  - repeat case_bool_decide; congruence.
  - repeat (case_bool_decide; cbn); rewrite ?IH; repeat case_bool_decide; congruence.
Qed.

Lemma jsmap_set_keys {T} k (v : T) m :
  (jsmap_set k v m).*1 = if bool_decide (k ∈ m.*1) then m.*1 else m.*1 ++ [k].
Proof.
  induction m as [|[k0 v0] m IH]; cbn; [done|].
  destruct (decide (k0 = k)) as [->|Hk0].
  - rewrite bool_decide_eq_true_2 by done. cbn. rewrite bool_decide_eq_true_2 by left. done.
  - rewrite (bool_decide_eq_false_2 (k0 = k)) by done. cbn. rewrite IH.
    destruct (decide (k ∈ m.*1)) as [Hin|Hin].
    + rewrite !bool_decide_eq_true_2; [done | by right | done].
    + rewrite !bool_decide_eq_false_2; [done | | done].
      intros [?|?]%elem_of_cons; [congruence | done].
Qed.

Lemma jsmap_get_delete {T} k k' (m : list (string * T)) :
  jsmap_get k' (jsmap_delete k m) = if bool_decide (k' = k) then None else jsmap_get k' m.
Proof.
  unfold jsmap_delete. induction m as [|[k0 v0] m IH].
  - cbn. by case_bool_decide.
  - rewrite filter_cons. cbn [fst]. destruct (decide (k0 ≠ k)) as [Hne|Heq].
    + cbn [jsmap_get]. rewrite IH. repeat case_bool_decide; congruence.
    + apply dec_stable in Heq. subst k0. rewrite IH. cbn [jsmap_get].
      repeat case_bool_decide; congruence.
Qed.

Lemma jsmap_set_NoDup {T} k (v : T) m : NoDup m.*1 → NoDup (jsmap_set k v m).*1.
Proof.
  intros Hnd. rewrite jsmap_set_keys. case_bool_decide as Hin; [done|].
  apply NoDup_app. split; [done|]. split; [|apply NoDup_singleton].
  intros x Hx [->|[]%elem_of_nil]%elem_of_cons. done.
Qed.

(** X23.  A registration made before or after the services are ready is
    seen once they are: the model built from the provider is the one
    looked up under the provider's view id, the models of the other ids
    are untouched, and the list of views keeps its order, with a new id
    added at the end and an id registered again left at its place. *)
Theorem register_then_lookup {Provider TreeModel} (newTreeModel : Provider → TreeModel)
    (providerViewId : Provider → string) provider mgr viewId :
  let mgr' := onReady (register newTreeModel providerViewId provider mgr) in
  getTreeModel viewId mgr'
  = (if bool_decide (viewId = providerViewId provider) then Some (newTreeModel provider)
     else getTreeModel viewId (onReady mgr)) ∧
  getViews mgr'
  = Some (if bool_decide (providerViewId provider ∈ (treeModels mgr).*1)
          then (treeModels mgr).*1
          else (treeModels mgr).*1 ++ [providerViewId provider]) ∧
  (NoDup (treeModels mgr).*1 → NoDup (treeModels mgr').*1) ∧
  getTreeModel viewId (register newTreeModel providerViewId provider mgr)
  = (if ready mgr then getTreeModel viewId mgr' else None).
Proof.
  cbv zeta. unfold getTreeModel, getViews, onReady, register. cbn.
  split_and!.
  - apply jsmap_get_set.
  - by rewrite jsmap_set_keys.
  - apply jsmap_set_NoDup.
  - by destruct (ready mgr).
Qed.

(** X24.  The disposable of a registration deletes by view id, not by
    model: after it, no model is looked up under the id of its provider,
    also when another provider has been registered under that id
    meanwhile; the other ids keep their models. *)
Theorem unregister_deletes_by_view_id {Provider TreeModel} (newTreeModel : Provider → TreeModel)
    (providerViewId : Provider → string) provider other
    (mgr : TreeModelManager (TreeModel := TreeModel)) viewId :
  getTreeModel viewId (unregister providerViewId provider mgr)
  = (if bool_decide (viewId = providerViewId provider) then None
     else getTreeModel viewId mgr) ∧
  (providerViewId other = providerViewId provider →
   getTreeModel (providerViewId other)
     (unregister providerViewId provider
        (register newTreeModel providerViewId other
           (register newTreeModel providerViewId provider mgr))) = None).
Proof.
  assert (∀ m : TreeModelManager (TreeModel := TreeModel),
    getTreeModel viewId (unregister providerViewId provider m)
    = (if bool_decide (viewId = providerViewId provider) then None
       else getTreeModel viewId m)) as Hdel.
  { intros m. unfold getTreeModel, unregister. cbn. destruct (ready m).
    - apply jsmap_get_delete.
    - by case_bool_decide. }
  split; [apply Hdel|]. intros Heq.
  unfold getTreeModel, unregister, register. cbn [ready treeModels].
  destruct (ready mgr); [|done]. rewrite jsmap_get_delete. by rewrite bool_decide_eq_true_2.
Qed.

Lemma unregister_deletes_by_view_id_witness :
  getTreeModel "v"
    (unregister (λ p : string * nat, p.1) ("v", 1%nat)
       (register (λ p : string * nat, p.2) (λ p, p.1) ("v", 2%nat)
          (register (λ p : string * nat, p.2) (λ p, p.1) ("v", 1%nat)
             (onReady newTreeModelManager)))) = None.
Proof.
  apply (proj2 (unregister_deletes_by_view_id (λ p : string * nat, p.2) (λ p, p.1)
                  ("v", 1%nat) ("v", 2%nat) (onReady newTreeModelManager) "v")).
  reflexivity.
Defined.

(** ** TreeViewFeature *)

(** X25.  The handler of [metals/treeViewDidChange] does one thing per
    node of the message, in order: a node whose view is known, from an
    earlier message or from an earlier node of this one, is fired on the
    emitter of the view; the first node of an unknown view only makes the
    provider of the view registered, and is itself not forwarded.  The
    known views afterwards are those before and those of the nodes. *)
Theorem treeViewDidChange_first_node_registers nodes st :
  let st' := onTreeViewDidChange nodes st in
  viewUpdaters st' = viewUpdaters st ∪ list_to_set (viewId <$> nodes) ∧
  ∃ new, effects st' = effects st ++ new ∧
    length new = length nodes ∧
    ∀ i node, nodes !! i = Some node →
      new !! i = Some (if bool_decide (viewId node ∈ viewUpdaters st ∨
                                       viewId node ∈ viewId <$> take i nodes)
                       then FireUpdatedNode (viewId node) node
                       else RegisterTreeViewsProvider (viewId node)).
Proof.
  cbv zeta. unfold onTreeViewDidChange. revert st.
  induction nodes as [|n nodes IH]; intros st.
  { cbn [foldl fmap list_fmap]. rewrite list_to_set_nil. split.
    { apply set_eq. intros x. rewrite elem_of_union, elem_of_empty. tauto. }
    exists []. rewrite app_nil_r. by split_and!. }
  cbn [foldl]. destruct (IH (onChangedNode st n)) as (Hv & new & He & Hlen & Hnew).
  assert (viewUpdaters (onChangedNode st n) = {[viewId n]} ∪ viewUpdaters st) as Hstep.
  { unfold onChangedNode. destruct (decide (viewId n ∈ viewUpdaters st)) as [Hin|Hin].
    - rewrite bool_decide_eq_true_2 by done. cbn [viewUpdaters].
      apply set_eq. intros x. rewrite elem_of_union, elem_of_singleton.
      split; [tauto | by intros [->|?]].
    - by rewrite bool_decide_eq_false_2. }
  split.
  { rewrite Hv, Hstep, fmap_cons, list_to_set_cons.
    apply set_eq. intros x. rewrite !elem_of_union. tauto. }
  exists ((if bool_decide (viewId n ∈ viewUpdaters st)
           then FireUpdatedNode (viewId n) n else RegisterTreeViewsProvider (viewId n)) :: new).
  split_and!.
  - rewrite He. unfold onChangedNode. case_bool_decide; cbn [effects]; by rewrite <- app_assoc.
  - cbn [length]. by rewrite Hlen.
  - intros [|i] node Hi; cbn [lookup list_lookup] in Hi |- *.
    + injection Hi as ->. cbn [take fmap list_fmap]. f_equal.
      apply (f_equal (λ b : bool, if b then _ else _)). apply bool_decide_ext.
      split; [by left | by intros [?|?%elem_of_nil]].
    + etrans; [exact (Hnew i node Hi)|]. cbn [take fmap list_fmap]. f_equal.
      apply (f_equal (λ b : bool, if b then _ else _)). apply bool_decide_ext.
      rewrite Hstep, elem_of_union, elem_of_singleton, elem_of_cons. tauto.
Qed.

(** ** TreeViewsManager *)

Lemma findIndex_range descs view : -1 ≤ findIndex descs view.
Proof.
  induction descs as [|d descs IH]; cbn; [lia|].
  case_bool_decide; [lia|]. destruct (Z.eqb_spec (findIndex descs view) (-1)); lia.
Qed.

Lemma findIndex_name descs view :
  0 ≤ findIndex descs view →
  name <$> descs !! Z.to_nat (findIndex descs view) = Some view.
Proof.
  induction descs as [|d descs IH]; cbn; [lia|].
  case_bool_decide as Hd; [intros _; rewrite Z2Nat.inj_0; cbn; congruence|].
  pose proof (findIndex_range descs view).
  destruct (Z.eqb_spec (findIndex descs view) (-1)); [lia|]. intros _.
  replace (Z.to_nat (findIndex descs view + 1)) with (S (Z.to_nat (findIndex descs view)))
    by lia.
  cbn. apply IH. lia.
Qed.

(** X26.  The comparator of the views: it is antisymmetric; a view comes
    before another exactly when it is configured and the other is not, or
    is configured at a smaller index, so that the configured views are
    ordered by descending index and the others come last; and it answers 0
    only for a view and itself or for two views that are not configured. *)
Theorem viewsComparator_order descs view1 view2 :
  let idx1 := findIndex descs view1 in
  let idx2 := findIndex descs view2 in
  viewsComparator descs view1 view2 = - viewsComparator descs view2 view1 ∧
  (viewsComparator descs view1 view2 < 0 ↔ 0 ≤ idx1 ∧ (idx2 = -1 ∨ idx2 < idx1)) ∧
  (viewsComparator descs view1 view2 = 0 ↔ (idx1 = -1 ∧ idx2 = -1) ∨ view1 = view2).
Proof.
  cbv zeta. unfold viewsComparator.
  pose proof (findIndex_range descs view1) as H1.
  pose proof (findIndex_range descs view2) as H2.
  pose proof (findIndex_name descs view1) as N1.
  pose proof (findIndex_name descs view2) as N2.
  destruct (Z.eqb_spec (findIndex descs view1) (-1)) as [E1|E1];
    destruct (Z.eqb_spec (findIndex descs view2) (-1)) as [E2|E2]; cbn.
  - split_and!; [lia | lia | tauto].
  - split_and!; [lia | lia |]. split; [lia|]. intros [?| ->]; [lia | congruence].
  - split_and!; [lia | lia |]. split; [lia|]. intros [?| ->]; [lia | congruence].
  - split_and!; [lia | lia |]. split.
    + intros Heq. right. assert (findIndex descs view1 = findIndex descs view2) as E by lia.
      rewrite E in N1. rewrite N1 in N2 by lia. injection N2; [done | lia].
    + intros [?| ->]; lia.
Qed.
